(** * Chandur-Hess preload calculator: the calculation core

    A shallow embedding of [src/core/preload.py] and [src/core/torque.py],
    and of [generate_implant_analysis], the pure caller of both in
    [app/components/implant_systems_analysis.py].

    The Python functions are pure: each takes scalars and either returns a
    scalar (or a pair of strings) or raises.  They are embedded as functions
    into an error monad whose failures are the Python exceptions.  Python's
    [/] on floats raises [ZeroDivisionError] on a zero divisor and [** 2]
    raises [OverflowError] when a finite operand overflows; both are part of
    the embedding.

    The arithmetic itself is a parameter ([PyNum]).  Two instances are given:
    - [binary64], Rocq's primitive IEEE-754 binary64 floats, the very
      values CPython computes with (round to nearest even, NaN, infinities);
    - [exact], the rationals with exact operations, in which [math.pi] is
      the rational number stored in the binary64 constant.
    Statements about comparisons and guards are proved for every instance
    that satisfies the order laws [PyOrder] (both do).  Statements about
    values come in two kinds.  Over [exact] the formulas hold as identities,
    with rounding, overflow and NaN left out.  Over [binary64] every
    operation rounds: the last part of the file derives from [SpecFloat]
    that the float operations round to nearest, monotonically and with a
    relative error of at most 2^-53, and proves what the float program
    does, with the ranges of inputs that this needs. *)

From Stdlib Require Import ZArith QArith Qabs Qround Qpower Qminmax Lqa Lia Bool.
From Stdlib Require Import Ascii String List.
From Stdlib Require Import Uint63 Floats.

Set Warnings "-inexact-float".

(** ** Outcomes of a Python call *)

Inductive exn : Type :=
  | ValueError (msg : string)
  | ZeroDivisionError
  | OverflowError.

Inductive result (A : Type) : Type :=
  | Ok (a : A)
  | Raise (e : exn).

Arguments Ok {A} a.
Arguments Raise {A} e.

Definition bind {A B : Type} (r : result A) (k : A -> result B) : result B :=
  match r with
  | Ok a => k a
  | Raise e => Raise e
  end.

Notation "x <- r ;; k" := (bind r (fun x => k))
  (at level 61, r at next level, right associativity).


Definition raises_ValueError {A : Type} (r : result A) : Prop :=
  exists msg, r = Raise (ValueError msg).

(** ** The arithmetic of Python floats, as an interface *)

Class PyNum (T : Type) : Type := {
  fadd : T -> T -> T;
  fsub : T -> T -> T;
  fmul : T -> T -> T;
  (** the quotient for a divisor that is not zero *)
  fquo : T -> T -> T;
  feqb : T -> T -> bool;
  fleb : T -> T -> bool;
  fltb : T -> T -> bool;
  is_inf : T -> bool;
  (** an integer literal, converted as Python converts an [int] operand *)
  of_Z : Z -> T;
  math_pi : T
}.

Declare Scope py_scope.
Delimit Scope py_scope with py.

Notation "x + y" := (fadd x y) : py_scope.
Notation "x - y" := (fsub x y) : py_scope.
Notation "x * y" := (fmul x y) : py_scope.
Notation "x ==? y" := (feqb x y) (at level 70) : py_scope.
Notation "x <=? y" := (fleb x y) (at level 70) : py_scope.
Notation "x <? y" := (fltb x y) (at level 70) : py_scope.
Notation "x >? y" := (fltb y x) (at level 70) : py_scope.
Notation "x >=? y" := (fleb y x) (at level 70) : py_scope.

(** ** The implant catalog, as [generate_implant_analysis] reads it

    The catalog is the parsed JSON file: a dictionary of systems, each a
    dictionary of models, in file order.  Every model is taken to carry its
    ["connection_type"] and its ["screws"]["standard"] entry with the five
    numeric fields the analysis reads (the ["material"] string is never
    read). *)

Record screw_data (T : Type) : Type := {
  recommended_torque : T;
  diameter : T;
  thread_pitch : T;
  K_factor : T;
  yield_strength : T
}.

Arguments recommended_torque {T} _.
Arguments diameter {T} _.
Arguments thread_pitch {T} _.
Arguments K_factor {T} _.
Arguments yield_strength {T} _.

Record model_data (T : Type) : Type := {
  connection_type : string;
  screws_standard : screw_data T
}.

Arguments connection_type {T} _.
Arguments screws_standard {T} _.

(** One dictionary appended to [analysis]; the fields are the keys. *)
Record analysis_row (T : Type) : Type := {
  System : string;
  Model : string;
  Connection_Type : string;
  Recommended_Torque : T;
  Diameter_mm : T;
  Thread_Pitch_mm : T;
  K_Factor : T;
  Yield_Strength : T;
  Conventional_Preload : T;
  WH_Preload : T;
  Conv_Uncertainty : Z;
  WH_Uncertainty : Z;
  Conv_Stress : T;
  WH_Stress : T;
  Conv_Safety_Factor : T;
  WH_Safety_Factor : T;
  Conv_Risk_Level : string;
  WH_Risk_Level : string;
  In_Conv_Range : bool;
  Uncertainty_Reduction : T;
  Preload_Difference : T
}.

Arguments System {T} _.
Arguments Model {T} _.
Arguments Connection_Type {T} _.
Arguments Recommended_Torque {T} _.
Arguments Diameter_mm {T} _.
Arguments Thread_Pitch_mm {T} _.
Arguments K_Factor {T} _.
Arguments Yield_Strength {T} _.
Arguments Conventional_Preload {T} _.
Arguments WH_Preload {T} _.
Arguments Conv_Uncertainty {T} _.
Arguments WH_Uncertainty {T} _.
Arguments Conv_Stress {T} _.
Arguments WH_Stress {T} _.
Arguments Conv_Safety_Factor {T} _.
Arguments WH_Safety_Factor {T} _.
Arguments Conv_Risk_Level {T} _.
Arguments WH_Risk_Level {T} _.
Arguments In_Conv_Range {T} _.
Arguments Uncertainty_Reduction {T} _.
Arguments Preload_Difference {T} _.

(** [s.replace("_", " ")] *)
Fixpoint replace_underscores (s : string) : string :=
  match s with
  | EmptyString => EmptyString
  | String c s' =>
      String (if Ascii.eqb c "_" then " "%char else c) (replace_underscores s')
  end.

Section Core.

Context {T : Type} {N : PyNum T}.

Local Open Scope py_scope.

(** A decimal literal [m]e-[k], such as [0.9382 = dec 9382 4].  Both [m] and
    [10^k] are exactly representable, so the correctly rounded quotient is
    the float Python parses the literal to. *)
Definition dec (m : Z) (k : nat) : T := fquo (of_Z m) (of_Z (10 ^ Z.of_nat k)).

(** Python's [x / y]. *)
Definition py_div (x y : T) : result T :=
  if y ==? of_Z 0 then Raise ZeroDivisionError else Ok (fquo x y).

(** Python's [x ** 2]. *)
Definition py_pow2 (x : T) : result T :=
  let r := x * x in
  if is_inf x then Ok r
  else if is_inf r then Raise OverflowError
  else Ok r.

Notation "x / y" := (py_div x y) : py_scope.

(** *** [src/core/preload.py] *)

Definition calculate_preload (tightening_torque removal_torque thread_pitch : T)
  : result T :=
  if thread_pitch <=? of_Z 0 then
    Raise (ValueError "Thread pitch must be greater than zero")
  else
    (tightening_torque - removal_torque) * math_pi / thread_pitch.

Definition calculate_final_torque
    (initial_torque removal_torque initial_preload desired_preload thread_pitch : T)
    (use_ratio_method : bool) : result T :=
  if thread_pitch <=? of_Z 0 then
    Raise (ValueError "Thread pitch must be greater than zero")
  else if initial_torque <=? removal_torque then
    Raise (ValueError "Initial torque must be greater than removal torque")
  else
    q <- desired_preload / initial_preload ;;
    let ratio_method := initial_torque * q in
    exact_method <- (thread_pitch * initial_torque * desired_preload)
                    / (math_pi * (initial_torque - removal_torque)) ;;
    Ok (if use_ratio_method then ratio_method else exact_method).

(** [use_ratio_method] left at its default. *)
Definition calculate_final_torque_default
    (initial_torque removal_torque initial_preload desired_preload thread_pitch : T)
  : result T :=
  calculate_final_torque initial_torque removal_torque initial_preload
    desired_preload thread_pitch false.

Definition calculate_self_loosening (tightening_torque removal_torque : T) : result T :=
  (tightening_torque - removal_torque) / of_Z 2.

Definition calculate_primary_locking (tightening_torque removal_torque : T) : result T :=
  (tightening_torque + removal_torque) / of_Z 2.

(** *** [src/core/torque.py] *)

Definition estimate_preload_from_torque (torque screw_diameter k_factor : T) : result T :=
  if screw_diameter <=? of_Z 0 then
    Raise (ValueError "Screw diameter must be positive")
  else if k_factor <=? of_Z 0 then
    Raise (ValueError "k_factor must be positive")
  else
    torque / (k_factor * screw_diameter).

Definition calculate_stress_from_preload (preload tensile_area : T) : result T :=
  if tensile_area <=? of_Z 0 then
    Raise (ValueError "Tensile area must be positive")
  else
    preload / tensile_area.

Definition calculate_safety_factor (stress yield_strength : T) : result T :=
  if stress <=? of_Z 0 then
    Raise (ValueError "Stress must be positive")
  else if yield_strength <=? of_Z 0 then
    Raise (ValueError "Yield strength must be positive")
  else
    yield_strength / stress.

Definition assess_risk (safety_factor min_safety_factor : T)
  : result (string * string) :=
  if safety_factor <? of_Z 0 then
    Raise (ValueError "Safety factor must be positive")
  else if safety_factor >? dec 30 1 then
    Ok ("Low", "Safe for use with standard protocol")%string
  else if safety_factor >=? min_safety_factor then
    Ok ("Medium", "Safe for use, but consider more frequent check-ups")%string
  else
    Ok ("High",
        "Not recommended, consider alternative implant system or reduced loading")%string.

(** [min_safety_factor] left at its default, 1.5. *)
Definition assess_risk_default (safety_factor : T) : result (string * string) :=
  assess_risk safety_factor (dec 15 1).

Definition calculate_tensile_area (nominal_diameter thread_pitch : T) : result T :=
  if nominal_diameter <=? of_Z 0 then
    Raise (ValueError "Nominal diameter must be positive")
  else if thread_pitch <=? of_Z 0 then
    Raise (ValueError "Thread pitch must be positive")
  else
    let effective_diameter := nominal_diameter - dec 9382 4 * thread_pitch in
    c <- math_pi / of_Z 4 ;;
    s <- py_pow2 effective_diameter ;;
    Ok (c * s).

(** *** The three steps in a row

    Torque to preload by the nut-factor formula, preload to stress over the
    tensile area derived from the same diameter and the pitch, stress to
    safety factor; an exception of any step ends the composition. *)
Definition safety_factor_from_torque
    (torque screw_diameter k_factor thread_pitch yield_strength : T) : result T :=
  tensile_area <- calculate_tensile_area screw_diameter thread_pitch ;;
  preload <- estimate_preload_from_torque torque screw_diameter k_factor ;;
  stress <- calculate_stress_from_preload preload tensile_area ;;
  calculate_safety_factor stress yield_strength.

(** *** The rest of [src/core/preload.py] *)

(** The table both modules use: 25 % lubricated, 35 % otherwise. *)
Definition uncertainty_table (is_lubricated : bool) : Z :=
  if is_lubricated then 25%Z else 35%Z.

Definition estimate_uncertainty (torque_value : T) (is_lubricated : bool)
  : result (Z * T) :=
  let uncertainty_percent := uncertainty_table is_lubricated in
  f <- of_Z uncertainty_percent / of_Z 100 ;;
  let uncertainty_value := f * torque_value in
  Ok (uncertainty_percent, uncertainty_value).

Definition calculate_preload_range (preload uncertainty_percent : T)
  : result (T * T) :=
  uncertainty_factor <- uncertainty_percent / of_Z 100 ;;
  let min_preload := preload * (of_Z 1 - uncertainty_factor) in
  let max_preload := preload * (of_Z 1 + uncertainty_factor) in
  Ok (min_preload, max_preload).

(** *** The rest of [src/core/torque.py] *)

Definition calculate_torque_range (nominal_torque : T) (is_lubricated : bool)
  : result (T * T) :=
  let uncertainty := uncertainty_table is_lubricated in
  uncertainty_factor <- of_Z uncertainty / of_Z 100 ;;
  let min_torque := nominal_torque * (of_Z 1 - uncertainty_factor) in
  let max_torque := nominal_torque * (of_Z 1 + uncertainty_factor) in
  Ok (min_torque, max_torque).

(** *** [app/components/implant_systems_analysis.py]

    The body of the loop of [generate_implant_analysis], for one model: the
    statements in source order, so that the first exception is the one that
    ends the analysis. *)
Definition analyse_model (system_name model_name : string) (model : model_data T)
    (removal_factor : T) : result (analysis_row T) :=
  let screw := screws_standard model in
  let torque := recommended_torque screw in
  diameter_cm <- diameter screw / of_Z 10 ;;
  thread_pitch_cm <- thread_pitch screw / of_Z 10 ;;
  let k_factor := K_factor screw in
  let yield := yield_strength screw in
  let removal_torque := torque * removal_factor in
  tensile_area <- calculate_tensile_area (diameter screw) (thread_pitch screw) ;;
  conventional_preload <- estimate_preload_from_torque torque diameter_cm k_factor ;;
  cu <- estimate_uncertainty torque false ;;
  let conv_uncertainty := fst cu in
  wh_preload <- calculate_preload torque removal_torque thread_pitch_cm ;;
  let wh_uncertainty := 9%Z in
  conv_stress <- calculate_stress_from_preload conventional_preload tensile_area ;;
  wh_stress <- calculate_stress_from_preload wh_preload tensile_area ;;
  conv_safety <- calculate_safety_factor conv_stress yield ;;
  wh_safety <- calculate_safety_factor wh_stress yield ;;
  conv_risk <- assess_risk_default conv_safety ;;
  wh_risk <- assess_risk_default wh_safety ;;
  f <- of_Z conv_uncertainty / of_Z 100 ;;
  let conv_min := conventional_preload * (of_Z 1 - f) in
  f' <- of_Z conv_uncertainty / of_Z 100 ;;
  let conv_max := conventional_preload * (of_Z 1 + f') in
  let in_range := (conv_min <=? wh_preload) && (wh_preload <=? conv_max) in
  r <- of_Z (conv_uncertainty - wh_uncertainty) / of_Z conv_uncertainty ;;
  let uncertainty_reduction := r * of_Z 100 in
  d <- (conventional_preload - wh_preload) / conventional_preload ;;
  Ok {| System := replace_underscores system_name;
        Model := replace_underscores model_name;
        Connection_Type := connection_type model;
        Recommended_Torque := torque;
        Diameter_mm := diameter screw;
        Thread_Pitch_mm := thread_pitch screw;
        K_Factor := k_factor;
        Yield_Strength := yield;
        Conventional_Preload := conventional_preload;
        WH_Preload := wh_preload;
        Conv_Uncertainty := conv_uncertainty;
        WH_Uncertainty := wh_uncertainty;
        Conv_Stress := conv_stress;
        WH_Stress := wh_stress;
        Conv_Safety_Factor := conv_safety;
        WH_Safety_Factor := wh_safety;
        Conv_Risk_Level := fst conv_risk;
        WH_Risk_Level := fst wh_risk;
        In_Conv_Range := in_range;
        Uncertainty_Reduction := uncertainty_reduction;
        Preload_Difference := d * of_Z 100 |}.

(** The inner loop: the models of one system, appended in order. *)
Fixpoint analyse_models (system_name : string)
    (models : list (string * model_data T)) (removal_factor : T)
  : result (list (analysis_row T)) :=
  match models with
  | nil => Ok nil
  | (model_name, model) :: rest =>
      row <- analyse_model system_name model_name model removal_factor ;;
      rows <- analyse_models system_name rest removal_factor ;;
      Ok (row :: rows)
  end.

(** The outer loop over [implant_data["implant_systems"]]. *)
Fixpoint generate_implant_analysis
    (implant_systems : list (string * list (string * model_data T)))
    (removal_factor : T) : result (list (analysis_row T)) :=
  match implant_systems with
  | nil => Ok nil
  | (system_name, system_data) :: rest =>
      rows <- analyse_models system_name system_data removal_factor ;;
      rows' <- generate_implant_analysis rest removal_factor ;;
      Ok (rows ++ rows')%list
  end.

(** *** [app/app.py]: the catalog [load_implant_data] falls back to *)
Definition fallback_implant_systems : list (string * list (string * model_data T)) :=
  ("Generic"%string,
   ("Standard"%string,
    {| connection_type := "Generic";
       screws_standard :=
         {| recommended_torque := of_Z 35;
            diameter := dec 20 1;
            thread_pitch := dec 4 1;
            K_factor := dec 2 1;
            yield_strength := of_Z 950 |} |}) :: nil) :: nil.

(** [abs(x - y) <= delta], the test suite's tolerance check. *)
Definition within (delta x y : T) : bool :=
  (x - y <=? delta) && (y - x <=? delta).

End Core.

Notation "x / y" := (py_div x y) : py_scope.

(** ** Strings: [s.lower()] and [needle in s] *)

Definition lower_ascii (c : ascii) : ascii :=
  let n := nat_of_ascii c in
  if (65 <=? n)%nat && (n <=? 90)%nat then ascii_of_nat (n + 32) else c.

Fixpoint lower (s : string) : string :=
  match s with
  | EmptyString => EmptyString
  | String c s' => String (lower_ascii c) (lower s')
  end.

Fixpoint contains (needle s : string) : bool :=
  if prefix needle s then true
  else match s with
       | EmptyString => false
       | String _ s' => contains needle s'
       end.

(** The three risk levels, from best to worst. *)
Definition severity (risk_level : string) : nat :=
  if String.eqb risk_level "Low" then 0
  else if String.eqb risk_level "Medium" then 1
  else 2.

(** ** The two arithmetics *)

(** The double nearest to pi, as [math.pi] holds it: 0x1.921fb54442d18p+1. *)
Definition pi_binary64 : float := 0x1.921fb54442d18p+1%float.

Definition float_of_Z (z : Z) : float :=
  match z with
  | Z0 => PrimFloat.of_uint63 (Uint63.of_Z 0)
  | Zpos _ => PrimFloat.of_uint63 (Uint63.of_Z z)
  | Zneg _ => PrimFloat.opp (PrimFloat.of_uint63 (Uint63.of_Z (- z)))
  end.

#[export] Instance binary64 : PyNum float := {
  fadd := PrimFloat.add;
  fsub := PrimFloat.sub;
  fmul := PrimFloat.mul;
  fquo := PrimFloat.div;
  feqb := PrimFloat.eqb;
  fleb := PrimFloat.leb;
  fltb := PrimFloat.ltb;
  is_inf := PrimFloat.is_infinity;
  of_Z := float_of_Z;
  math_pi := pi_binary64
}.

(** The same number as a fraction: 884279719003555 / 2^48. *)
Definition pi_exact : Q := 884279719003555 # 281474976710656.

#[export] Instance exact : PyNum Q := {
  fadd := Qplus;
  fsub := Qminus;
  fmul := Qmult;
  fquo := Qdiv;
  feqb := Qeq_bool;
  fleb := Qle_bool;
  fltb := fun x y => negb (Qle_bool y x);
  is_inf := fun _ => false;
  of_Z := inject_Z;
  math_pi := pi_exact
}.

(** A catalog entry with positive torque, diameter, pitch, nut factor and
    yield strength, and an effective diameter that is not zero. *)
Definition plausible_screw (s : screw_data Q) : Prop :=
  0 < recommended_torque s /\ 0 < diameter s /\ 0 < thread_pitch s /\
  0 < K_factor s /\ 0 < yield_strength s /\
  ~ diameter s == 0.9382 * thread_pitch s.

(** What a row of the analysis satisfies when its screw is plausible and
    the removal factor is below one. *)
Definition consistent_row (removal_factor : Q) (r : analysis_row Q) : Prop :=
  Conventional_Preload r
    == 10 * Recommended_Torque r / (K_Factor r * Diameter_mm r) /\
  WH_Preload r
    == 10 * Recommended_Torque r * (1 - removal_factor) * pi_exact
       / Thread_Pitch_mm r /\
  0 < WH_Preload r /\ 0 < Conv_Safety_Factor r /\ 0 < WH_Safety_Factor r /\
  WH_Safety_Factor r * WH_Preload r
    == Conv_Safety_Factor r * Conventional_Preload r /\
  Conv_Uncertainty r = 35%Z /\ WH_Uncertainty r = 9%Z /\
  Uncertainty_Reduction r == 2600 / 35 /\
  (In_Conv_Range r = true <->
   0.65 * Conventional_Preload r <= WH_Preload r <= 1.35 * Conventional_Preload r).

(** Every model of every system of a catalog. *)
Definition catalog_models {T : Type}
    (implant_systems : list (string * list (string * model_data T)))
  : list (string * string * model_data T) :=
  flat_map (fun system =>
              map (fun model => (fst system, fst model, snd model)) (snd system))
           implant_systems.

(** ** The values of binary64 floats

    What follows is the vocabulary of the statements about the float
    program: the rational value of a float, rounding to nearest with ties
    to even as [SpecFloat] implements it, and ranges and relative errors of
    computed floats. *)

Section Binary64Values.

Local Open Scope Z_scope.

(** [2^e], for any integer [e]. *)
Definition bpow (e : Z) : Q := Qpower 2 e.

(** Where [x] lies in the interval from [lo] to [lo + w], as the
    [location] that the rounding functions of [SpecFloat] carry: on the lower
    end, below, at or above the middle. *)
Definition in_loc (x lo w : Q) (l : location) : Prop :=
  match l with
  | loc_Exact => (x == lo)%Q
  | loc_Inexact Lt => (lo < x /\ 2 * (x - lo) < w)%Q
  | loc_Inexact Eq => (2 * (x - lo) == w)%Q
  | loc_Inexact Gt => (w < 2 * (x - lo) /\ x < lo + w)%Q
  end.

(** [x] lies between [m * 2^e] and [(m + 1) * 2^e], at location [l]. *)
Definition inbetween (x : Q) (m e : Z) (l : location) : Prop :=
  in_loc x (inject_Z m * bpow e) (bpow e) l.

(** Rounding to the nearest integer, ties to even. *)
Definition RNE (q : Q) : Z :=
  let f := Qfloor q in
  match Qcompare (2 * (q - inject_Z f)) 1 with
  | Lt => f
  | Eq => if Z.even f then f else f + 1
  | Gt => f + 1
  end.

(** [x] rounded to a multiple of [2^E]. *)
Definition rnd (E : Z) (x : Q) : Q := (inject_Z (RNE (x / bpow E)) * bpow E)%Q.

(** What [binary_round_aux] makes of a rounded magnitude [r] and a sign
    [s]: a zero, a finite float of value [r], or an infinity when [r] has
    left the range. *)
Definition round_result (s : bool) (r : Q) (f : spec_float) : Prop :=
  match f with
  | S754_zero s' => s' = s /\ (r == 0)%Q
  | S754_finite s' m e => s' = s /\ (r == inject_Z (Zpos m) * bpow e)%Q /\ (r < bpow 1024)%Q
  | S754_infinity s' => s' = s /\ (bpow 1024 <= r)%Q
  | S754_nan => False
  end.

(** [- q] when the sign bit [s] is set. *)
Definition cond_Qopp (s : bool) (q : Q) : Q := if s then (- q)%Q else q.

(** The value of a float on the extended line: the infinities sit at
    [+- 2^1024], above every finite binary64 number. *)
Definition SF2Q (f : spec_float) : Q :=
  match f with
  | S754_finite s m e => cond_Qopp s (inject_Z (Zpos m) * bpow e)
  | S754_infinity s => cond_Qopp s (bpow 1024)
  | _ => 0%Q
  end.

Definition SFis_nan (f : spec_float) : bool :=
  match f with S754_nan => true | _ => false end.

(** [good_exp x E]: [E] is the exponent binary64 rounds [x] at, the one of
    the binade of [x], or the smallest one below the normal range. *)
Definition good_exp (x : Q) (E : Z) : Prop :=
  (E = -1074 /\ (x < bpow (-1021))%Q) \/
  (-1074 < E /\ (bpow (E + 52) <= x < bpow (E + 53))%Q).

(** The float [f] of sign [s] is the magnitude [x] rounded. *)
Definition rounds_to (s : bool) (x : Q) (f : spec_float) : Prop :=
  exists E, good_exp x E /\ round_result s (rnd E x) f.

(** The magnitude [m * 2^e] of a finite float. *)
Definition Fval (m : positive) (e : Z) : Q := (inject_Z (Zpos m) * bpow e)%Q.

(** [rounded v w]: [w] is [v] rounded to binary64, to nearest and ties to
    even, with overflow sent to the infinities at [+- 2^1024]. *)
Definition rounded (v w : Q) : Prop :=
  exists E, good_exp (Qabs v) E /\
    (((0 <= v)%Q /\ (w == Qmin (rnd E v) (bpow 1024))%Q) \/
     ((v <= 0)%Q /\ (w == - Qmin (rnd E (- v)) (bpow 1024))%Q)).

(** Zeros and finite floats: neither NaN nor infinite. *)
Definition SFfinite (f : spec_float) : bool :=
  match f with S754_zero _ | S754_finite _ _ _ => true | _ => false end.

(** The value of a binary64 float, its infinities at [+- 2^1024]. *)
Definition B2Q (f : float) : Q := SF2Q (Prim2SF f).

Definition Bnan (f : float) : bool := SFis_nan (Prim2SF f).

Definition Bfinite (f : float) : bool := SFfinite (Prim2SF f).

(** The preload expression as binary64 evaluates it. *)
Definition preload_binary64 (Tt Tr p : float) : float :=
  ((Tt - Tr) * pi_binary64 / p)%float.

(** [in_range i j f]: [f] is a finite float with [2^i <= f <= 2^j]. *)
Definition in_range (i j : Z) (f : float) : Prop :=
  Bfinite f = true /\ (bpow i <= B2Q f <= bpow j)%Q.

(** Inputs of moderate size: between 2^-100 and 2^100. *)
Definition moderate (x : float) : bool :=
  ((0x1p-100 <=? x) && (x <=? 0x1p+100))%float.

(** Sums and differences of floats are multiples of 2^-1074: below the
    normal range they are floats, and rounding leaves them alone. *)
Definition grid (v : Q) : Prop := exists z : Z, (v == inject_Z z * bpow (-1074))%Q.

(** The largest binary64 number, and half of it. *)
Definition max_value : Q := Fval (2 ^ 53 - 1) 971.

(** [sand l h v w]: [w] lies between [l * v] and [h * v]. *)
Definition sand (l h v w : Q) : Prop := (l * v <= w <= h * v)%Q.

(** [k] units of rounding error: the factors [1 - k 2^-53] and [1 + k 2^-53]. *)
Definition lo (k : Z) : Q := (1 - inject_Z k * (1 # 9007199254740992))%Q.

Definition hi (k : Z) : Q := (1 + inject_Z k * (1 # 9007199254740992))%Q.

(** [track k v f i j]: the float [f] lies in [2^i, 2^j] and carries at most
    [k] units of relative rounding error against the real number [v]. *)
Definition track (k : Z) (v : Q) (f : float) (i j : Z) : Prop :=
  in_range i j f /\ (0 < v)%Q /\ sand (lo k) (hi k) v (B2Q f).

(** The two torques, as terms. *)
Definition exact_torque_binary64 (Tt Tr p D : float) : float :=
  (p * Tt * D / (pi_binary64 * (Tt - Tr)))%float.

Definition ratio_torque_binary64 (Tt Tr p D : float) : float :=
  (Tt * (D / ((Tt - Tr) * pi_binary64 / p)))%float.

(** [in_range0 j f]: [f] is a finite float with [0 <= f <= 2^j]. *)
Definition in_range0 (j : Z) (f : float) : Prop :=
  Bfinite f = true /\ (0 <= B2Q f <= bpow j)%Q.

End Binary64Values.

(** ** The order laws the guards rely on

    They hold of IEEE comparisons too, where every comparison with NaN is
    false: none of them is reflexivity or totality. *)

Class PyOrder {T : Type} (N : PyNum T) : Prop := {
  lt_not_ge : forall x y : T, fltb x y = true -> fleb y x = false;
  lt_le : forall x y : T, fltb x y = true -> fleb x y = true;
  lt_trans : forall x y z : T, fltb x y = true -> fltb y z = true -> fltb x z = true;
  eq_le : forall x y : T, feqb x y = true -> fleb x y = true;
  lit_0_lt_1_5 : fltb (of_Z 0) (dec 15 1) = true;
  lit_1_5_lt_3_0 : fltb (dec 15 1) (dec 30 1) = true
}.

(** Mixed transitivity, and the integer literals that serve as divisors. *)
Class PyOrderTrans {T : Type} (N : PyNum T) : Prop := {
  le_lt_trans : forall x y z : T, fleb x y = true -> fltb y z = true -> fltb x z = true;
  lt_le_trans : forall x y z : T, fltb x y = true -> fleb y z = true -> fltb x z = true;
  le_trans : forall x y z : T, fleb x y = true -> fleb y z = true -> fleb x z = true
}.

Class PyLiterals {T : Type} (N : PyNum T) : Prop := {
  lit_nonzero :
    forall z : Z, In z (2 :: 4 :: 10 :: 25 :: 35 :: 100 :: nil)%Z ->
    feqb (of_Z z) (of_Z 0) = false
}.

(** *** binary64 *)

Lemma SFcompare_antisym (x y : spec_float) :
  SFcompare y x = option_map CompOpp (SFcompare x y).
Proof.
  destruct x as [sx|sx| |sx mx ex], y as [sy|sy| |sy my ey]; simpl;
    try destruct sx; try destruct sy; try reflexivity;
    rewrite (Z.compare_antisym ex ey); destruct (ex ?= ey)%Z; simpl; try reflexivity;
    change (Pos.compare_cont Eq my mx) with (Pos.compare my mx);
    change (Pos.compare_cont Eq mx my) with (Pos.compare mx my);
    rewrite (Pos.compare_antisym mx my); destruct (mx ?= my)%positive; reflexivity.
Qed.

Lemma SFcompare_Lt_trans (x y z : spec_float) :
  SFcompare x y = Some Lt -> SFcompare y z = Some Lt -> SFcompare x z = Some Lt.
Proof.
  destruct x as [sx|sx| |sx mx ex], y as [sy|sy| |sy my ey], z as [sz|sz| |sz mz ez];
    simpl; try destruct sx; try destruct sy; try destruct sz;
    try discriminate; try reflexivity; intros H1 H2;
    change (Pos.compare_cont Eq) with Pos.compare in *;
    destruct (Z.compare_spec ex ey), (Z.compare_spec ey ez), (Z.compare_spec ex ez);
    try discriminate; try lia; subst;
    destruct (Pos.compare_spec mx my), (Pos.compare_spec my mz), (Pos.compare_spec mx mz);
    simpl in *; try discriminate; try lia; try reflexivity.
Qed.

Lemma binary64_lt_not_ge (x y : float) :
  PrimFloat.ltb x y = true -> PrimFloat.leb y x = false.
Proof.
  rewrite ltb_spec, leb_spec. unfold SFltb, SFleb.
  rewrite (SFcompare_antisym (Prim2SF x) (Prim2SF y)).
  destruct (SFcompare (Prim2SF x) (Prim2SF y)) as [[]|]; simpl; congruence.
Qed.

Lemma binary64_lt_le (x y : float) :
  PrimFloat.ltb x y = true -> PrimFloat.leb x y = true.
Proof.
  rewrite ltb_spec, leb_spec. unfold SFltb, SFleb.
  destruct (SFcompare (Prim2SF x) (Prim2SF y)) as [[]|]; congruence.
Qed.

Lemma binary64_lt_trans (x y z : float) :
  PrimFloat.ltb x y = true -> PrimFloat.ltb y z = true -> PrimFloat.ltb x z = true.
Proof.
  rewrite !ltb_spec. unfold SFltb. intros H1 H2.
  rewrite (SFcompare_Lt_trans (Prim2SF x) (Prim2SF y) (Prim2SF z)).
  - reflexivity.
  - destruct (SFcompare (Prim2SF x) (Prim2SF y)) as [[]|]; congruence.
  - destruct (SFcompare (Prim2SF y) (Prim2SF z)) as [[]|]; congruence.
Qed.

Lemma binary64_eq_le (x y : float) :
  PrimFloat.eqb x y = true -> PrimFloat.leb x y = true.
Proof.
  rewrite eqb_spec, leb_spec. unfold SFeqb, SFleb.
  destruct (SFcompare (Prim2SF x) (Prim2SF y)) as [[]|]; congruence.
Qed.

Lemma binary64_order : PyOrder binary64.
Proof.
  constructor.
  - exact binary64_lt_not_ge.
  - exact binary64_lt_le.
  - exact binary64_lt_trans.
  - exact binary64_eq_le.
  - vm_compute. reflexivity.
  - vm_compute. reflexivity.
Qed.

#[export] Existing Instance binary64_order.

(** *** exact rationals *)

Lemma Qle_bool_false (x y : Q) : Qle_bool x y = false <-> y < x.
Proof.
  split; intro H.
  - apply Qnot_le_lt. intro Hle. apply Qle_bool_iff in Hle. congruence.
  - destruct (Qle_bool x y) eqn:E; [|reflexivity].
    apply Qle_bool_iff in E. exfalso. apply (Qlt_not_le _ _ H E).
Qed.

Lemma Qeq_bool_false (x y : Q) : Qeq_bool x y = false <-> ~ x == y.
Proof.
  split; intro H.
  - apply Qeq_bool_neq. exact H.
  - destruct (Qeq_bool x y) eqn:E; [|reflexivity].
    apply Qeq_bool_eq in E. contradiction.
Qed.

Lemma exact_ltb_iff (x y : Q) : fltb x y = true <-> x < y.
Proof.
  simpl. rewrite negb_true_iff. apply Qle_bool_false.
Qed.

Lemma exact_leb_iff (x y : Q) : fleb x y = true <-> x <= y.
Proof. simpl. apply Qle_bool_iff. Qed.

Lemma exact_order : PyOrder exact.
Proof.
  constructor.
  - intros x y H. apply exact_ltb_iff in H. apply Qle_bool_false. exact H.
  - intros x y H. apply exact_ltb_iff in H. apply exact_leb_iff. apply Qlt_le_weak, H.
  - intros x y z H1 H2. apply exact_ltb_iff in H1, H2. apply exact_ltb_iff.
    apply (Qlt_trans _ _ _ H1 H2).
  - intros x y H. apply Qeq_bool_eq in H. apply exact_leb_iff.
    rewrite H. apply Qle_refl.
  - vm_compute. reflexivity.
  - vm_compute. reflexivity.
Qed.

#[export] Existing Instance exact_order.

(** ** Guards and comparisons, for every lawful arithmetic *)

Section Guards.

Context {T : Type} {N : PyNum T} {L : PyOrder N}.

Local Open Scope py_scope.

Lemma lt_asym (x y : T) : (x <? y) = true -> (y <? x) = false.
Proof.
  intro H. destruct (y <? x) eqn:E; [|reflexivity].
  apply lt_le in H. apply lt_not_ge in E. congruence.
Qed.

Lemma le_not_gt (x y : T) : (x <=? y) = true -> (y <? x) = false.
Proof.
  intro H. destruct (y <? x) eqn:E; [|reflexivity].
  apply lt_not_ge in E. congruence.
Qed.

Lemma lit_0_lt_3_0 : (of_Z 0 <? dec 30 1) = true.
Proof. exact (lt_trans _ _ _ lit_0_lt_1_5 lit_1_5_lt_3_0). Qed.

Lemma pos_not_zero (y : T) : (of_Z 0 <? y) = true -> (y ==? of_Z 0) = false.
Proof.
  intro H. destruct (y ==? of_Z 0) eqn:E; [|reflexivity].
  apply eq_le in E. apply lt_not_ge in H. congruence.
Qed.

Lemma py_div_nonzero (x y : T) : (y ==? of_Z 0) = false -> x / y = Ok (fquo x y).
Proof. intro H. unfold py_div. rewrite H. reflexivity. Qed.


Lemma py_div_pos (x y : T) : (of_Z 0 <? y) = true -> x / y = Ok (fquo x y).
Proof. intro H. apply py_div_nonzero, pos_not_zero, H. Qed.

Lemma py_div_not_ValueError (x y : T) : ~ raises_ValueError (x / y).
Proof.
  unfold py_div. intros [msg H]. destruct (y ==? of_Z 0); discriminate.
Qed.


(** [calculate_preload] raises [ValueError] exactly on [thread_pitch <= 0],
    whatever the two torques are. *)
Lemma calculate_preload_raises_iff (Tt Tr p : T) :
  raises_ValueError (calculate_preload Tt Tr p) <-> (p <=? of_Z 0) = true.
Proof.
  unfold calculate_preload. destruct (p <=? of_Z 0); split; intro H.
  - reflexivity.
  - eexists. reflexivity.
  - exfalso. exact (py_div_not_ValueError _ _ H).
  - discriminate.
Qed.

Lemma calculate_preload_pos (Tt Tr p : T) :
  (of_Z 0 <? p) = true ->
  calculate_preload Tt Tr p = Ok (fquo ((Tt - Tr) * math_pi) p).
Proof.
  intro H. unfold calculate_preload.
  rewrite (lt_not_ge _ _ H). apply py_div_pos, H.
Qed.



(** Between two initial preloads that are both non-zero, the exact method
    does not tell the difference. *)
Lemma calculate_final_torque_exact_ignores_preload (it rt ip ip' dp p : T) :
  (ip ==? of_Z 0) = false -> (ip' ==? of_Z 0) = false ->
  calculate_final_torque it rt ip dp p false
  = calculate_final_torque it rt ip' dp p false.
Proof.
  intros H H'. unfold calculate_final_torque.
  rewrite (py_div_nonzero _ _ H), (py_div_nonzero _ _ H'). simpl.
  destruct (p <=? of_Z 0); [reflexivity|].
  destruct (it <=? rt); [reflexivity|].
  destruct (_ / _); reflexivity.
Qed.

Lemma assess_risk_raises_iff (sf m : T) :
  raises_ValueError (assess_risk sf m) <-> (sf <? of_Z 0) = true.
Proof.
  unfold assess_risk. destruct (sf <? of_Z 0); split; intro H.
  - reflexivity.
  - eexists. reflexivity.
  - destruct H as [msg H].
    destruct (sf >? dec 30 1); [discriminate|].
    destruct (sf >=? m); discriminate.
  - discriminate.
Qed.

Lemma above_3_not_negative (sf : T) : (sf >? dec 30 1) = true -> (sf <? of_Z 0) = false.
Proof.
  intro H. destruct (sf <? of_Z 0) eqn:E; [|reflexivity].
  pose proof (lt_trans _ _ _ E lit_0_lt_3_0) as H3.
  apply lt_asym in H3. congruence.
Qed.

Lemma below_1_5_not_above_3 (sf : T) : (sf <? dec 15 1) = true -> (sf >? dec 30 1) = false.
Proof.
  intro H. destruct (sf >? dec 30 1) eqn:E; [|reflexivity].
  pose proof (lt_trans _ _ _ E H) as H3.
  pose proof (lt_asym _ _ lit_1_5_lt_3_0). congruence.
Qed.

End Guards.

(** ** Risk bands *)

Local Open Scope py_scope.

(** C4. With [min_safety_factor] at its default 1.5 and a safety factor
    [sf >= 0]: [sf > 3.0] is "Low", [1.5 <= sf <= 3.0] is "Medium" and
    [sf < 1.5] is "High" (so is [sf = 0]); the "High" recommendation,
    lower-cased, contains "not recommended"; and [ValueError] is raised
    exactly when [sf < 0]. *)
Theorem assess_risk_default_bands {T : Type} {N : PyNum T} {L : PyOrder N} (sf : T) :
  (raises_ValueError (assess_risk_default sf) <-> (sf <? of_Z 0) = true) /\
  ((of_Z 0 <=? sf) = true ->
     ((sf >? dec 30 1) = true ->
        assess_risk_default sf = Ok ("Low", "Safe for use with standard protocol")%string) /\
     ((dec 15 1 <=? sf) = true -> (sf <=? dec 30 1) = true ->
        assess_risk_default sf
        = Ok ("Medium", "Safe for use, but consider more frequent check-ups")%string) /\
     ((sf <? dec 15 1) = true ->
        exists r, assess_risk_default sf = Ok ("High"%string, r) /\
                  contains "not recommended"%string (lower r) = true)) /\
  (exists r, assess_risk_default (of_Z 0) = Ok ("High"%string, r)).
Proof.
  split; [apply assess_risk_raises_iff|]. split.
  - intro H0. pose proof (le_not_gt _ _ H0) as Hneg.
    unfold assess_risk_default, assess_risk. rewrite Hneg.
    split; [|split].
    + intro H. rewrite H. reflexivity.
    + intros H15 H30. rewrite (le_not_gt _ _ H30), H15. reflexivity.
    + intro H. rewrite (below_1_5_not_above_3 _ H), (lt_not_ge _ _ H).
      eexists. split; reflexivity.
  - unfold assess_risk_default, assess_risk.
    destruct (of_Z 0 <? of_Z 0) eqn:E.
    + pose proof (lt_asym _ _ E). congruence.
    + rewrite (lt_asym _ _ lit_0_lt_3_0), (lt_not_ge _ _ lit_0_lt_1_5).
      eexists. reflexivity.
Qed.

Lemma assess_risk_default_bands_witness :
  assess_risk_default (dec 20 1 : float)
  = Ok ("Medium", "Safe for use, but consider more frequent check-ups")%string.
Proof.
  destruct (assess_risk_default_bands (dec 20 1 : float)) as (_ & H & _).
  destruct (H eq_refl) as (_ & HM & _).
  exact (HM eq_refl eq_refl).
Defined.

(** C10. "Low" is decided before the caller's minimum is looked at: for every
    [sf > 3.0] and every [min_safety_factor], [assess_risk] answers "Low",
    also when [sf] is below that minimum. *)
Theorem assess_risk_low_before_minimum {T : Type} {N : PyNum T} {L : PyOrder N}
    (sf m : T) :
  (sf >? dec 30 1) = true ->
  assess_risk sf m = Ok ("Low", "Safe for use with standard protocol")%string.
Proof.
  intro H. unfold assess_risk.
  rewrite (above_3_not_negative _ H), H. reflexivity.
Qed.

Lemma assess_risk_low_before_minimum_witness :
  ((dec 35 1 : float) <? dec 40 1) = true /\
  assess_risk (dec 35 1 : float) (dec 40 1)
  = Ok ("Low", "Safe for use with standard protocol")%string.
Proof.
  split.
  - reflexivity.
  - apply (assess_risk_low_before_minimum (dec 35 1 : float) (dec 40 1)).
    reflexivity.
Defined.

(** ** Exact arithmetic *)

Section Exact.

Local Open Scope Q_scope.

Lemma pi_exact_pos : 0 < pi_exact.
Proof. reflexivity. Qed.

Lemma exact_pos (x : Q) : 0 < x -> fltb (of_Z 0) x = true.
Proof. intro H. apply exact_ltb_iff. exact H. Qed.

Lemma exact_py_div (x y : Q) : ~ y == 0 -> py_div x y = Ok (x / y).
Proof.
  intro H. change (py_div x y = Ok (fquo x y)).
  apply py_div_nonzero. simpl. apply Qeq_bool_false. exact H.
Qed.

Lemma exact_calculate_preload (Tt Tr p : Q) :
  0 < p -> calculate_preload Tt Tr p = Ok ((Tt - Tr) * pi_exact / p).
Proof. intro H. exact (calculate_preload_pos Tt Tr p (exact_pos p H)). Qed.

Lemma Qdiv_le_compat_l (c p p' : Q) :
  0 <= c -> 0 < p -> p <= p' -> c / p' <= c / p.
Proof.
  intros Hc Hp Hpp.
  assert (Hp' : 0 < p') by (apply (Qlt_le_trans _ p); assumption).
  apply Qle_shift_div_l; [exact Hp|].
  setoid_replace (c / p' * p) with (p / p' * c) by (field; lra).
  apply Qle_trans with (1 * c); [|lra].
  apply Qmult_le_compat_r; [|exact Hc].
  apply Qle_shift_div_r; [exact Hp'|]. lra.
Qed.

Lemma Qdiv_lt_compat_l (c p p' : Q) :
  0 < c -> 0 < p -> p < p' -> c / p' < c / p.
Proof.
  intros Hc Hp Hpp.
  assert (Hp' : 0 < p') by (apply (Qlt_trans _ p); assumption).
  apply Qlt_shift_div_l; [exact Hp|].
  setoid_replace (c / p' * p) with (p / p' * c) by (field; lra).
  apply Qlt_le_trans with (1 * c); [|lra].
  apply Qmult_lt_compat_r; [exact Hc|].
  apply Qlt_shift_div_r; [exact Hp'|]. lra.
Qed.

Lemma Qdiv_pos (a b : Q) : 0 < a -> 0 < b -> 0 < a / b.
Proof.
  intros Ha Hb. apply Qlt_shift_div_l; [exact Hb|]. lra.
Qed.

Lemma Qdiv_le_compat_r (a b p : Q) : 0 < p -> a <= b -> a / p <= b / p.
Proof.
  intros Hp H. apply Qmult_le_compat_r; [exact H|].
  apply Qlt_le_weak, Qinv_lt_0_compat, Hp.
Qed.

Lemma Qdiv_lt_compat_r (a b p : Q) : 0 < p -> a < b -> a / p < b / p.
Proof.
  intros Hp H. apply Qmult_lt_compat_r; [|exact H].
  apply Qinv_lt_0_compat, Hp.
Qed.

Lemma exact_not_le (x y : Q) : y < x -> fleb x y = false.
Proof. intro H. simpl. apply Qle_bool_false. exact H. Qed.

Lemma exact_not_le_0 (x : Q) : 0 < x -> fleb x (of_Z 0) = false.
Proof. apply exact_not_le. Qed.

Lemma exact_calculate_final_torque (it rt ip dp p : Q) (flag : bool) :
  0 < p -> rt < it -> ~ ip == 0 ->
  calculate_final_torque it rt ip dp p flag
  = Ok (if flag then it * (dp / ip)
        else p * it * dp / (pi_exact * (it - rt))).
Proof.
  intros Hp Ht Hip. unfold calculate_final_torque.
  rewrite (exact_not_le_0 p Hp), (exact_not_le it rt Ht).
  rewrite (exact_py_div dp ip Hip). cbn [bind].
  rewrite exact_py_div; [reflexivity|].
  pose proof pi_exact_pos. cbn [math_pi fmul fsub exact]. nra.
Qed.

End Exact.

(** ** The preload model over exact arithmetic *)

Local Open Scope Q_scope.

(** The preload formula without rounding.  For [Tt > Tr >= 0] and [p > 0],
    [calculate_preload Tt Tr p] returns [(Tt - Tr) * pi / p]; the value
    grows with the difference [Tt - Tr] (weakly and strictly) and shrinks as
    [p] grows (weakly and strictly).  The float program keeps the weak
    halves only, as shown further down. *)
Theorem calculate_preload_formula_monotone (Tt Tr Tt' Tr' p p' : Q) :
  Tr < Tt -> 0 <= Tr -> Tr' < Tt' -> 0 <= Tr' -> 0 < p -> 0 < p' ->
  exists v v1 v2 : Q,
    calculate_preload Tt Tr p = Ok v /\
    v = (Tt - Tr) * pi_exact / p /\
    calculate_preload Tt' Tr' p = Ok v1 /\
    calculate_preload Tt Tr p' = Ok v2 /\
    (Tt - Tr <= Tt' - Tr' -> v <= v1) /\
    (Tt - Tr < Tt' - Tr' -> v < v1) /\
    (p <= p' -> v2 <= v) /\
    (p < p' -> v2 < v).
Proof.
  intros Ht Hr Ht' Hr' Hp Hp'.
  exists ((Tt - Tr) * pi_exact / p), ((Tt' - Tr') * pi_exact / p),
         ((Tt - Tr) * pi_exact / p').
  pose proof pi_exact_pos as Hpi.
  assert (Hc : 0 < (Tt - Tr) * pi_exact) by (apply Qmult_lt_0_compat; lra).
  repeat split; try (apply exact_calculate_preload; assumption).
  - intro H. apply Qdiv_le_compat_r; [exact Hp|].
    apply Qmult_le_compat_r; [exact H | lra].
  - intro H. apply Qdiv_lt_compat_r; [exact Hp|].
    apply Qmult_lt_compat_r; assumption.
  - intro H. apply Qdiv_le_compat_l; [lra | exact Hp | exact H].
  - intro H. apply Qdiv_lt_compat_l; assumption.
Qed.

Lemma calculate_preload_formula_monotone_witness :
  exists v v1 v2 : Q,
    calculate_preload 25 21.4 0.04 = Ok v /\
    v = (25 - 21.4) * pi_exact / 0.04 /\
    calculate_preload 35 21.4 0.04 = Ok v1 /\
    calculate_preload 25 21.4 0.05 = Ok v2 /\
    (25 - 21.4 <= 35 - 21.4 -> v <= v1) /\
    (25 - 21.4 < 35 - 21.4 -> v < v1) /\
    (0.04 <= 0.05 -> v2 <= v) /\
    (0.04 < 0.05 -> v2 < v).
Proof.
  apply (calculate_preload_formula_monotone 25 21.4 35 21.4
           0.04 0.05); reflexivity || discriminate.
Defined.

(** The two methods without rounding.  When [initial_preload] equals what
    [calculate_preload Tt Tr p] returns, with [Tt > Tr] and [p > 0], the
    exact method and the ratio method of [calculate_final_torque] both
    return the same torque, for every desired preload.  The float program
    agrees up to rounding, as shown further down. *)
Theorem final_torque_methods_agree (Tt Tr p initial_preload desired_preload : Q) :
  Tr < Tt -> 0 < p ->
  (exists v : Q, calculate_preload Tt Tr p = Ok v /\ initial_preload == v) ->
  exists exact_torque ratio_torque : Q,
    calculate_final_torque Tt Tr initial_preload desired_preload p false
      = Ok exact_torque /\
    calculate_final_torque Tt Tr initial_preload desired_preload p true
      = Ok ratio_torque /\
    exact_torque == ratio_torque /\
    Qabs (exact_torque - ratio_torque) <= 0.01.
Proof.
  intros Ht Hp (v & Hv & Hip).
  rewrite (exact_calculate_preload Tt Tr p Hp) in Hv.
  injection Hv as Hv. subst v.
  pose proof pi_exact_pos as Hpi.
  assert (Hd : 0 < (Tt - Tr) * pi_exact) by (apply Qmult_lt_0_compat; lra).
  assert (Hpos : 0 < initial_preload)
    by (rewrite Hip; apply Qdiv_pos; assumption).
  assert (Hnz : ~ initial_preload == 0) by lra.
  do 2 eexists.
  split; [apply exact_calculate_final_torque; assumption|].
  split; [apply exact_calculate_final_torque; assumption|].
  assert (Heq : p * Tt * desired_preload / (pi_exact * (Tt - Tr))
                == Tt * (desired_preload / initial_preload)).
  { rewrite Hip. field. repeat split; lra. }
  split; [exact Heq|].
  rewrite Heq.
  setoid_replace (Tt * (desired_preload / initial_preload)
                  - Tt * (desired_preload / initial_preload)) with 0 by ring.
  discriminate.
Qed.

Lemma final_torque_methods_agree_witness :
  exists exact_torque ratio_torque : Q,
    calculate_final_torque 25 21.4 (90 * pi_exact) 400 0.04 false
      = Ok exact_torque /\
    calculate_final_torque 25 21.4 (90 * pi_exact) 400 0.04 true
      = Ok ratio_torque /\
    exact_torque == ratio_torque /\
    Qabs (exact_torque - ratio_torque) <= 0.01.
Proof.
  apply (final_torque_methods_agree 25 21.4 0.04).
  - reflexivity.
  - reflexivity.
  - eexists. split; [vm_compute; reflexivity | reflexivity].
Defined.

(** The guard of [calculate_preload] without rounding: [ValueError] exactly
    when [thread_pitch <= 0]; the two torques are not compared: for [p > 0]
    it returns [(Tt - Tr) * pi / p], which is negative when [Tt < Tr].  The
    float program is treated further down. *)
Theorem calculate_preload_guards_pitch_only (Tt Tr p : Q) :
  (raises_ValueError (calculate_preload Tt Tr p) <-> p <= 0) /\
  (0 < p -> calculate_preload Tt Tr p = Ok ((Tt - Tr) * pi_exact / p)) /\
  (Tt < Tr -> 0 < p ->
     exists v : Q, calculate_preload Tt Tr p = Ok v /\
                   v = (Tt - Tr) * pi_exact / p /\ v < 0).
Proof.
  split; [|split].
  - rewrite calculate_preload_raises_iff. apply exact_leb_iff.
  - apply exact_calculate_preload.
  - intros Ht Hp. eexists. split; [apply exact_calculate_preload, Hp|].
    split; [reflexivity|].
    pose proof pi_exact_pos as Hpi.
    setoid_replace ((Tt - Tr) * pi_exact / p)
      with (- ((Tr - Tt) * pi_exact / p)) by (field; lra).
    assert (0 < (Tr - Tt) * pi_exact / p);
      [apply Qdiv_pos; [apply Qmult_lt_0_compat; lra | exact Hp] | lra].
Qed.

Lemma calculate_preload_guards_pitch_only_witness :
  exists v : Q, calculate_preload 20 25 0.04 = Ok v /\
                v = (20 - 25) * pi_exact / 0.04 /\ v < 0.
Proof.
  destruct (calculate_preload_guards_pitch_only 20 25 0.04) as (_ & _ & H).
  apply H; reflexivity.
Defined.

(** Without rounding,
    [calculate_self_loosening Tt Tr + calculate_primary_locking Tt Tr] is
    [Tt], for all torques: [(Tt - Tr)/2 + (Tt + Tr)/2 = Tt].  The float
    program is treated further down. *)
Theorem self_loosening_plus_primary_locking (Tt Tr : Q) :
  exists s l : Q,
    calculate_self_loosening Tt Tr = Ok s /\
    calculate_primary_locking Tt Tr = Ok l /\
    s + l == Tt.
Proof.
  exists ((Tt - Tr) / 2), ((Tt + Tr) / 2).
  split; [reflexivity|]. split; [reflexivity|]. field.
Qed.




(** C9 fails on the code at [initial_preload = 0]: with [use_ratio_method]
    at its default, two calls that differ only in [initial_preload] end
    differently, because the quotient [desired_preload / initial_preload] is
    taken before the method is chosen.  Both arithmetics agree on it. *)
Lemma calculate_final_torque_default_reads_initial_preload :
  (calculate_final_torque_default 25 21.4 0 400 0.04 = Raise ZeroDivisionError /\
   calculate_final_torque_default 25 21.4 282.7 400 0.04
   = Ok (0.04 * 25 * 400 / (pi_exact * (25 - 21.4)))) /\
  (calculate_final_torque_default (dec 25 0 : float) (dec 214 1) (dec 0 0)
     (dec 400 0) (dec 4 2) = Raise ZeroDivisionError /\
   calculate_final_torque_default (dec 25 0 : float) (dec 214 1) (dec 2827 1)
     (dec 400 0) (dec 4 2) = Ok 35.367765131532281%float).
Proof.
  split; split; vm_compute; reflexivity.
Qed.

(** ** The torque and stress model over exact arithmetic *)

Lemma exact_estimate_preload_from_torque (torque d K : Q) :
  0 < d -> 0 < K -> estimate_preload_from_torque torque d K = Ok (torque / (K * d)).
Proof.
  intros Hd HK. unfold estimate_preload_from_torque.
  rewrite (exact_not_le_0 d Hd), (exact_not_le_0 K HK).
  apply exact_py_div. cbn [fmul exact]. nra.
Qed.

Lemma exact_calculate_stress_from_preload (preload area : Q) :
  0 < area -> calculate_stress_from_preload preload area = Ok (preload / area).
Proof.
  intro H. unfold calculate_stress_from_preload.
  rewrite (exact_not_le_0 area H). apply exact_py_div. lra.
Qed.

Lemma exact_calculate_safety_factor (stress ys : Q) :
  0 < stress -> 0 < ys -> calculate_safety_factor stress ys = Ok (ys / stress).
Proof.
  intros Hs Hy. unfold calculate_safety_factor.
  rewrite (exact_not_le_0 stress Hs), (exact_not_le_0 ys Hy).
  apply exact_py_div. lra.
Qed.

Lemma exact_calculate_tensile_area (d p : Q) :
  0 < d -> 0 < p ->
  calculate_tensile_area d p
  = Ok (pi_exact / 4 * ((d - 0.9382 * p) * (d - 0.9382 * p))).
Proof.
  intros Hd Hp. unfold calculate_tensile_area.
  rewrite (exact_not_le_0 d Hd), (exact_not_le_0 p Hp). reflexivity.
Qed.

(** The three steps without rounding.  For positive torque, diameter, nut
    factor, pitch and yield strength, the composition returns a positive
    safety factor provided the effective diameter [d - 0.9382 * p] is not
    zero.  The float program is treated further down. *)
Theorem safety_factor_from_torque_positive (torque d K p ys : Q) :
  0 < torque -> 0 < d -> 0 < K -> 0 < p -> 0 < ys ->
  ~ d == 0.9382 * p ->
  exists sf : Q, safety_factor_from_torque torque d K p ys = Ok sf /\ 0 < sf.
Proof.
  intros HT Hd HK Hp Hy He.
  unfold safety_factor_from_torque.
  rewrite (exact_calculate_tensile_area d p Hd Hp). cbn [bind].
  rewrite (exact_estimate_preload_from_torque torque d K Hd HK). cbn [bind].
  set (e := d - 0.9382 * p).
  assert (Hsq : 0 < e * e) by (subst e; nra).
  assert (Harea : 0 < pi_exact / 4 * (e * e)).
  { apply Qmult_lt_0_compat; [|exact Hsq].
    apply Qdiv_pos; [exact pi_exact_pos | reflexivity]. }
  assert (Hpre : 0 < torque / (K * d)).
  { apply Qdiv_pos; [exact HT|]. apply Qmult_lt_0_compat; assumption. }
  rewrite (exact_calculate_stress_from_preload _ _ Harea). cbn [bind].
  assert (Hstress : 0 < torque / (K * d) / (pi_exact / 4 * (e * e)))
    by (apply Qdiv_pos; assumption).
  rewrite (exact_calculate_safety_factor _ _ Hstress Hy).
  eexists. split; [reflexivity|]. apply Qdiv_pos; assumption.
Qed.

Lemma safety_factor_from_torque_positive_witness :
  exists sf : Q, safety_factor_from_torque 35 4 0.2 0.4 950 = Ok sf /\ 0 < sf.
Proof.
  apply (safety_factor_from_torque_positive 35 4 0.2 0.4 950);
    try reflexivity.
  intro H. discriminate H.
Defined.

(** All five inputs are positive, yet the tensile area is zero when
    [d = 0.9382 * p], and [calculate_stress_from_preload] raises.  Both
    arithmetics agree on it. *)
Lemma safety_factor_from_torque_raises :
  0 < 1 /\ 0 < 0.9382 /\
  safety_factor_from_torque 1 0.9382 1 1 1
  = Raise (ValueError "Tensile area must be positive") /\
  safety_factor_from_torque (dec 1 0 : float) (dec 9382 4) (dec 1 0) (dec 1 0)
    (dec 1 0) = Raise (ValueError "Tensile area must be positive").
Proof.
  split; [reflexivity|]. split; [reflexivity|].
  split; vm_compute; reflexivity.
Qed.

(** ** The literature example, on binary64 *)

(** [dec] yields the floats Python parses the source's literals to. *)
Example dec_literals :
  (dec 30 1 : float) = 3.0%float /\ (dec 15 1 : float) = 1.5%float /\
  (dec 9382 4 : float) = 0.9382%float /\ (of_Z 2 : float) = 2%float.
Proof. repeat split; vm_compute; reflexivity. Qed.

(** C3, as the code has it.  [calculate_preload 25 21.4 0.04] is 282.7 N
    within 0.1, and [calculate_final_torque 25 21.4 282.7 400 0.04] is
    35.4 N-cm within 0.1 (with either method). *)
Theorem literature_example :
  (calculate_preload 25 21.4 0.04 = Ok 282.7433388230815 /\
   within 0.1 282.7433388230815 282.7 = true)%float /\
  (calculate_final_torque 25 21.4 282.7 400 0.04 false = Ok 35.367765131532281 /\
   within 0.1 35.367765131532281 35.4 = true)%float /\
  (calculate_final_torque 25 21.4 282.7 400 0.04 true = Ok 35.373187124159891 /\
   within 0.1 35.373187124159891 35.4 = true)%float.
Proof.
  repeat split; vm_compute; reflexivity.
Qed.

(** C3 as stated fails in its first half: with a tightening torque of 35 the
    preload is about 1068.1 N, not 282.7 N.  Both arithmetics agree. *)
Lemma calculate_preload_35_is_not_282_7 :
  (calculate_preload 35 21.4 0.04 = Ok 1068.1415022205299 /\
   within 0.1 1068.1415022205299 282.7 = false)%float /\
  (exists v : Q, calculate_preload 35 21.4 0.04 = Ok v /\
                 within 0.1 v 282.7 = false /\ 1068 < v).
Proof.
  split; [split; vm_compute; reflexivity|].
  eexists. split; [vm_compute; reflexivity|]. split; vm_compute; reflexivity.
Qed.

(** The suite's second case for the two methods, as CPython computes it. *)
Example methods_agree_on_test_case_binary64 :
  (calculate_preload 40 32 0.05 = Ok 502.6548245743669 /\
   calculate_final_torque 40 32 502.6548245743669 600 0.05 false
   = Ok 47.7464829275686 /\
   calculate_final_torque 40 32 502.6548245743669 600 0.05 true
   = Ok 47.746482927568607 /\
   within 0.01 47.7464829275686 47.746482927568607 = true)%float.
Proof. repeat split; vm_compute; reflexivity. Qed.

(** The two torque components of the literature example, as CPython
    computes them: their sum is again 35. *)
Example torque_components_binary64 :
  (calculate_self_loosening 35 21.4 = Ok 6.8000000000000007 /\
   calculate_primary_locking 35 21.4 = Ok 28.199999999999999 /\
   6.8000000000000007 + 28.199999999999999 = 35)%float.
Proof. repeat split; vm_compute; reflexivity. Qed.

(** * Beyond the guards: the rest of the two modules and their caller *)

(** ** More laws of the two arithmetics *)

Ltac compare_cases :=
  repeat match goal with
    | |- context [(?a ?= ?b)%Z] =>
        destruct (Z.compare_spec a b); simpl in *; subst
    | H : context [(?a ?= ?b)%Z] |- _ =>
        destruct (Z.compare_spec a b); simpl in *; subst
    | |- context [(?a ?= ?b)%positive] =>
        destruct (Pos.compare_spec a b); simpl in *; subst
    | H : context [(?a ?= ?b)%positive] |- _ =>
        destruct (Pos.compare_spec a b); simpl in *; subst
    end.

Lemma SFcompare_le_trans (x y z : spec_float) (c1 c2 : comparison) :
  SFcompare x y = Some c1 -> SFcompare y z = Some c2 ->
  c1 <> Gt -> c2 <> Gt ->
  SFcompare x z = Some (match c1, c2 with Eq, Eq => Eq | _, _ => Lt end).
Proof.
  destruct x as [sx|sx| |sx mx ex], y as [sy|sy| |sy my ey], z as [sz|sz| |sz mz ez];
    simpl; try destruct sx; try destruct sy; try destruct sz;
    try discriminate;
    intros H1 H2 N1 N2; injection H1 as H1; injection H2 as H2; subst c1 c2;
    try congruence; try reflexivity;
    change (Pos.compare_cont Eq) with Pos.compare in *;
    compare_cases; try congruence; try lia; try reflexivity.
Qed.

Lemma binary64_order_trans : PyOrderTrans binary64.
Proof.
  constructor; intros x y z; simpl; rewrite ?ltb_spec, ?leb_spec;
    unfold SFltb, SFleb; intros H1 H2;
    destruct (SFcompare (Prim2SF x) (Prim2SF y)) as [c1|] eqn:E1; try discriminate;
    destruct (SFcompare (Prim2SF y) (Prim2SF z)) as [c2|] eqn:E2; try discriminate;
    rewrite (SFcompare_le_trans _ _ _ c1 c2 E1 E2)
      by (destruct c1, c2; discriminate);
    destruct c1, c2; try discriminate; reflexivity.
Qed.

#[export] Existing Instance binary64_order_trans.

Lemma exact_order_trans : PyOrderTrans exact.
Proof.
  constructor; intros x y z H1 H2.
  - apply exact_leb_iff in H1. apply exact_ltb_iff in H2. apply exact_ltb_iff.
    apply (Qle_lt_trans _ _ _ H1 H2).
  - apply exact_ltb_iff in H1. apply exact_leb_iff in H2. apply exact_ltb_iff.
    apply (Qlt_le_trans _ _ _ H1 H2).
  - apply exact_leb_iff in H1, H2. apply exact_leb_iff.
    apply (Qle_trans _ _ _ H1 H2).
Qed.

#[export] Existing Instance exact_order_trans.

Lemma binary64_literals : PyLiterals binary64.
Proof.
  constructor. intros z Hz. simpl in Hz.
  repeat (destruct Hz as [<-|Hz]; [vm_compute; reflexivity|]). contradiction.
Qed.

#[export] Existing Instance binary64_literals.

Lemma exact_literals : PyLiterals exact.
Proof.
  constructor. intros z Hz. simpl in Hz.
  repeat (destruct Hz as [<-|Hz]; [vm_compute; reflexivity|]). contradiction.
Qed.

#[export] Existing Instance exact_literals.

(** ** Outcomes on every lawful arithmetic *)

Local Open Scope py_scope.

Lemma not_le_zero_nonzero {T : Type} {N : PyNum T} {L : PyOrder N} (y : T) :
  (y <=? of_Z 0) = false -> (y ==? of_Z 0) = false.
Proof.
  intro H. destruct (y ==? of_Z 0) eqn:E; [|reflexivity].
  apply eq_le in E. congruence.
Qed.

(** X1. The three functions that compare their own divisor with zero
    never raise [ZeroDivisionError]: [calculate_preload],
    [calculate_stress_from_preload] and [calculate_safety_factor] either
    raise their [ValueError] (for [calculate_safety_factor] the stress is
    checked first) or return the quotient.  This holds on binary64 too, NaN
    and infinities included. *)
Theorem divisor_guards_exclude_ZeroDivisionError
    {T : Type} {N : PyNum T} {L : PyOrder N}
    (Tt Tr p preload area stress yield : T) :
  calculate_preload Tt Tr p
  = (if p <=? of_Z 0
     then Raise (ValueError "Thread pitch must be greater than zero")
     else Ok (fquo ((Tt - Tr) * math_pi) p)) /\
  calculate_stress_from_preload preload area
  = (if area <=? of_Z 0
     then Raise (ValueError "Tensile area must be positive")
     else Ok (fquo preload area)) /\
  calculate_safety_factor stress yield
  = (if stress <=? of_Z 0
     then Raise (ValueError "Stress must be positive")
     else if yield <=? of_Z 0
          then Raise (ValueError "Yield strength must be positive")
          else Ok (fquo yield stress)).
Proof.
  unfold calculate_preload, calculate_stress_from_preload, calculate_safety_factor.
  repeat split.
  - destruct (p <=? of_Z 0) eqn:E; [reflexivity|].
    apply py_div_nonzero, not_le_zero_nonzero, E.
  - destruct (area <=? of_Z 0) eqn:E; [reflexivity|].
    apply py_div_nonzero, not_le_zero_nonzero, E.
  - destruct (stress <=? of_Z 0) eqn:E; [reflexivity|].
    destruct (yield <=? of_Z 0); [reflexivity|].
    apply py_div_nonzero, not_le_zero_nonzero, E.
Qed.

Lemma divisor_guards_exclude_ZeroDivisionError_witness :
  (calculate_stress_from_preload 875 0 = Raise (ValueError "Tensile area must be positive") /\
   calculate_safety_factor (-0) 0 = Raise (ValueError "Stress must be positive") /\
   calculate_safety_factor nan 800 = Ok nan)%float.
Proof.
  destruct (divisor_guards_exclude_ZeroDivisionError (T := float)
              0%float 0%float 0%float 875%float 0%float (-0)%float 0%float)
    as (_ & H1 & H2).
  destruct (divisor_guards_exclude_ZeroDivisionError (T := float)
              0%float 0%float 0%float 875%float 0%float nan 800%float)
    as (_ & _ & H3).
  split; [exact H1|]. split; [exact H2 | exact H3].
Defined.

(** X2. A higher safety factor never gets a worse risk level: if
    [assess_risk] accepts [sf1] (it is not negative) and [sf1 <= sf2], it
    accepts [sf2] too, and the level of [sf2] is at most as severe as that of
    [sf1], for any [min_safety_factor]. *)
Theorem assess_risk_monotone
    {T : Type} {N : PyNum T} {L : PyOrder N} {LT : PyOrderTrans N}
    (sf1 sf2 m : T) :
  (sf1 <? of_Z 0) = false -> (sf1 <=? sf2) = true ->
  exists l1 r1 l2 r2,
    assess_risk sf1 m = Ok (l1, r1) /\ assess_risk sf2 m = Ok (l2, r2) /\
    (severity l2 <= severity l1)%nat.
Proof.
  intros H0 Hle. unfold assess_risk. rewrite H0.
  assert (H0' : (sf2 <? of_Z 0) = false).
  { destruct (sf2 <? of_Z 0) eqn:E; [|reflexivity].
    pose proof (le_lt_trans _ _ _ Hle E). congruence. }
  rewrite H0'.
  destruct (sf1 >? dec 30 1) eqn:E1.
  - rewrite (lt_le_trans _ _ _ E1 Hle). do 4 eexists. repeat split. apply le_n.
  - destruct (sf1 >=? m) eqn:E2.
    + rewrite (le_trans _ _ _ E2 Hle).
      destruct (sf2 >? dec 30 1); do 4 eexists; repeat split; vm_compute; lia.
    + destruct (sf2 >? dec 30 1); [|destruct (sf2 >=? m)];
        do 4 eexists; repeat split; vm_compute; lia.
Qed.

Lemma assess_risk_monotone_witness :
  exists l1 r1 l2 r2,
    assess_risk 1.2%float 1.5%float = Ok (l1, r1) /\
    assess_risk 2.0%float 1.5%float = Ok (l2, r2) /\
    (severity l2 <= severity l1)%nat.
Proof.
  apply (assess_risk_monotone 1.2%float 2.0%float 1.5%float); reflexivity.
Defined.

(** X3. A [min_safety_factor] above 3.0 leaves no room for "Medium": then
    every accepted safety factor is "Low" when above 3.0 and "High"
    otherwise. *)
Theorem assess_risk_medium_unreachable
    {T : Type} {N : PyNum T} {L : PyOrder N} {LT : PyOrderTrans N}
    (sf m : T) :
  (m >? dec 30 1) = true -> (sf <? of_Z 0) = false ->
  assess_risk sf m
  = (if sf >? dec 30 1
     then Ok ("Low", "Safe for use with standard protocol")%string
     else Ok ("High",
              "Not recommended, consider alternative implant system or reduced loading")%string).
Proof.
  intros Hm H0. unfold assess_risk. rewrite H0.
  destruct (sf >? dec 30 1) eqn:E; [reflexivity|].
  destruct (sf >=? m) eqn:E2; [|reflexivity].
  pose proof (lt_le_trans _ _ _ Hm E2). congruence.
Qed.

Lemma assess_risk_medium_unreachable_witness :
  assess_risk 2.9%float 3.5%float
  = Ok ("High",
        "Not recommended, consider alternative implant system or reduced loading")%string.
Proof.
  exact (assess_risk_medium_unreachable 2.9%float 3.5%float eq_refl eq_refl).
Defined.

(** X4. [calculate_torque_range] applies to a torque the very table and
    formula that [estimate_uncertainty] and [calculate_preload_range] apply
    to a preload: it equals [calculate_preload_range] at the percentage that
    [estimate_uncertainty] reports, and none of the three raises. *)
Theorem torque_range_is_preload_range
    {T : Type} {N : PyNum T} {PL : PyLiterals N}
    (x t : T) (is_lubricated : bool) :
  exists (pct : Z) (v lo hi : T),
    estimate_uncertainty x is_lubricated = Ok (pct, v) /\
    pct = (if is_lubricated then 25 else 35)%Z /\
    calculate_preload_range t (of_Z pct) = Ok (lo, hi) /\
    calculate_torque_range t is_lubricated = Ok (lo, hi).
Proof.
  unfold estimate_uncertainty, calculate_preload_range, calculate_torque_range,
    uncertainty_table.
  assert (H100 : (of_Z 100 ==? of_Z 0) = false)
    by (apply lit_nonzero; simpl; tauto).
  unfold py_div. rewrite H100. simpl.
  destruct is_lubricated; do 4 eexists; repeat split.
Qed.

Lemma torque_range_is_preload_range_witness :
  exists (pct : Z) (v lo hi : float),
    estimate_uncertainty 35%float false = Ok (pct, v) /\
    pct = 35%Z /\
    calculate_preload_range 400%float (of_Z pct) = Ok (lo, hi) /\
    calculate_torque_range 400%float false = Ok (lo, hi).
Proof.
  exact (torque_range_is_preload_range 35%float 400%float false).
Defined.

(** ** Uncertainty ranges over exact arithmetic *)

Local Open Scope Q_scope.

Lemma exact_calculate_preload_range (preload u : Q) :
  calculate_preload_range preload u
  = Ok (preload * (1 - u / 100), preload * (1 + u / 100)).
Proof. reflexivity. Qed.

Lemma exact_estimate_uncertainty (t : Q) (is_lubricated : bool) :
  estimate_uncertainty t is_lubricated
  = Ok (uncertainty_table is_lubricated,
        inject_Z (uncertainty_table is_lubricated) / 100 * t).
Proof. destruct is_lubricated; reflexivity. Qed.

(** X5. The range is the nominal value plus and minus the uncertainty
    value: with [(pct, v) = estimate_uncertainty t lub], the pair
    [calculate_preload_range t pct] is [(t - v, t + v)], so [t] is its
    midpoint. *)
Theorem uncertainty_range_symmetric (t : Q) (is_lubricated : bool) :
  exists (pct : Z) (v lo hi : Q),
    estimate_uncertainty t is_lubricated = Ok (pct, v) /\
    calculate_preload_range t (of_Z pct) = Ok (lo, hi) /\
    lo == t - v /\ hi == t + v /\ lo + hi == 2 * t.
Proof.
  do 4 eexists.
  split; [apply exact_estimate_uncertainty|].
  split; [apply exact_calculate_preload_range|].
  cbn [of_Z exact]. repeat split; ring.
Qed.

(** X6. [calculate_preload_range] never raises and does not sort its
    result.  For a preload [>= 0] and a percentage [>= 0] the pair brackets
    the preload; for a positive preload the lower end is non-negative
    exactly when the percentage is at most 100; for a negative preload and a
    positive percentage the pair is inverted: "max" < preload < "min". *)
Theorem calculate_preload_range_order (preload u : Q) :
  exists lo hi : Q,
    calculate_preload_range preload u = Ok (lo, hi) /\
    (0 <= preload -> 0 <= u -> lo <= preload /\ preload <= hi) /\
    (0 < preload -> (0 <= lo <-> u <= 100)) /\
    (preload < 0 -> 0 < u -> hi < preload /\ preload < lo).
Proof.
  do 2 eexists. split; [apply exact_calculate_preload_range|].
  assert (Hu : u / 100 == u * (1 # 100)) by (field).
  repeat split.
  - intros. rewrite Hu. nra.
  - intros. rewrite Hu. nra.
  - rewrite Hu. intro. nra.
  - rewrite Hu. intro. nra.
  - rewrite Hu. nra.
  - rewrite Hu. nra.
Qed.

Lemma calculate_preload_range_order_witness :
  exists lo hi : Q,
    calculate_preload_range (-400) 35 = Ok (lo, hi) /\ hi < -400 /\ -400 < lo.
Proof.
  destruct (calculate_preload_range_order (-400) 35) as (lo & hi & H & _ & _ & Hinv).
  exists lo, hi. split; [exact H|]. apply Hinv; reflexivity.
Defined.

(** ** The torque and stress model: what the guards do and do not exclude *)

(** X7. With both guards passed, [estimate_preload_from_torque] inverts
    the nut-factor formula of its docstring, [T = K * F * d]; the torque is
    not validated, so the preload has the sign of the torque.  In exact
    arithmetic the division cannot fail; on binary64 it can: the product
    [k_factor * screw_diameter] of two positive floats may underflow to
    zero, and the call raises [ZeroDivisionError]. *)
Theorem estimate_preload_from_torque_inverts_formula :
  (forall torque d K : Q, 0 < d -> 0 < K ->
     exists F : Q, estimate_preload_from_torque torque d K = Ok F /\
                   K * F * d == torque /\
                   (0 < F <-> 0 < torque) /\ (F < 0 <-> torque < 0)) /\
  (exists torque d K : float,
     (0 <? d)%float = true /\ (0 <? K)%float = true /\
     estimate_preload_from_torque torque d K = Raise ZeroDivisionError).
Proof.
  split.
  - intros torque d K Hd HK. eexists.
    split; [apply exact_estimate_preload_from_torque; assumption|].
    assert (Hkd : 0 < K * d) by (apply Qmult_lt_0_compat; assumption).
    split; [field; lra|].
    split; split; intro H.
    + apply Qnot_le_lt. intro Hle.
      assert (torque / (K * d) <= 0); [|lra].
      setoid_replace (torque / (K * d)) with (- ((- torque) / (K * d))) by (field; lra).
      assert (0 <= - torque / (K * d)); [|lra].
      apply Qle_shift_div_l; [exact Hkd | lra].
    + apply Qdiv_pos; assumption.
    + apply Qnot_le_lt. intro Hle.
      assert (0 <= torque / (K * d)); [|lra].
      apply Qle_shift_div_l; [exact Hkd | lra].
    + setoid_replace (torque / (K * d)) with (- ((- torque) / (K * d))) by (field; lra).
      assert (0 < - torque / (K * d)); [apply Qdiv_pos; lra | lra].
  - exists 35%float, 1e-200%float, 1e-200%float.
    repeat split; vm_compute; reflexivity.
Qed.

Lemma estimate_preload_from_torque_inverts_formula_witness :
  exists F : Q, estimate_preload_from_torque 35 0.2 0.2 = Ok F /\
                0.2 * F * 0.2 == 35.
Proof.
  destruct estimate_preload_from_torque_inverts_formula as (H & _).
  destruct (H 35 0.2 0.2) as (F & HF & Heq & _); [reflexivity | reflexivity |].
  exists F. split; assumption.
Defined.

(** X8. With both guards passed, the tensile area is never negative, also
    when the effective diameter [d - 0.9382 * p] is: it is zero exactly
    when [d = 0.9382 * p] and positive otherwise.  In exact arithmetic the
    square cannot fail; on binary64 [** 2] raises [OverflowError] for a
    large finite diameter. *)
Theorem calculate_tensile_area_sign :
  (forall d p : Q, 0 < d -> 0 < p ->
     exists A : Q, calculate_tensile_area d p = Ok A /\
                   0 <= A /\ (A == 0 <-> d == 0.9382 * p)) /\
  (exists d p : float,
     (0 <? d)%float = true /\ (0 <? p)%float = true /\
     is_infinity d = false /\
     calculate_tensile_area d p = Raise OverflowError).
Proof.
  split.
  - intros d p Hd Hp. eexists.
    split; [apply exact_calculate_tensile_area; assumption|].
    pose proof pi_exact_pos as Hpi.
    assert (Hc : 0 < pi_exact / 4) by (apply Qdiv_pos; [exact Hpi | reflexivity]).
    set (e := d - 0.9382 * p). set (c := pi_exact / 4) in *.
    split; [nra|]. split; intro H.
    + assert (He : e * e == 0) by nra.
      assert (e == 0) by nra. subst e. lra.
    + assert (e == 0) by (subst e; lra). nra.
  - exists 1e200%float, 1%float.
    repeat split; vm_compute; reflexivity.
Qed.

Lemma calculate_tensile_area_sign_witness :
  exists A : Q, calculate_tensile_area 0.3 0.4 = Ok A /\ 0 <= A /\ ~ A == 0.
Proof.
  destruct calculate_tensile_area_sign as (H & _).
  destruct (H 0.3 0.4) as (A & HA & Hpos & Hz); [reflexivity | reflexivity |].
  exists A. split; [exact HA|]. split; [exact Hpos|].
  intro H0. apply Hz in H0. discriminate H0.
Defined.

(** X9. The tensile area is homogeneous of degree two: scaling diameter
    and pitch by [c > 0] scales the area by [c * c].  With [c = 10] this is
    the millimetre/centimetre conversion by 100 that the callers rely on. *)
Theorem calculate_tensile_area_scales (c d p : Q) :
  0 < c -> 0 < d -> 0 < p ->
  exists A A' : Q,
    calculate_tensile_area d p = Ok A /\
    calculate_tensile_area (c * d) (c * p) = Ok A' /\
    A' == c * c * A.
Proof.
  intros Hc Hd Hp. do 2 eexists.
  split; [apply exact_calculate_tensile_area; assumption|].
  split; [apply exact_calculate_tensile_area; apply Qmult_lt_0_compat; assumption|].
  ring.
Qed.

Lemma calculate_tensile_area_scales_witness :
  exists A A' : Q,
    calculate_tensile_area 0.2 0.04 = Ok A /\
    calculate_tensile_area (10 * 0.2) (10 * 0.04) = Ok A' /\
    A' == 10 * 10 * A.
Proof.
  apply (calculate_tensile_area_scales 10 0.2 0.04); reflexivity.
Defined.

(** ** More of the preload model over exact arithmetic *)

(** X10. The two torque components determine the measurements and the
    preload: their difference is the removal torque, and the preload is
    [2 * pi * self_loosening / p]. *)
Theorem torque_components_determine_preload (Tt Tr p : Q) :
  0 < p ->
  exists s l P : Q,
    calculate_self_loosening Tt Tr = Ok s /\
    calculate_primary_locking Tt Tr = Ok l /\
    calculate_preload Tt Tr p = Ok P /\
    l - s == Tr /\ P == 2 * pi_exact * s / p.
Proof.
  intro Hp. exists ((Tt - Tr) / 2), ((Tt + Tr) / 2). eexists.
  split; [reflexivity|]. split; [reflexivity|].
  split; [apply exact_calculate_preload, Hp|].
  split; field; lra.
Qed.

Lemma torque_components_determine_preload_witness :
  exists s l P : Q,
    calculate_self_loosening 35 29.5 = Ok s /\
    calculate_primary_locking 35 29.5 = Ok l /\
    calculate_preload 35 29.5 0.04 = Ok P /\
    l - s == 29.5 /\ P == 2 * pi_exact * s / 0.04.
Proof.
  apply (torque_components_determine_preload 35 29.5 0.04). reflexivity.
Defined.

(** X11. Equation 6 undoes Equation 3.  For [0 <= Tr < Tt], [p > 0] and a
    non-zero [initial_preload], the final torque [Ti] of the exact method is
    the torque at which [calculate_preload] gives back the desired preload
    when the removal torque keeps its proportion [Tr / Tt]; and asking for
    the preload one already has returns the torque one already applied. *)
Theorem final_torque_round_trip (Tt Tr ip desired p : Q) :
  0 <= Tr -> Tr < Tt -> 0 < p -> ~ ip == 0 ->
  exists Ti P P0 : Q,
    calculate_final_torque Tt Tr ip desired p false = Ok Ti /\
    calculate_preload Ti (Ti * (Tr / Tt)) p = Ok P /\ P == desired /\
    calculate_preload Tt Tr p = Ok P0 /\
    (desired == P0 -> Ti == Tt).
Proof.
  intros Hr Ht Hp Hip. do 3 eexists.
  split; [apply exact_calculate_final_torque; assumption|].
  split; [apply exact_calculate_preload, Hp|].
  pose proof pi_exact_pos as Hpi.
  split; [field; repeat split; lra|].
  split; [apply exact_calculate_preload, Hp|].
  intro H. rewrite H. field. repeat split; lra.
Qed.

Lemma final_torque_round_trip_witness :
  exists Ti P P0 : Q,
    calculate_final_torque 25 21.4 282.7 400 0.04 false = Ok Ti /\
    calculate_preload Ti (Ti * (21.4 / 25)) 0.04 = Ok P /\ P == 400 /\
    calculate_preload 25 21.4 0.04 = Ok P0 /\
    (400 == P0 -> Ti == 25).
Proof.
  apply (final_torque_round_trip 25 21.4 282.7 400 0.04);
    try reflexivity; discriminate.
Defined.

(** X12. The final torque grows with the desired preload.  For
    [0 < Tt], [Tr < Tt], [p > 0] and a non-zero [initial_preload], a larger
    desired preload needs a strictly larger final torque (exact method), and
    the final torque exceeds the initial torque exactly when the desired
    preload exceeds the preload [calculate_preload] reports. *)
Theorem final_torque_increases_with_desired_preload (Tt Tr ip desired desired' p : Q) :
  0 < Tt -> Tr < Tt -> 0 < p -> ~ ip == 0 ->
  exists Ti Ti' P0 : Q,
    calculate_final_torque Tt Tr ip desired p false = Ok Ti /\
    calculate_final_torque Tt Tr ip desired' p false = Ok Ti' /\
    calculate_preload Tt Tr p = Ok P0 /\
    (desired < desired' <-> Ti < Ti') /\
    (P0 < desired <-> Tt < Ti).
Proof.
  intros Hpos Ht Hp Hip. do 3 eexists.
  split; [apply exact_calculate_final_torque; assumption|].
  split; [apply exact_calculate_final_torque; assumption|].
  split; [apply exact_calculate_preload, Hp|].
  pose proof pi_exact_pos as Hpi.
  assert (Hden : 0 < pi_exact * (Tt - Tr)) by (apply Qmult_lt_0_compat; lra).
  assert (Hk : 0 < p * Tt) by (apply Qmult_lt_0_compat; assumption).
  assert (E : forall D, p * Tt * D / (pi_exact * (Tt - Tr))
                        == (p * Tt / (pi_exact * (Tt - Tr))) * D)
    by (intro D; field; lra).
  assert (Hc : 0 < p * Tt / (pi_exact * (Tt - Tr))) by (apply Qdiv_pos; assumption).
  set (c := p * Tt / (pi_exact * (Tt - Tr))) in *.
  assert (E0 : Tt == c * ((Tt - Tr) * pi_exact / p)) by (subst c; field; lra).
  split.
  - rewrite !E. split; intro H; nra.
  - rewrite E. split; intro H.
    + rewrite E0 at 1. nra.
    + rewrite E0 in H at 1. nra.
Qed.

Lemma final_torque_increases_with_desired_preload_witness :
  exists Ti Ti' P0 : Q,
    calculate_final_torque 25 21.4 282.7 400 0.04 false = Ok Ti /\
    calculate_final_torque 25 21.4 282.7 500 0.04 false = Ok Ti' /\
    calculate_preload 25 21.4 0.04 = Ok P0 /\
    (400 < 500 <-> Ti < Ti') /\
    (P0 < 400 <-> 25 < Ti).
Proof.
  apply (final_torque_increases_with_desired_preload 25 21.4 282.7 400 500 0.04);
    try reflexivity; discriminate.
Defined.

(** X13. Along the torque-to-safety-factor composition the safety factor
    is inversely proportional to the torque: scaling the torque by [c > 0]
    divides the safety factor by [c], so more torque always means less
    margin. *)
Theorem safety_factor_inverse_in_torque (c torque d K p ys : Q) :
  0 < c -> 0 < torque -> 0 < d -> 0 < K -> 0 < p -> 0 < ys ->
  ~ d == 0.9382 * p ->
  exists sf sf' : Q,
    safety_factor_from_torque torque d K p ys = Ok sf /\
    safety_factor_from_torque (c * torque) d K p ys = Ok sf' /\
    sf' == sf / c /\ (1 < c -> sf' < sf).
Proof.
  intros Hc HT Hd HK Hp Hy He.
  assert (chain : forall t, 0 < t ->
            safety_factor_from_torque t d K p ys
            = Ok (ys / (t / (K * d) /
                        (pi_exact / 4 * ((d - 0.9382 * p) * (d - 0.9382 * p)))))).
  { intros t Ht. unfold safety_factor_from_torque.
    rewrite (exact_calculate_tensile_area d p Hd Hp). cbn [bind].
    rewrite (exact_estimate_preload_from_torque t d K Hd HK). cbn [bind].
    set (e := d - 0.9382 * p).
    assert (Hsq : 0 < e * e) by (subst e; nra).
    assert (Harea : 0 < pi_exact / 4 * (e * e)).
    { apply Qmult_lt_0_compat; [|exact Hsq].
      apply Qdiv_pos; [exact pi_exact_pos | reflexivity]. }
    assert (Hpre : 0 < t / (K * d)).
    { apply Qdiv_pos; [exact Ht|]. apply Qmult_lt_0_compat; assumption. }
    rewrite (exact_calculate_stress_from_preload _ _ Harea). cbn [bind].
    apply exact_calculate_safety_factor; [apply Qdiv_pos|]; assumption. }
  do 2 eexists.
  split; [apply chain, HT|].
  split; [apply chain, Qmult_lt_0_compat; assumption|].
  set (e := d - 0.9382 * p).
  assert (Hsq : 0 < e * e) by (subst e; nra).
  pose proof pi_exact_pos as Hpi.
  set (sf := ys / (torque / (K * d) / (pi_exact / 4 * (e * e)))).
  assert (Hsf : 0 < sf).
  { subst sf. apply Qdiv_pos; [exact Hy|]. apply Qdiv_pos.
    - apply Qdiv_pos; [exact HT | apply Qmult_lt_0_compat; assumption].
    - apply Qmult_lt_0_compat; [apply Qdiv_pos; [exact Hpi | reflexivity] | exact Hsq]. }
  assert (Heq : ys / (c * torque / (K * d) / (pi_exact / 4 * (e * e))) == sf / c).
  { subst sf. field. repeat split; nra. }
  split; [exact Heq|].
  intro H1. rewrite Heq.
  apply Qlt_shift_div_r; [exact Hc | nra].
Qed.

Lemma safety_factor_inverse_in_torque_witness :
  exists sf sf' : Q,
    safety_factor_from_torque 35 4 0.2 0.4 950 = Ok sf /\
    safety_factor_from_torque (2 * 35) 4 0.2 0.4 950 = Ok sf' /\
    sf' == sf / 2 /\ (1 < 2 -> sf' < sf).
Proof.
  apply (safety_factor_inverse_in_torque 2 35 4 0.2 0.4 950);
    try reflexivity. discriminate.
Defined.

(** ** The catalog analysis *)

Ltac invert_binds H :=
  repeat match type of H with
    | bind ?r _ = Ok _ =>
        let E := fresh "E" in
        destruct r eqn:E; cbn [bind] in H; [|discriminate H]
    end.

Lemma analyse_model_names {T : Type} {N : PyNum T}
    (sn mn : string) (m : model_data T) (rf : T) (row : analysis_row T) :
  analyse_model sn mn m rf = Ok row ->
  System row = replace_underscores sn /\ Model row = replace_underscores mn /\
  Connection_Type row = connection_type m.
Proof.
  intro H. unfold analyse_model in H. cbv zeta in H.
  invert_binds H. injection H as <-. repeat split.
Qed.

Lemma analyse_models_names {T : Type} {N : PyNum T}
    (sn : string) (ms : list (string * model_data T)) (rf : T) :
  forall rows, analyse_models sn ms rf = Ok rows ->
  map (fun r => (System r, Model r, Connection_Type r)) rows
  = map (fun model => (replace_underscores sn, replace_underscores (fst model),
                       connection_type (snd model))) ms.
Proof.
  induction ms as [|[mn m] ms IH]; intros rows H; simpl in H.
  - injection H as <-. reflexivity.
  - invert_binds H. injection H as <-. simpl.
    destruct (analyse_model_names _ _ _ _ _ E) as (-> & -> & ->).
    rewrite (IH _ eq_refl). reflexivity.
Qed.

(** X14. When [generate_implant_analysis] returns, it returns one row per
    model of the catalog, in catalog order, each carrying the system and
    model names with underscores replaced by spaces and the model's
    connection type. *)
Theorem generate_implant_analysis_rows {T : Type} {N : PyNum T}
    (implant_systems : list (string * list (string * model_data T)))
    (removal_factor : T) (rows : list (analysis_row T)) :
  generate_implant_analysis implant_systems removal_factor = Ok rows ->
  map (fun r => (System r, Model r, Connection_Type r)) rows
  = map (fun e => (replace_underscores (fst (fst e)),
                   replace_underscores (snd (fst e)),
                   connection_type (snd e)))
        (catalog_models implant_systems) /\
  length rows = length (catalog_models implant_systems).
Proof.
  intro H.
  assert (Hmap : map (fun r => (System r, Model r, Connection_Type r)) rows
                 = map (fun e => (replace_underscores (fst (fst e)),
                                  replace_underscores (snd (fst e)),
                                  connection_type (snd e)))
                       (catalog_models implant_systems)).
  { revert rows H.
    induction implant_systems as [|[sn ms] cat IH]; intros rows H; simpl in H.
    - injection H as <-. reflexivity.
    - invert_binds H. injection H as <-.
      unfold catalog_models. simpl. rewrite !map_app.
      rewrite (analyse_models_names _ _ _ _ E).
      rewrite (IH _ eq_refl). unfold catalog_models.
      rewrite map_map. reflexivity. }
  split; [exact Hmap|].
  apply (f_equal (@length _)) in Hmap. rewrite !length_map in Hmap. exact Hmap.
Qed.

Lemma analyse_models_fails {T : Type} {N : PyNum T}
    (sn : string) (ms : list (string * model_data T)) (rf : T)
    (mn : string) (m : model_data T) (e : exn) :
  In (mn, m) ms -> analyse_model sn mn m rf = Raise e ->
  exists e', analyse_models sn ms rf = Raise e'.
Proof.
  induction ms as [|[mn' m'] ms IH]; intros Hin Hf; [contradiction|].
  simpl. destruct Hin as [Heq|Hin].
  - injection Heq as -> ->. rewrite Hf. eexists. reflexivity.
  - destruct (analyse_model sn mn' m' rf); [|eexists; reflexivity]. cbn [bind].
    destruct (IH Hin Hf) as [e' ->]. eexists. reflexivity.
Qed.

(** X15. The analysis is all or nothing: if the loop body raises for any
    one model of the catalog, [generate_implant_analysis] raises and no row
    is returned. *)
Theorem generate_implant_analysis_all_or_nothing {T : Type} {N : PyNum T}
    (implant_systems : list (string * list (string * model_data T)))
    (removal_factor : T) (sn mn : string) (m : model_data T) (e : exn) :
  In (sn, mn, m) (catalog_models implant_systems) ->
  analyse_model sn mn m removal_factor = Raise e ->
  exists e', generate_implant_analysis implant_systems removal_factor = Raise e'.
Proof.
  induction implant_systems as [|[sn' ms] cat IH]; intros Hin Hf; [contradiction|].
  unfold catalog_models in Hin. simpl in Hin. apply in_app_or in Hin. simpl.
  destruct Hin as [Hin|Hin].
  - apply in_map_iff in Hin. destruct Hin as ([mn' m'] & Heq & Hin).
    simpl in Heq. injection Heq as -> -> ->.
    destruct (analyse_models_fails _ _ _ _ _ _ Hin Hf) as [e' ->].
    eexists. reflexivity.
  - destruct (analyse_models sn' ms removal_factor); [|eexists; reflexivity].
    cbn [bind]. destruct (IH Hin Hf) as [e' ->]. eexists. reflexivity.
Qed.

Local Open Scope Q_scope.

Lemma assess_risk_accepts {T : Type} {N : PyNum T} (sf m : T) :
  fltb sf (of_Z 0) = false -> exists lr, assess_risk sf m = Ok lr.
Proof.
  intro H. unfold assess_risk. rewrite H.
  destruct (fltb (dec 30 1) sf); [|destruct (fleb m sf)]; eexists; reflexivity.
Qed.

Lemma exact_assess_risk_accepts (sf : Q) :
  0 < sf -> exists lr, assess_risk_default sf = Ok lr.
Proof.
  intro H. apply assess_risk_accepts. simpl.
  apply negb_false_iff, Qle_bool_iff. change (0 <= sf). lra.
Qed.

(** The loop body on a plausible screw: a removal factor of one or more
    makes the Wadhwani-Hess stress non-positive, which
    [calculate_safety_factor] rejects; below one, every step returns. *)
Lemma exact_analyse_model_cases (sn mn : string) (m : model_data Q) (rf : Q) :
  plausible_screw (screws_standard m) ->
  (1 <= rf ->
   analyse_model sn mn m rf = Raise (ValueError "Stress must be positive")) /\
  (rf < 1 ->
   exists row, analyse_model sn mn m rf = Ok row /\ consistent_row rf row).
Proof.
  destruct m as [ct [T0 d p K ys]]. unfold plausible_screw. simpl.
  intros (HT & Hd & Hp & HK & Hy & He).
  pose proof pi_exact_pos as Hpi.
  assert (Hsq : 0 < (d - 0.9382 * p) * (d - 0.9382 * p)) by nra.
  assert (HA : 0 < pi_exact / 4 * ((d - 0.9382 * p) * (d - 0.9382 * p))).
  { apply Qmult_lt_0_compat; [|exact Hsq].
    apply Qdiv_pos; [exact Hpi | reflexivity]. }
  assert (Hd10 : 0 < d / 10) by (apply Qdiv_pos; [exact Hd | reflexivity]).
  assert (Hp10 : 0 < p / 10) by (apply Qdiv_pos; [exact Hp | reflexivity]).
  assert (Hconv : 0 < T0 / (K * (d / 10))).
  { apply Qdiv_pos; [exact HT|]. apply Qmult_lt_0_compat; assumption. }
  pose proof (Qdiv_pos _ _ Hconv HA) as Hcs.
  pose proof (Qdiv_pos _ _ Hy Hcs) as Hcsf.
  assert (Hwh : (T0 - T0 * rf) * pi_exact / (p / 10)
                == 10 * T0 * (1 - rf) * pi_exact / p) by (field; lra).
  unfold analyse_model. cbv zeta.
  cbn [screws_standard recommended_torque diameter thread_pitch K_factor
       yield_strength connection_type].
  change (@of_Z Q exact 10) with (10 : Q).
  change (@of_Z Q exact 100) with (100 : Q).
  change (@of_Z Q exact 1) with (1 : Q).
  rewrite (exact_py_div d 10) by discriminate. cbn [bind].
  rewrite (exact_py_div p 10) by discriminate. cbn [bind].
  rewrite (exact_calculate_tensile_area d p Hd Hp). cbn [bind].
  rewrite (exact_estimate_preload_from_torque T0 (d / 10) K Hd10 HK).
  cbn [bind].
  rewrite (exact_estimate_uncertainty T0 false). cbn [bind fst uncertainty_table].
  rewrite (exact_calculate_preload T0 (fmul T0 rf) (p / 10) Hp10).
  cbn [bind].
  rewrite (exact_calculate_stress_from_preload _ _ HA). cbn [bind].
  rewrite (exact_calculate_stress_from_preload _ _ HA). cbn [bind].
  rewrite (exact_calculate_safety_factor _ _ Hcs Hy). cbn [bind].
  cbn [fmul fsub fadd exact].
  set (A := pi_exact / 4 * ((d - 0.9382 * p) * (d - 0.9382 * p))) in *.
  set (conv := T0 / (K * (d / 10))) in *.
  set (wh := (T0 - T0 * rf) * pi_exact / (p / 10)) in *.
  split; intro Hrf.
  - assert (Hneg : wh / A <= 0).
    { assert (wh <= 0).
      { rewrite Hwh.
        setoid_replace (10 * T0 * (1 - rf) * pi_exact / p)
          with (- (10 * T0 * (rf - 1) * pi_exact / p)) by (field; lra).
        assert (0 <= 10 * T0 * (rf - 1) * pi_exact / p); [|lra].
        assert (H1 : 0 <= T0 * (rf - 1)) by (apply Qmult_le_0_compat; lra).
        assert (H2 : 0 <= T0 * (rf - 1) * pi_exact)
          by (apply Qmult_le_0_compat; lra).
        apply Qle_shift_div_l; [exact Hp|]. nra. }
      setoid_replace (wh / A) with (- ((- wh) / A)) by (field; lra).
      assert (0 <= - wh / A); [|lra].
      apply Qle_shift_div_l; [exact HA | lra]. }
    unfold calculate_safety_factor.
    replace (fleb (wh / A) (of_Z 0)) with true; [reflexivity|].
    symmetry. apply exact_leb_iff. exact Hneg.
  - assert (Hwhpos : 0 < wh).
    { rewrite Hwh. apply Qdiv_pos; [|exact Hp].
      assert (H1 : 0 < T0 * (1 - rf)) by (apply Qmult_lt_0_compat; lra).
      assert (H2 : 0 < T0 * (1 - rf) * pi_exact)
        by (apply Qmult_lt_0_compat; lra).
      nra. }
    pose proof (Qdiv_pos _ _ Hwhpos HA) as Hws.
    pose proof (Qdiv_pos _ _ Hy Hws) as Hwsf.
    rewrite (exact_calculate_safety_factor _ _ Hws Hy). cbn [bind].
    destruct (exact_assess_risk_accepts _ Hcsf) as [cr ->]. cbn [bind].
    destruct (exact_assess_risk_accepts _ Hwsf) as [wr ->]. cbn [bind].
    rewrite (exact_py_div (of_Z 35) 100) by discriminate. cbn [bind].
    rewrite (exact_py_div (of_Z (35 - 9)) (of_Z 35)) by discriminate. cbn [bind].
    rewrite (exact_py_div (conv - wh) conv) by lra. cbn [bind].
    eexists. split; [reflexivity|].
    unfold consistent_row. cbn -[Qmult Qdiv Qplus Qminus Qle Qlt Qeq Qle_bool pi_exact].
    assert (E65 : 1 - inject_Z 35 / 100 == 0.65) by reflexivity.
    assert (E135 : 1 + inject_Z 35 / 100 == 1.35) by reflexivity.
    split; [subst conv; field; lra|].
    split; [exact Hwh|].
    split; [exact Hwhpos|]. split; [exact Hcsf|]. split; [exact Hwsf|].
    split; [field; repeat split; lra|].
    split; [reflexivity|]. split; [reflexivity|]. split; [reflexivity|].
    rewrite andb_true_iff, !Qle_bool_iff, E65, E135.
    split; intros [H1 H2]; split; lra.
Qed.

Lemma exact_analyse_models_plausible (sn : string)
    (ms : list (string * model_data Q)) (rf : Q) :
  (forall mn m, In (mn, m) ms -> plausible_screw (screws_standard m)) ->
  rf < 1 ->
  exists rows, analyse_models sn ms rf = Ok rows /\
               Forall (consistent_row rf) rows.
Proof.
  intros Hpl Hrf. induction ms as [|[mn m] ms IH]; simpl.
  - exists nil. split; [reflexivity | constructor].
  - destruct (exact_analyse_model_cases sn mn m rf (Hpl mn m (or_introl eq_refl)))
      as (_ & Hok).
    destruct (Hok Hrf) as (row & -> & Hrow). cbn [bind].
    destruct IH as (rows & -> & Hrows).
    + intros mn' m' Hin. apply (Hpl mn' m'). right. exact Hin.
    + cbn [bind]. exists (row :: rows). split; [reflexivity|].
      constructor; assumption.
Qed.

Lemma catalog_models_cons {T : Type} (sn : string)
    (ms : list (string * model_data T))
    (cat : list (string * list (string * model_data T))) :
  catalog_models ((sn, ms) :: cat)
  = (map (fun model => (sn, fst model, snd model)) ms ++ catalog_models cat)%list.
Proof. reflexivity. Qed.

(** X16. On a catalog of plausible screws and with a removal factor below
    one, [generate_implant_analysis] returns, and every row is consistent:
    the two preloads have their closed forms (with the millimetre to
    centimetre conversions), both safety factors are positive and inversely
    proportional to their preloads, the uncertainty reduction is
    [(35 - 9) / 35 * 100], and "In Conv Range" says exactly that the
    Wadhwani-Hess preload lies within 35 % of the conventional one. *)
Theorem generate_implant_analysis_consistent
    (implant_systems : list (string * list (string * model_data Q)))
    (removal_factor : Q) :
  (forall sn mn m, In (sn, mn, m) (catalog_models implant_systems) ->
                   plausible_screw (screws_standard m)) ->
  removal_factor < 1 ->
  exists rows,
    generate_implant_analysis implant_systems removal_factor = Ok rows /\
    Forall (consistent_row removal_factor) rows.
Proof.
  intros Hpl Hrf.
  induction implant_systems as [|[sn ms] cat IH]; simpl.
  - exists nil. split; [reflexivity | constructor].
  - destruct (exact_analyse_models_plausible sn ms removal_factor)
      as (rows & -> & Hrows); [|exact Hrf|].
    + intros mn m Hin. apply (Hpl sn mn m).
      rewrite catalog_models_cons. apply in_or_app. left.
      apply in_map_iff. exists (mn, m). split; [reflexivity | exact Hin].
    + cbn [bind]. destruct IH as (rows' & -> & Hrows').
      * intros sn' mn m Hin. apply (Hpl sn' mn m).
        rewrite catalog_models_cons. apply in_or_app. right. exact Hin.
      * cbn [bind]. exists (rows ++ rows')%list. split; [reflexivity|].
        apply Forall_app. split; assumption.
Qed.

Lemma fallback_is_plausible (sn mn : string) (m : model_data Q) :
  In (sn, mn, m) (catalog_models fallback_implant_systems) ->
  plausible_screw (screws_standard m).
Proof.
  intros [H|[]]. injection H as _ _ <-.
  unfold plausible_screw. cbn.
  repeat split; try reflexivity. discriminate.
Qed.

Lemma generate_implant_analysis_consistent_witness :
  exists rows,
    generate_implant_analysis fallback_implant_systems 0.85 = Ok rows /\
    Forall (consistent_row 0.85) rows.
Proof.
  apply (generate_implant_analysis_consistent fallback_implant_systems 0.85).
  - exact fallback_is_plausible.
  - reflexivity.
Defined.

Lemma exact_analyse_models_rejects (sn : string)
    (ms : list (string * model_data Q)) (rf : Q) :
  (forall mn m, In (mn, m) ms -> plausible_screw (screws_standard m)) ->
  1 <= rf -> ms <> nil ->
  analyse_models sn ms rf = Raise (ValueError "Stress must be positive").
Proof.
  intros Hpl Hrf Hne. destruct ms as [|[mn m] ms]; [contradiction|]. simpl.
  destruct (exact_analyse_model_cases sn mn m rf (Hpl mn m (or_introl eq_refl)))
    as (Hraise & _).
  rewrite (Hraise Hrf). reflexivity.
Qed.

(** X17. A removal factor of one or more (a removal torque not below the
    tightening torque) makes the analysis of any non-empty catalog of
    plausible screws fail: the Wadhwani-Hess stress is not positive and
    [calculate_safety_factor] raises "Stress must be positive". *)
Theorem generate_implant_analysis_rejects_full_removal
    (implant_systems : list (string * list (string * model_data Q)))
    (removal_factor : Q) :
  (forall sn mn m, In (sn, mn, m) (catalog_models implant_systems) ->
                   plausible_screw (screws_standard m)) ->
  catalog_models implant_systems <> nil ->
  1 <= removal_factor ->
  generate_implant_analysis implant_systems removal_factor
  = Raise (ValueError "Stress must be positive").
Proof.
  intros Hpl Hne Hrf.
  induction implant_systems as [|[sn ms] cat IH]; [contradiction|]. simpl.
  assert (Hms : forall mn m, In (mn, m) ms -> plausible_screw (screws_standard m)).
  { intros mn m Hin. apply (Hpl sn mn m).
    rewrite catalog_models_cons. apply in_or_app. left.
    apply in_map_iff. exists (mn, m). split; [reflexivity | exact Hin]. }
  destruct ms as [|model ms].
  - cbn [analyse_models bind]. rewrite IH; [reflexivity| |].
    + intros sn' mn m Hin. apply (Hpl sn' mn m). exact Hin.
    + exact Hne.
  - rewrite (exact_analyse_models_rejects sn (model :: ms) removal_factor Hms Hrf);
      [reflexivity | discriminate].
Qed.

Lemma generate_implant_analysis_rejects_full_removal_witness :
  generate_implant_analysis fallback_implant_systems 1
  = Raise (ValueError "Stress must be positive").
Proof.
  apply (generate_implant_analysis_rejects_full_removal fallback_implant_systems 1).
  - exact fallback_is_plausible.
  - discriminate.
  - discriminate.
Defined.

(** The fallback catalog on binary64, with the default removal factor and
    with a removal factor of one. *)
Lemma generate_implant_analysis_rows_witness :
  exists rows : list (analysis_row float),
    generate_implant_analysis fallback_implant_systems (dec 85 2) = Ok rows /\
    map (fun r => (System r, Model r, Connection_Type r)) rows
    = (("Generic", "Standard", "Generic")%string :: nil) /\
    length rows = 1%nat.
Proof.
  destruct (generate_implant_analysis (T := float) fallback_implant_systems (dec 85 2))
    as [rows|e] eqn:E; [|vm_compute in E; discriminate E].
  exists rows. split; [reflexivity|].
  exact (generate_implant_analysis_rows fallback_implant_systems (dec 85 2) rows E).
Defined.

Lemma generate_implant_analysis_all_or_nothing_witness :
  exists e, generate_implant_analysis (T := float) fallback_implant_systems (of_Z 1)
            = Raise e.
Proof.
  destruct (analyse_model (T := float) "Generic" "Standard"
              {| connection_type := "Generic";
                 screws_standard :=
                   {| recommended_torque := of_Z 35; diameter := dec 20 1;
                      thread_pitch := dec 4 1; K_factor := dec 2 1;
                      yield_strength := of_Z 950 |} |} (of_Z 1))
    as [row|e] eqn:E; [vm_compute in E; discriminate E|].
  eapply (generate_implant_analysis_all_or_nothing fallback_implant_systems (of_Z 1));
    [|exact E].
  left. reflexivity.
Defined.

(** * The float program: rounding, ranges and errors on binary64 *)

Local Open Scope Z_scope.

(** ** Powers of two and binary digits *)

Lemma bpow_pos e : (0 < bpow e)%Q.
Proof. apply Qpower_0_lt. reflexivity. Qed.

Lemma bpow_add a b : (bpow (a + b) == bpow a * bpow b)%Q.
Proof. apply Qpower_plus. discriminate. Qed.

Lemma bpow_succ e : (bpow (e + 1) == 2 * bpow e)%Q.
Proof. rewrite bpow_add. change (bpow 1) with 2%Q. ring. Qed.

Lemma bpow_lt a b : a < b -> (bpow a < bpow b)%Q.
Proof. intro H. apply Qpower_lt_compat_l; [exact H|reflexivity]. Qed.

Lemma bpow_le a b : a <= b -> (bpow a <= bpow b)%Q.
Proof. intro H. apply Qpower_le_compat_l; [exact H|discriminate]. Qed.

Lemma bpow_Z n : 0 <= n -> (bpow n == inject_Z (2 ^ n))%Q.
Proof. intro H. unfold bpow. rewrite Zpower_Qpower by exact H. reflexivity. Qed.

Lemma digits2_pos_bounds m :
  2 ^ (Zpos (digits2_pos m) - 1) <= Zpos m < 2 ^ Zpos (digits2_pos m).
Proof.
  induction m as [m IH|m IH|]; cbn [digits2_pos].
  - rewrite Pos2Z.inj_succ. replace (Z.succ (Zpos (digits2_pos m)) - 1) with (Z.succ (Zpos (digits2_pos m) - 1)) by lia.
    rewrite !Z.pow_succ_r by lia. lia.
  - rewrite Pos2Z.inj_succ. replace (Z.succ (Zpos (digits2_pos m)) - 1) with (Z.succ (Zpos (digits2_pos m) - 1)) by lia.
    rewrite !Z.pow_succ_r by lia. lia.
  - cbn. lia.
Qed.

Lemma Zdigits2_bounds m : 0 < m ->
  2 ^ (Zdigits2 m - 1) <= m < 2 ^ Zdigits2 m.
Proof. destruct m; try lia. intros _. apply digits2_pos_bounds. Qed.

Lemma Zdigits2_unique m k : 0 < k -> 2 ^ (k - 1) <= m < 2 ^ k -> Zdigits2 m = k.
Proof.
  intros Hk [H1 H2].
  assert (0 < m) by (pose proof (Z.pow_pos_nonneg 2 (k - 1)); lia).
  pose proof (Zdigits2_bounds m H) as [B1 B2].
  assert (0 < Zdigits2 m) by (destruct m; cbn; lia).
  destruct (Z.lt_trichotomy (Zdigits2 m) k) as [L|[E|G]]; [|exact E|].
  - assert (2 ^ Zdigits2 m <= 2 ^ (k - 1)) by (apply Z.pow_le_mono_r; lia). lia.
  - assert (2 ^ k <= 2 ^ (Zdigits2 m - 1)) by (apply Z.pow_le_mono_r; lia). lia.
Qed.

Lemma Zdigits2_nonneg m : 0 <= Zdigits2 m.
Proof. destruct m; cbn; lia. Qed.

(* iter_pos is iteration *)
Lemma iter_pos_nat {A} (f : A -> A) p x :
  iter_pos f p x = Nat.iter (Pos.to_nat p) f x.
Proof.
  revert x. induction p as [p IH|p IH|]; intro x; cbn [iter_pos].
  - rewrite !IH. rewrite Pos2Nat.inj_xI. cbn [Nat.iter].
    rewrite <- Nat.iter_add. replace (Pos.to_nat p + Pos.to_nat p)%nat with (2 * Pos.to_nat p)%nat by lia.
    rewrite <- Nat.iter_succ_r. reflexivity.
  - rewrite !IH. rewrite Pos2Nat.inj_xO.
    rewrite <- Nat.iter_add. f_equal. lia.
  - reflexivity.
Qed.

(** ** Shifting a mantissa right *)

Lemma inject_Z_xO p : (inject_Z (Zpos p~0) == 2 * inject_Z (Zpos p))%Q.
Proof. rewrite <- (inject_Z_mult 2). reflexivity. Qed.

Lemma inject_Z_xI p : (inject_Z (Zpos p~1) == 2 * inject_Z (Zpos p) + 1)%Q.
Proof. rewrite <- (inject_Z_mult 2), <- (inject_Z_plus _ 1). reflexivity. Qed.

Lemma shr_1_inbetween x mrs e :
  0 <= shr_m mrs ->
  inbetween x (shr_m mrs) e (loc_of_shr_record mrs) ->
  inbetween x (shr_m (shr_1 mrs)) (e + 1) (loc_of_shr_record (shr_1 mrs)) /\
  shr_m (shr_1 mrs) = shr_m mrs / 2.
Proof.
  destruct mrs as [m r s]. cbn [shr_m]. intros Hm.
  unfold inbetween.
  pose proof (bpow_pos e) as Hb. pose proof (bpow_succ e) as Hb'.
  set (b := bpow e) in *. set (b' := bpow (e + 1)) in *. clearbody b b'.
  intro H. destruct m as [|p|p]; [| |lia].
  - destruct r, s; cbn in *; change (inject_Z 0) with 0%Q in *; (split; [|reflexivity]); lra.
  - assert (Hdiv : forall q, Zpos q~0 / 2 = Zpos q /\ Zpos q~1 / 2 = Zpos q).
    { intro q. split.
      - change (Zpos q~0) with (2 * Zpos q). rewrite Z.mul_comm. apply Z.div_mul. lia.
      - symmetry. apply (Z.div_unique _ 2 (Zpos q) 1); lia. }
    destruct p as [p|p|].
    + pose proof (inject_Z_xI p) as E.
      destruct r, s; cbn -[Z.div] in *; (split; [|symmetry; apply Hdiv]);
        revert H E; generalize (inject_Z (Zpos p~1)) (inject_Z (Zpos p)); intros t u H E; nra.
    + pose proof (inject_Z_xO p) as E.
      destruct r, s; cbn -[Z.div] in *; (split; [|symmetry; apply Hdiv]);
        revert H E; generalize (inject_Z (Zpos p~0)) (inject_Z (Zpos p)); intros t u H E; nra.
    + destruct r, s; cbn in *; change (inject_Z 0) with 0%Q in *; change (inject_Z 1) with 1%Q in *;
        (split; [|reflexivity]); lra.
Qed.

#[global] Instance in_loc_comp : Proper (Qeq ==> Qeq ==> Qeq ==> eq ==> iff) in_loc.
Proof.
  intros x x' Hx lo lo' Hlo w w' Hw l l' <-.
  destruct l as [|[ | | ]]; cbn [in_loc]; rewrite Hx, Hlo, ?Hw; reflexivity.
Qed.

#[global] Instance inbetween_comp : Proper (Qeq ==> eq ==> eq ==> eq ==> iff) inbetween.
Proof.
  intros x x' Hx m m' <- e e' <- l l' <-. unfold inbetween. rewrite Hx. reflexivity.
Qed.

(** ** Rounding to the nearest integer, ties to even *)

Lemma shr_iter_inbetween x e k : forall mrs,
  0 <= shr_m mrs ->
  inbetween x (shr_m mrs) e (loc_of_shr_record mrs) ->
  inbetween x (shr_m (Nat.iter k shr_1 mrs)) (e + Z.of_nat k)
            (loc_of_shr_record (Nat.iter k shr_1 mrs)) /\
  shr_m (Nat.iter k shr_1 mrs) = shr_m mrs / 2 ^ Z.of_nat k.
Proof.
  induction k as [|k IH]; intros mrs Hm H.
  - cbn [Nat.iter]. rewrite Z.add_0_r. split; [exact H|]. cbn. symmetry. apply Z.div_1_r.
  - change (Nat.iter (S k) shr_1 mrs) with (shr_1 (Nat.iter k shr_1 mrs)).
    destruct (IH mrs Hm H) as [H1 H2].
    assert (Hm' : 0 <= shr_m (Nat.iter k shr_1 mrs)).
    { rewrite H2. apply Z.div_pos; [exact Hm|]. apply Z.pow_pos_nonneg; lia. }
    destruct (shr_1_inbetween x _ _ Hm' H1) as [H3 H4].
    replace (e + Z.of_nat (S k)) with (e + Z.of_nat k + 1) by lia.
    split; [exact H3|].
    rewrite H4, H2. rewrite Z.div_div by (try apply Z.pow_pos_nonneg; lia).
    f_equal. rewrite Nat2Z.inj_succ, Z.pow_succ_r by lia. ring.
Qed.

Lemma shr_inbetween x mrs e n :
  0 <= shr_m mrs -> 0 <= n ->
  inbetween x (shr_m mrs) e (loc_of_shr_record mrs) ->
  inbetween x (shr_m (fst (shr mrs e n))) (e + n) (loc_of_shr_record (fst (shr mrs e n))) /\
  shr_m (fst (shr mrs e n)) = shr_m mrs / 2 ^ n /\
  snd (shr mrs e n) = e + n.
Proof.
  intros Hm Hn H. destruct n as [|p|p]; [| |lia].
  - cbn. rewrite Z.add_0_r, Z.div_1_r. auto.
  - cbn [shr fst snd]. rewrite iter_pos_nat.
    destruct (shr_iter_inbetween x e (Pos.to_nat p) mrs Hm H) as [H1 H2].
    rewrite positive_nat_Z in H1, H2. auto.
Qed.

Lemma loc_of_shr_record_of_loc m l : loc_of_shr_record (shr_record_of_loc m l) = l.
Proof. destruct l as [|[ | | ]]; reflexivity. Qed.

Lemma shr_m_record_of_loc m l : shr_m (shr_record_of_loc m l) = m.
Proof. destruct l as [|[ | | ]]; reflexivity. Qed.

Lemma shr_fexp_inbetween x m e l :
  0 <= m -> e <= fexp prec emax (Zdigits2 m + e) ->
  inbetween x m e l ->
  let E := fexp prec emax (Zdigits2 m + e) in
  inbetween x (shr_m (fst (shr_fexp prec emax m e l))) E
            (loc_of_shr_record (fst (shr_fexp prec emax m e l))) /\
  shr_m (fst (shr_fexp prec emax m e l)) = m / 2 ^ (E - e) /\
  snd (shr_fexp prec emax m e l) = E.
Proof.
  intros Hm He H E. unfold shr_fexp. fold E.
  pose proof (shr_inbetween x (shr_record_of_loc m l) e (E - e)) as S.
  rewrite shr_m_record_of_loc, loc_of_shr_record_of_loc in S.
  replace (e + (E - e)) with E in S by lia.
  apply S; [exact Hm|lia|exact H].
Qed.

Lemma Qfloor_unique q m : (inject_Z m <= q < inject_Z (m + 1))%Q -> Qfloor q = m.
Proof.
  intros [H1 H2].
  pose proof (Qfloor_le q) as F1. pose proof (Qlt_floor q) as F2.
  assert (A : (inject_Z m < inject_Z (Qfloor q + 1))%Q) by lra.
  assert (B : (inject_Z (Qfloor q) < inject_Z (m + 1))%Q) by lra.
  rewrite <- Zlt_Qlt in A, B. lia.
Qed.

Lemma RNE_in_loc q m l : in_loc q (inject_Z m) 1 l -> RNE q = round_nearest_even m l.
Proof.
  intro H. unfold RNE.
  assert (F : Qfloor q = m).
  { apply Qfloor_unique. rewrite inject_Z_plus. change (inject_Z 1) with 1%Q.
    destruct l as [|[ | | ]]; cbn in H; lra. }
  rewrite F.
  destruct l as [|[ | | ]]; cbn in H; cbn [round_nearest_even].
  - assert (C : (2 * (q - inject_Z m) < 1)%Q) by lra. rewrite Qlt_alt in C. rewrite C. reflexivity.
  - assert (C : (2 * (q - inject_Z m) == 1)%Q) by lra. rewrite Qeq_alt in C. rewrite C. reflexivity.
  - assert (C : (2 * (q - inject_Z m) < 1)%Q) by lra. rewrite Qlt_alt in C. rewrite C. reflexivity.
  - assert (C : (2 * (q - inject_Z m) > 1)%Q) by lra. rewrite Qgt_alt in C. rewrite C. reflexivity.
Qed.

Lemma RNE_bounds q :
  (inject_Z (Qfloor q) <= inject_Z (RNE q) <= inject_Z (Qfloor q) + 1)%Q /\
  (2 * (inject_Z (RNE q) - q) <= 1)%Q /\ (2 * (q - inject_Z (RNE q)) <= 1)%Q.
Proof.
  unfold RNE. pose proof (Qfloor_le q) as F1. pose proof (Qlt_floor q) as F2.
  rewrite inject_Z_plus in F2. change (inject_Z 1) with 1%Q in F2.
  destruct (Qcompare_spec (2 * (q - inject_Z (Qfloor q))) 1) as [C|C|C];
    [destruct (Z.even (Qfloor q))| |];
    rewrite ?inject_Z_plus; change (inject_Z 1) with 1%Q; repeat split; lra.
Qed.

Lemma RNE_Z z : RNE (inject_Z z) = z.
Proof.
  apply (RNE_in_loc _ z loc_Exact). cbn. reflexivity.
Qed.

Lemma RNE_mono q q' : (q <= q')%Q -> RNE q <= RNE q'.
Proof.
  intro H. pose proof (Qfloor_resp_le _ _ H) as F.
  pose proof (RNE_bounds q) as [[A1 A2] _]. pose proof (RNE_bounds q') as [[B1 B2] _].
  destruct (Z.eq_dec (Qfloor q) (Qfloor q')) as [E|N].
  - unfold RNE. rewrite <- E.
    destruct (Qcompare_spec (2 * (q - inject_Z (Qfloor q))) 1) as [C|C|C];
      destruct (Qcompare_spec (2 * (q' - inject_Z (Qfloor q))) 1) as [C'|C'|C'];
      try destruct (Z.even (Qfloor q)); try lia; lra.
  - assert (L : Qfloor q + 1 <= Qfloor q') by lia.
    rewrite Zle_Qle, inject_Z_plus in L. change (inject_Z 1) with 1%Q in L.
    rewrite Zle_Qle. lra.
Qed.

#[global] Instance RNE_comp : Proper (Qeq ==> eq) RNE.
Proof.
  intros q q' E. apply Z.le_antisymm; apply RNE_mono; lra.
Qed.

Lemma inbetween_scale x m E l :
  inbetween x m E l -> in_loc (x / bpow E) (inject_Z m) 1 l.
Proof.
  unfold inbetween. pose proof (bpow_pos E) as Hb. set (b := bpow E) in *. clearbody b.
  assert (Hx : (x == (x / b) * b)%Q) by (field; lra).
  revert Hx. generalize (x / b)%Q. intros y Hx.
  generalize dependent (inject_Z m). intros t.
  destruct l as [|[ | | ]]; cbn; intros; nra.
Qed.

Lemma inbetween_rnd x m E l :
  inbetween x m E l -> (rnd E x == inject_Z (round_nearest_even m l) * bpow E)%Q.
Proof.
  intro H. unfold rnd. rewrite (RNE_in_loc _ m l); [reflexivity|]. apply inbetween_scale, H.
Qed.

(** ** What [binary_round_aux] returns *)

Lemma fexp_eq k : fexp prec emax k = Z.max (k - 53) (-1074).
Proof. reflexivity. Qed.

Lemma Zdiv_pow2_bounds m d n : 0 <= n -> n < d ->
  2 ^ (d - 1) <= m < 2 ^ d -> 2 ^ (d - 1 - n) <= m / 2 ^ n < 2 ^ (d - n).
Proof.
  intros Hn Hd [H1 H2].
  assert (P : 0 < 2 ^ n) by (apply Z.pow_pos_nonneg; lia).
  split.
  - apply Z.div_le_lower_bound; [exact P|].
    rewrite <- Z.pow_add_r by lia. replace (n + (d - 1 - n)) with (d - 1) by lia. exact H1.
  - apply Z.div_lt_upper_bound; [exact P|].
    rewrite <- Z.pow_add_r by lia. replace (n + (d - n)) with d by lia. exact H2.
Qed.

Lemma Zdiv_pow2_small m d n : 0 <= d -> d <= n -> 0 <= m < 2 ^ d -> m / 2 ^ n = 0.
Proof.
  intros Hd Hn [H1 H2]. apply Z.div_small. split; [exact H1|].
  assert (2 ^ d <= 2 ^ n) by (apply Z.pow_le_mono_r; lia). lia.
Qed.

Lemma shr_fexp_exact_0 m e :
  fexp prec emax (Zdigits2 m + e) - e = 0 ->
  shr_fexp prec emax m e loc_Exact = (Build_shr_record m false false, e).
Proof. intro H. unfold shr_fexp. rewrite H. reflexivity. Qed.

Lemma round_nearest_even_bounds m l :
  m <= round_nearest_even m l <= m + 1.
Proof. destruct l as [|[ | | ]]; cbn [round_nearest_even]; try destruct (Z.even m); lia. Qed.

Lemma bpow_mul_lt m e d k : 0 <= d -> m < 2 ^ d -> d + e <= k ->
  (inject_Z m * bpow e < bpow k)%Q.
Proof.
  intros Hd Hm Hk.
  apply Qlt_le_trans with (bpow (d + e)); [|apply bpow_le; exact Hk].
  rewrite bpow_add, (bpow_Z d Hd).
  apply Qmult_lt_compat_r; [apply bpow_pos|]. rewrite <- Zlt_Qlt. exact Hm.
Qed.

Lemma bpow_mul_ge m e d k : 0 <= d -> 2 ^ d <= m -> k <= d + e ->
  (bpow k <= inject_Z m * bpow e)%Q.
Proof.
  intros Hd Hm Hk.
  apply Qle_trans with (bpow (d + e)); [apply bpow_le; exact Hk|].
  rewrite bpow_add, (bpow_Z d Hd).
  apply Qmult_le_compat_r; [|apply Qlt_le_weak, bpow_pos]. rewrite <- Zle_Qle. exact Hm.
Qed.

Theorem binary_round_aux_spec s m e l x :
  0 <= m -> inbetween x m e l ->
  e <= fexp prec emax (Zdigits2 m + e) ->
  round_result s (rnd (fexp prec emax (Zdigits2 m + e)) x) (binary_round_aux prec emax s m e l).
Proof.
  intros Hm Hx He.
  set (E := fexp prec emax (Zdigits2 m + e)) in *.
  destruct (shr_fexp_inbetween x m e l Hm He Hx) as (I1 & M1 & E1).
  fold E in I1, M1, E1.
  unfold binary_round_aux.
  destruct (shr_fexp prec emax m e l) as [mrs1 e1]. cbn [fst snd] in I1, M1, E1. subst e1.
  set (m1 := shr_m mrs1) in *. set (l1 := loc_of_shr_record mrs1) in *.
  pose proof (inbetween_rnd x m1 E l1 I1) as R.
  pose proof (round_nearest_even_bounds m1 l1) as B2.
  set (m2 := round_nearest_even m1 l1) in *.
  set (r := rnd E x) in *. clearbody r m2. clear I1 Hx.
  assert (P : 0 < 2 ^ (E - e)) by (apply Z.pow_pos_nonneg; lia).
  assert (Hm1 : 0 <= m1) by (rewrite M1; apply Z.div_pos; lia).
  (* shape of the first shift *)
  assert (C : (E = -1074 /\ m2 <= 2 ^ 52) \/ (-1074 <= E /\ 2 ^ 52 <= m2 <= 2 ^ 53)).
  { unfold E in *. rewrite fexp_eq in *.
    destruct m as [|p|p]; [| |lia].
    - left. cbn [Zdigits2] in *. rewrite Z.div_0_l in M1 by lia. lia.
    - pose proof (digits2_pos_bounds p) as D. cbn [Zdigits2] in *.
      set (d := Zpos (digits2_pos p)) in *.
      assert (0 < d) by (unfold d; lia).
      destruct (Z.max_spec (d + e - 53) (-1074)) as [[L Q]|[L Q]]; rewrite Q in *.
      + left. split; [reflexivity|].
        destruct (Z_lt_le_dec (-1074 - e) d) as [G|G].
        * pose proof (Zdiv_pow2_bounds (Zpos p) d (-1074 - e) ltac:(lia) G D) as [_ U].
          assert (2 ^ (d - (-1074 - e)) <= 2 ^ 52) by (apply Z.pow_le_mono_r; lia). lia.
        * rewrite (Zdiv_pow2_small (Zpos p) d (-1074 - e)) in M1 by lia. lia.
      + right. split; [lia|].
        pose proof (Zdiv_pow2_bounds (Zpos p) d (d + e - 53 - e) ltac:(lia) ltac:(lia) D) as [U1 U2].
        replace (d - 1 - (d + e - 53 - e)) with 52 in U1 by lia.
        replace (d - (d + e - 53 - e)) with 53 in U2 by lia. lia. }
  clear M1 P.
  destruct C as [[EE U]|[EE [L U]]].
  - (* rounding at the smallest exponent *)
    assert (D2 : Zdigits2 m2 <= 53).
    { destruct (Z.eq_dec m2 0) as [->|N]; [cbn; lia|].
      pose proof (Zdigits2_bounds m2 ltac:(lia)) as [D _].
      destruct (Z_le_gt_dec (Zdigits2 m2) 53) as [|G]; [assumption|].
      assert (2 ^ 53 <= 2 ^ (Zdigits2 m2 - 1)) by (apply Z.pow_le_mono_r; lia). lia. }
    rewrite shr_fexp_exact_0 by (rewrite fexp_eq; pose proof (Zdigits2_nonneg m2); lia).
    cbn [shr_m]. destruct m2 as [|p|p]; [| |lia].
    + cbn. split; [reflexivity|]. rewrite R. change (inject_Z 0) with 0%Q. ring.
    + rewrite EE. cbn [round_result Z.leb Z.compare Z.sub Z.add Z.opp Z.pos_sub prec emax].
      change (-1074 <=? 1024 - 53) with true. cbn iota.
      split; [reflexivity|]. split; [rewrite R, EE; reflexivity|].
      rewrite R, EE. apply (bpow_mul_lt _ _ 53); lia.
  - destruct (Z.eq_dec m2 (2 ^ 53)) as [T|T].
    + (* carry into the next binade *)
      subst m2. unfold shr_fexp.
      replace (fexp prec emax (Zdigits2 (2 ^ 53) + E) - E) with 1
        by (rewrite fexp_eq; change (Zdigits2 (2 ^ 53)) with 54; lia).
      cbn [shr iter_pos shr_record_of_loc shr_1 shr_m]. 
      change (shr_m (shr_1 {| shr_m := 2 ^ 53; shr_r := false; shr_s := false |})) with (2 ^ 52).
      change (2 ^ 52) with (Zpos (2 ^ 52)). cbn iota.
      assert (V : (r == inject_Z (Zpos (2 ^ 52)) * bpow (E + 1))%Q).
      { rewrite R, bpow_succ. change (inject_Z (2 ^ 53)) with (2 * inject_Z (Zpos (2 ^ 52)))%Q. ring. }
      destruct (Z.leb_spec (E + 1) (emax - prec)) as [Le|Gt]; cbn [round_result].
      * split; [reflexivity|]. split; [exact V|].
        rewrite V. apply (bpow_mul_lt _ _ 53); [lia|reflexivity|unfold emax, prec in Le; lia].
      * split; [reflexivity|]. rewrite V.
        apply (bpow_mul_ge _ _ 52); [lia|reflexivity|unfold emax, prec in Gt; lia].
    + assert (D2 : Zdigits2 m2 = 53) by (apply Zdigits2_unique; lia).
      rewrite shr_fexp_exact_0 by (rewrite fexp_eq, D2; lia).
      cbn [shr_m]. destruct m2 as [|p|p]; [lia| |lia].
      destruct (Z.leb_spec E (emax - prec)) as [Le|Gt]; cbn [round_result].
      * split; [reflexivity|]. split; [exact R|].
        rewrite R. apply (bpow_mul_lt _ _ 53); [lia|lia|unfold emax, prec in Le; lia].
      * split; [reflexivity|]. rewrite R.
        apply (bpow_mul_ge _ _ 52); [lia|lia|unfold emax, prec in Gt; lia].
Qed.

(** ** The order of floats is the order of their values *)

Lemma bounded_facts m e : bounded prec emax m e = true ->
  -1074 <= e <= 971 /\ Zpos (digits2_pos m) <= 53 /\ (-1074 < e -> Zpos (digits2_pos m) = 53).
Proof.
  unfold bounded, canonical_mantissa. rewrite andb_true_iff, fexp_eq.
  intros [C B]. apply Z.eqb_eq in C. apply Z.leb_le in B.
  change (emax - prec) with 971 in B. lia.
Qed.

Lemma finite_pos m e : (0 < inject_Z (Zpos m) * bpow e)%Q.
Proof.
  apply Qmult_lt_0_compat; [|apply bpow_pos]. change 0%Q with (inject_Z 0). rewrite <- Zlt_Qlt. lia.
Qed.

Lemma bounded_lt_max m e : bounded prec emax m e = true ->
  (inject_Z (Zpos m) * bpow e < bpow 1024)%Q.
Proof.
  intro B. apply bounded_facts in B. pose proof (digits2_pos_bounds m).
  apply (bpow_mul_lt _ _ (Zpos (digits2_pos m))); lia.
Qed.

Lemma canonical_lt m1 e1 m2 e2 :
  bounded prec emax m1 e1 = true -> bounded prec emax m2 e2 = true ->
  e1 < e2 -> (inject_Z (Zpos m1) * bpow e1 < inject_Z (Zpos m2) * bpow e2)%Q.
Proof.
  intros B1 B2 L. apply bounded_facts in B1, B2.
  pose proof (digits2_pos_bounds m1) as D1. pose proof (digits2_pos_bounds m2) as D2.
  apply Qlt_le_trans with (bpow (53 + e1)).
  - apply (bpow_mul_lt _ _ (Zpos (digits2_pos m1))); lia.
  - apply (bpow_mul_ge _ _ 52); [lia| |lia].
    replace 52 with (Zpos (digits2_pos m2) - 1) by lia. lia.
Qed.

Lemma same_exp_compare m1 m2 e c :
  Pos.compare_cont Eq m1 m2 = c ->
  ((inject_Z (Zpos m1) * bpow e ?= inject_Z (Zpos m2) * bpow e)%Q = c).
Proof.
  intro H. change (Pos.compare_cont Eq m1 m2) with (Pos.compare m1 m2) in H.
  pose proof (bpow_pos e) as Hb.
  destruct (Pos.compare_spec m1 m2) as [E|L|G]; subst c.
  - subst. rewrite <- Qeq_alt. reflexivity.
  - rewrite <- Qlt_alt. apply Qmult_lt_compat_r; [exact Hb|]. rewrite <- Zlt_Qlt. lia.
  - rewrite <- Qgt_alt. apply Qmult_lt_compat_r; [exact Hb|]. rewrite <- Zlt_Qlt. lia.
Qed.

Lemma Qcompare_opp a b : ((- a ?= - b) = CompOpp (a ?= b))%Q.
Proof.
  destruct (Qcompare_spec a b) as [E|L|G]; cbn [CompOpp].
  - rewrite <- Qeq_alt. lra.
  - rewrite <- Qgt_alt. lra.
  - rewrite <- Qlt_alt. lra.
Qed.

Theorem SFcompare_SF2Q x y :
  valid_binary x = true -> valid_binary y = true ->
  SFis_nan x = false -> SFis_nan y = false ->
  SFcompare x y = Some (SF2Q x ?= SF2Q y)%Q.
Proof.
  intros Vx Vy Nx Ny.
  pose proof (bpow_pos 1024) as Hmax.
  destruct x as [sx|sx| |sx mx ex]; try discriminate Nx;
  destruct y as [sy|sy| |sy my ey]; try discriminate Ny;
  cbn [valid_binary] in Vx, Vy;
  try pose proof (finite_pos mx ex) as Px; try pose proof (finite_pos my ey) as Py;
  try pose proof (bounded_lt_max mx ex Vx) as Mx; try pose proof (bounded_lt_max my ey Vy) as My;
  cbn [SFcompare SF2Q]; f_equal; symmetry.
  all: try (destruct sx; try destruct sy; cbn [cond_Qopp];
       first [ rewrite <- Qeq_alt; lra | rewrite <- Qlt_alt; lra | rewrite <- Qgt_alt; lra ]).
  all: try (destruct sy; cbn [cond_Qopp];
       first [ rewrite <- Qeq_alt; lra | rewrite <- Qlt_alt; lra | rewrite <- Qgt_alt; lra ]).
  destruct sx, sy; cbn [cond_Qopp]; try (first [ rewrite <- Qlt_alt; lra | rewrite <- Qgt_alt; lra ]).
  - rewrite Qcompare_opp.
    destruct (Z.compare_spec ex ey) as [E|L|G]; cbn [CompOpp].
    + subst ey. f_equal. apply same_exp_compare. reflexivity.
    + change Gt with (CompOpp Lt). f_equal. rewrite <- Qlt_alt. apply canonical_lt; assumption.
    + change Lt with (CompOpp Gt). f_equal. rewrite <- Qgt_alt. apply canonical_lt; assumption.
  - destruct (Z.compare_spec ex ey) as [E|L|G].
    + subst ey. apply same_exp_compare. reflexivity.
    + rewrite <- Qlt_alt. apply canonical_lt; assumption.
    + rewrite <- Qgt_alt. apply canonical_lt; assumption.
Qed.

Lemma SFleb_SF2Q x y :
  valid_binary x = true -> valid_binary y = true ->
  SFis_nan x = false -> SFis_nan y = false ->
  SFleb x y = true <-> (SF2Q x <= SF2Q y)%Q.
Proof.
  intros Vx Vy Nx Ny. unfold SFleb. rewrite (SFcompare_SF2Q x y Vx Vy Nx Ny).
  destruct (Qcompare_spec (SF2Q x) (SF2Q y)) as [E|L|G]; split; intro H; try reflexivity; try discriminate; lra.
Qed.

Lemma SFltb_SF2Q x y :
  valid_binary x = true -> valid_binary y = true ->
  SFis_nan x = false -> SFis_nan y = false ->
  SFltb x y = true <-> (SF2Q x < SF2Q y)%Q.
Proof.
  intros Vx Vy Nx Ny. unfold SFltb. rewrite (SFcompare_SF2Q x y Vx Vy Nx Ny).
  destruct (Qcompare_spec (SF2Q x) (SF2Q y)) as [E|L|G]; split; intro H; try reflexivity; try discriminate; lra.
Qed.

(** ** The rounding exponent; rounding is monotone and accurate *)

Lemma inbetween_bounds x m e l :
  inbetween x m e l -> (inject_Z m * bpow e <= x < inject_Z (m + 1) * bpow e)%Q.
Proof.
  unfold inbetween. rewrite inject_Z_plus. change (inject_Z 1) with 1%Q.
  pose proof (bpow_pos e). generalize dependent (bpow e). intros b Hb.
  generalize (inject_Z m). intro t.
  destruct l as [|[ | | ]]; cbn; intro H; nra.
Qed.

Lemma good_exp_inbetween x m e l :
  0 <= m -> inbetween x m e l ->
  e <= fexp prec emax (Zdigits2 m + e) ->
  good_exp x (fexp prec emax (Zdigits2 m + e)).
Proof.
  intros Hm Hx He. apply inbetween_bounds in Hx. destruct Hx as [L U].
  rewrite fexp_eq in *. unfold good_exp.
  destruct m as [|p|p]; [| |lia].
  - cbn [Zdigits2] in *. left. split; [lia|].
    apply Qlt_le_trans with (1 := U). cbn [Z.add].
    change (inject_Z 1) with 1%Q. rewrite Qmult_1_l. apply bpow_le. lia.
  - pose proof (digits2_pos_bounds p) as [D1 D2]. cbn [Zdigits2] in *.
    set (d := Zpos (digits2_pos p)) in *. assert (0 < d) by (unfold d; lia).
    assert (U' : (x < bpow (d + e))%Q).
    { apply Qlt_le_trans with (1 := U).
      rewrite bpow_add, (bpow_Z d) by lia.
      apply Qmult_le_compat_r; [|apply Qlt_le_weak, bpow_pos]. rewrite <- Zle_Qle. lia. }
    assert (L' : (bpow (d - 1 + e) <= x)%Q).
    { apply Qle_trans with (2 := L). apply (bpow_mul_ge _ _ (d - 1)); lia. }
    destruct (Z.max_spec (d + e - 53) (-1074)) as [[C Q]|[C Q]]; rewrite Q.
    + left. split; [reflexivity|]. apply Qlt_le_trans with (1 := U'). apply bpow_le. lia.
    + destruct (Z.eq_dec (d + e - 53) (-1074)) as [Z|NZ].
      * left. split; [lia|]. apply Qlt_le_trans with (1 := U'). apply bpow_le. lia.
      * right. split; [lia|].
        replace (d + e - 53 + 52) with (d - 1 + e) by lia.
        replace (d + e - 53 + 53) with (d + e) by lia. split; assumption.
Qed.

Lemma good_exp_unique x E E' : good_exp x E -> good_exp x E' -> E = E'.
Proof.
  intros [[-> A]|[A [A1 A2]]] [[-> B]|[B [B1 B2]]]; try reflexivity.
  - exfalso. assert (bpow (-1021) <= bpow (E' + 52))%Q by (apply bpow_le; lia). lra.
  - exfalso. assert (bpow (-1021) <= bpow (E + 52))%Q by (apply bpow_le; lia). lra.
  - destruct (Z.lt_trichotomy E E') as [L|[Q|G]]; [|exact Q|]; exfalso.
    + assert (bpow (E + 53) <= bpow (E' + 52))%Q by (apply bpow_le; lia). lra.
    + assert (bpow (E' + 53) <= bpow (E + 52))%Q by (apply bpow_le; lia). lra.
Qed.

Lemma rnd_mono_E E x y : (x <= y)%Q -> (rnd E x <= rnd E y)%Q.
Proof.
  intro H. unfold rnd. pose proof (bpow_pos E) as Hb.
  apply Qmult_le_compat_r; [|lra]. rewrite <- Zle_Qle. apply RNE_mono.
  apply Qmult_le_compat_r; [exact H|]. apply Qlt_le_weak, Qinv_lt_0_compat, Hb.
Qed.

Lemma rnd_bpow E k : E <= k -> (rnd E (bpow k) == bpow k)%Q.
Proof.
  intro H. unfold rnd.
  assert (Q : (bpow k / bpow E == inject_Z (2 ^ (k - E)))%Q).
  { rewrite <- bpow_Z by lia. replace k with ((k - E) + E) at 1 by lia.
    rewrite bpow_add. field. pose proof (bpow_pos E). lra. }
  rewrite Q, RNE_Z, <- bpow_Z, <- bpow_add by lia.
  replace (k - E + E) with k by lia. reflexivity.
Qed.

Lemma rnd_0 E : (rnd E 0 == 0)%Q.
Proof.
  unfold rnd. assert (Q : (0 / bpow E == inject_Z 0)%Q) by (unfold Qdiv; ring).
  rewrite Q, RNE_Z. change (inject_Z 0) with 0%Q. ring.
Qed.

Lemma rnd_nonneg E x : (0 <= x)%Q -> (0 <= rnd E x)%Q.
Proof. intro H. rewrite <- (rnd_0 E). apply rnd_mono_E, H. Qed.

#[global] Instance rnd_comp E : Proper (Qeq ==> Qeq) (rnd E).
Proof. intros x y H. unfold rnd. rewrite H. reflexivity. Qed.

Lemma rnd_mono x y Ex Ey :
  good_exp x Ex -> good_exp y Ey -> (x <= y)%Q -> (rnd Ex x <= rnd Ey y)%Q.
Proof.
  intros Gx Gy H.
  destruct (Z.eq_dec Ex Ey) as [->|N]; [apply rnd_mono_E, H|].
  destruct Gx as [[-> A]|[A [A1 A2]]]; destruct Gy as [[-> B]|[B [B1 B2]]]; try lia.
  - apply Qle_trans with (bpow (Ey + 52)).
    + rewrite <- (rnd_bpow (-1074) (Ey + 52)) by lia. apply rnd_mono_E.
      assert (bpow (-1021) <= bpow (Ey + 52))%Q by (apply bpow_le; lia). lra.
    + rewrite <- (rnd_bpow Ey (Ey + 52)) by lia. apply rnd_mono_E. lra.
  - exfalso. assert (bpow (-1021) <= bpow (Ex + 52))%Q by (apply bpow_le; lia). lra.
  - destruct (Z_lt_le_dec Ex Ey) as [L|G].
    + apply Qle_trans with (bpow (Ey + 52)).
      * rewrite <- (rnd_bpow Ex (Ey + 52)) by lia. apply rnd_mono_E.
        assert (bpow (Ex + 53) <= bpow (Ey + 52))%Q by (apply bpow_le; lia). lra.
      * rewrite <- (rnd_bpow Ey (Ey + 52)) by lia. apply rnd_mono_E. lra.
    + exfalso. assert (bpow (Ey + 53) <= bpow (Ex + 52))%Q by (apply bpow_le; lia). lra.
Qed.

(** The rounding error: half a unit in the last place. *)
Lemma rnd_error E x : (2 * Qabs (rnd E x - x) <= bpow E)%Q.
Proof.
  unfold rnd. pose proof (bpow_pos E) as Hb.
  destruct (RNE_bounds (x / bpow E)) as (_ & U & L).
  assert (Hx : (x == (x / bpow E) * bpow E)%Q) by (field; lra).
  revert U L Hx. generalize (x / bpow E)%Q (inject_Z (RNE (x / bpow E))).
  generalize dependent (bpow E). intros b Hb y t U L Hx.
  assert (U' : (0 <= (1 - 2 * (t - y)) * b)%Q) by (apply Qmult_le_0_compat; lra).
  assert (L' : (0 <= (1 - 2 * (y - t)) * b)%Q) by (apply Qmult_le_0_compat; lra).
  apply Qabs_case; intro; nra.
Qed.

Lemma rnd_relative_error E x : good_exp x E -> -1074 < E ->
  (Qabs (rnd E x - x) <= x * bpow (-53))%Q.
Proof.
  intros [[-> _]|[_ [L _]]] HE; [lia|].
  pose proof (rnd_error E x) as R.
  assert (Q : (2 * (bpow (E + 52) * bpow (-53)) == bpow E)%Q).
  { rewrite <- bpow_add. replace (E + 52 + -53) with (E + -1) by lia.
    rewrite bpow_add. change (bpow (-1)) with (1 # 2)%Q. ring. }
  assert (M : (bpow (E + 52) * bpow (-53) <= x * bpow (-53))%Q).
  { apply Qmult_le_compat_r; [exact L|]. apply Qlt_le_weak, bpow_pos. }
  lra.
Qed.

#[global] Instance cond_Qopp_comp s : Proper (Qeq ==> Qeq) (cond_Qopp s).
Proof. intros x y H. destruct s; cbn [cond_Qopp]; rewrite H; reflexivity. Qed.

Lemma round_result_value s r f : round_result s r f -> (0 <= r)%Q ->
  SFis_nan f = false /\ (SF2Q f == cond_Qopp s (Qmin r (bpow 1024)))%Q.
Proof.
  intros H Hr. pose proof (bpow_pos 1024) as Hmax.
  destruct f as [s'|s'| |s' m e]; cbn [round_result] in H; [| |contradiction|].
  - destruct H as [-> Z]. split; [reflexivity|]. cbn [SF2Q].
    rewrite Q.min_l by lra. rewrite Z. destruct s; reflexivity.
  - destruct H as [-> Z]. split; [reflexivity|]. cbn [SF2Q].
    rewrite Q.min_r by lra. reflexivity.
  - destruct H as (-> & V & L). split; [reflexivity|]. cbn [SF2Q].
    rewrite Q.min_l by lra. rewrite V. reflexivity.
Qed.

Lemma rounds_to_value s x f : rounds_to s x f -> (0 <= x)%Q ->
  SFis_nan f = false /\
  exists E, good_exp x E /\ (SF2Q f == cond_Qopp s (Qmin (rnd E x) (bpow 1024)))%Q.
Proof.
  intros (E & G & R) Hx.
  destruct (round_result_value s _ f R (rnd_nonneg E x Hx)) as [N V].
  split; [exact N|]. exists E. split; assumption.
Qed.

(** ** Products and quotients of finite floats *)

Lemma Zdigits2_ge m k : 0 <= k -> 2 ^ k <= m -> k + 1 <= Zdigits2 m.
Proof.
  intros Hk H. assert (0 < m) by (pose proof (Z.pow_pos_nonneg 2 k); lia).
  pose proof (Zdigits2_bounds m ltac:(lia)) as [_ U].
  pose proof (Zdigits2_nonneg m).
  destruct (Z_lt_le_dec k (Zdigits2 m)) as [L|G]; [lia|].
  assert (2 ^ Zdigits2 m <= 2 ^ k) by (apply Z.pow_le_mono_r; lia). lia.
Qed.

Lemma digits2_mul_ge mx my :
  Zpos (digits2_pos mx) + Zpos (digits2_pos my) - 1 <= Zpos (digits2_pos (mx * my)).
Proof.
  pose proof (digits2_pos_bounds mx) as [Lx _]. pose proof (digits2_pos_bounds my) as [Ly _].
  set (dx := Zpos (digits2_pos mx)) in *. set (dy := Zpos (digits2_pos my)) in *.
  assert (0 < dx) by (unfold dx; lia). assert (0 < dy) by (unfold dy; lia).
  change (Zpos (digits2_pos (mx * my))) with (Zdigits2 (Zpos (mx * my))).
  replace (dx + dy - 1) with ((dx - 1) + (dy - 1) + 1) by lia.
  apply Zdigits2_ge; [lia|].
  rewrite Z.pow_add_r by lia. rewrite Pos2Z.inj_mul.
  apply Z.mul_le_mono_nonneg; try assumption; apply Z.pow_nonneg; lia.
Qed.

Theorem SFmul_finite sx mx ex sy my ey :
  bounded prec emax mx ex = true -> bounded prec emax my ey = true ->
  rounds_to (xorb sx sy) (Fval mx ex * Fval my ey)
    (SFmul prec emax (S754_finite sx mx ex) (S754_finite sy my ey)).
Proof.
  intros Bx By. cbn [SFmul].
  assert (He : ex + ey <= fexp prec emax (Zdigits2 (Zpos (mx * my)) + (ex + ey))).
  { apply bounded_facts in Bx, By. pose proof (digits2_mul_ge mx my).
    rewrite fexp_eq. cbn [Zdigits2].
    assert (0 < Zpos (digits2_pos mx)) by lia. assert (0 < Zpos (digits2_pos my)) by lia. lia. }
  assert (Hx : inbetween (Fval mx ex * Fval my ey) (Zpos (mx * my)) (ex + ey) loc_Exact).
  { unfold inbetween, in_loc, Fval. rewrite Pos2Z.inj_mul, inject_Z_mult, bpow_add. ring. }
  exists (fexp prec emax (Zdigits2 (Zpos (mx * my)) + (ex + ey))). split.
  - apply (good_exp_inbetween _ _ _ loc_Exact); [lia|exact Hx|exact He].
  - apply binary_round_aux_spec; [lia|exact Hx|exact He].
Qed.

(** Division: the quotient and the position of the remainder. *)
Lemma new_location_spec m r : 0 < m -> 0 <= r < m ->
  match new_location m r with
  | loc_Exact => r = 0
  | loc_Inexact Lt => 0 < r /\ 2 * r < m
  | loc_Inexact Eq => 2 * r = m
  | loc_Inexact Gt => m < 2 * r
  end.
Proof.
  intros Hm Hr. unfold new_location, new_location_even, new_location_odd.
  destruct (Z.even m) eqn:Ev.
  - destruct (Z.eqb_spec r 0) as [Z|NZ]; [exact Z|].
    destruct (Z.compare_spec (2 * r) m); lia.
  - destruct (Z.eqb_spec r 0) as [Z|NZ]; [exact Z|].
    destruct (Z.compare_spec (2 * r + 1) m); try lia.
    assert (Od : Z.odd m = true) by (rewrite <- Z.negb_even, Ev; reflexivity).
    apply Z.odd_spec in Od. destruct Od as [k Hk]. lia.
Qed.

Lemma SFdiv_core_binary_spec m1 e1 m2 e2 :
  let '(q, e', l) := SFdiv_core_binary prec emax (Zpos m1) e1 (Zpos m2) e2 in
  0 <= q /\ inbetween (Fval m1 e1 / Fval m2 e2) q e' l /\
  e' <= fexp prec emax (Zdigits2 q + e').
Proof.
  unfold SFdiv_core_binary.
  pose proof (digits2_pos_bounds m1) as [L1 U1]. pose proof (digits2_pos_bounds m2) as [L2 U2].
  cbn [Zdigits2].
  set (d1 := Zpos (digits2_pos m1)) in *. set (d2 := Zpos (digits2_pos m2)) in *.
  assert (0 < d1) by (unfold d1; lia). assert (0 < d2) by (unfold d2; lia).
  rewrite (fexp_eq (d1 + e1 - (d2 + e2))).
  set (e' := Z.min (Z.max (d1 + e1 - (d2 + e2) - 53) (-1074)) (e1 - e2)).
  set (s := e1 - e2 - e').
  assert (Hs : 0 <= s) by (unfold s, e'; lia).
  set (m' := match s with Zpos _ => Z.shiftl (Zpos m1) s | Z0 => Zpos m1 | Zneg _ => 0 end).
  assert (Hm' : m' = Zpos m1 * 2 ^ s).
  { unfold m'. destruct s as [|p|p]; [cbn; lia| |lia]. apply Z.shiftl_mul_pow2. lia. }
  clearbody m'.
  pose proof (Z_div_mod m' (Zpos m2) ltac:(lia)) as DM.
  destruct (Z.div_eucl m' (Zpos m2)) as [q r]. destruct DM as [DM Hr].
  assert (P : 0 < 2 ^ s) by (apply Z.pow_pos_nonneg; lia).
  assert (Hq : 0 <= q) by nia.
  split; [exact Hq|]. split.
  - (* the quotient brackets the exact ratio *)
    pose proof (new_location_spec (Zpos m2) r ltac:(lia) Hr) as NL.
    unfold inbetween, Fval.
    assert (V : (inject_Z (Zpos m1) * bpow e1 / (inject_Z (Zpos m2) * bpow e2)
                 == (inject_Z q + inject_Z r / inject_Z (Zpos m2)) * bpow e')%Q).
    { assert (Q1 : (inject_Z (Zpos m1) * bpow s == inject_Z (Zpos m2) * inject_Z q + inject_Z r)%Q).
      { rewrite (bpow_Z s Hs), <- !inject_Z_mult, <- inject_Z_plus, <- Hm', DM. reflexivity. }
      assert (Q2 : (bpow e1 == bpow s * bpow e2 * bpow e')%Q).
      { rewrite <- !bpow_add. replace (s + e2 + e') with e1 by (unfold s; lia). reflexivity. }
      pose proof (bpow_pos e2). pose proof (bpow_pos e').
      assert (0 < inject_Z (Zpos m2))%Q by (change 0%Q with (inject_Z 0); rewrite <- Zlt_Qlt; lia).
      rewrite Q2.
      setoid_replace (inject_Z (Zpos m1) * (bpow s * bpow e2 * bpow e'))%Q
        with ((inject_Z (Zpos m1) * bpow s) * bpow e2 * bpow e')%Q by ring.
      rewrite Q1. field. split; lra. }
    rewrite V. clear V.
    pose proof (bpow_pos e') as Hb. generalize dependent (bpow e'). intros b Hb.
    assert (M2 : (0 < inject_Z (Zpos m2))%Q) by (change 0%Q with (inject_Z 0); rewrite <- Zlt_Qlt; lia).
    assert (R0 : (0 <= inject_Z r)%Q) by (change 0%Q with (inject_Z 0); rewrite <- Zle_Qle; lia).
    assert (F : (inject_Z r / inject_Z (Zpos m2) * inject_Z (Zpos m2) == inject_Z r)%Q) by (field; lra).
    revert F. generalize (inject_Z r / inject_Z (Zpos m2))%Q. intros f F.
    destruct (new_location (Zpos m2) r) as [|[ | | ]]; unfold in_loc.
    + subst r. change (inject_Z 0) with 0%Q in F. assert (f == 0)%Q by nra. nra.
    + assert (T : (2 * inject_Z r == inject_Z (Zpos m2))%Q)
        by (rewrite <- (inject_Z_mult 2), NL; reflexivity).
      assert (2 * f == 1)%Q by nra. nra.
    + destruct NL as [N1 N2].
      assert (T1 : (0 < inject_Z r)%Q) by (change 0%Q with (inject_Z 0); rewrite <- Zlt_Qlt; lia).
      assert (T2 : (2 * inject_Z r < inject_Z (Zpos m2))%Q)
        by (rewrite <- (inject_Z_mult 2), <- Zlt_Qlt; exact N2).
      assert (0 < f)%Q by nra. assert (2 * f < 1)%Q by nra. split; nra.
    + assert (T2 : (inject_Z (Zpos m2) < 2 * inject_Z r)%Q)
        by (rewrite <- (inject_Z_mult 2), <- Zlt_Qlt; exact NL).
      assert (T3 : (inject_Z r < inject_Z (Zpos m2))%Q) by (rewrite <- Zlt_Qlt; lia).
      assert (1 < 2 * f)%Q by nra. assert (f < 1)%Q by nra. split; nra.
  - (* enough digits for one rounding *)
    rewrite fexp_eq.
    destruct (Z_le_gt_dec e' (-1074)) as [Sm|Bg].
    + pose proof (Zdigits2_nonneg q). lia.
    + assert (Hs' : d2 - d1 + 53 <= s) by (unfold s, e' in *; lia).
      assert (Q52 : 2 ^ 52 <= q).
      { assert (A : 2 ^ (d2 + 52) <= m').
        { rewrite Hm'. apply Z.le_trans with (2 ^ (d1 - 1) * 2 ^ s).
          - rewrite <- Z.pow_add_r by lia. apply Z.pow_le_mono_r; lia.
          - apply Z.mul_le_mono_nonneg_r; lia. }
        rewrite Z.pow_add_r in A by lia.
        assert (2 ^ d2 * 2 ^ 52 < Zpos m2 * (q + 1)) by lia.
        assert (2 ^ 52 * Zpos m2 <= 2 ^ 52 * 2 ^ d2) by (apply Z.mul_le_mono_nonneg_l; lia).
        nia. }
      pose proof (Zdigits2_ge q 52 ltac:(lia) Q52). lia.
Qed.

Theorem SFdiv_finite sx mx ex sy my ey :
  rounds_to (xorb sx sy) (Fval mx ex / Fval my ey)
    (SFdiv prec emax (S754_finite sx mx ex) (S754_finite sy my ey)).
Proof.
  cbn [SFdiv]. pose proof (SFdiv_core_binary_spec mx ex my ey) as S.
  destruct (SFdiv_core_binary prec emax (Zpos mx) ex (Zpos my) ey) as [[q e'] l].
  destruct S as (Hq & Hx & He).
  exists (fexp prec emax (Zdigits2 q + e')). split.
  - apply (good_exp_inbetween _ _ _ l); assumption.
  - apply binary_round_aux_spec; assumption.
Qed.

(** ** Sums and differences; the rounding relation *)

Lemma pos_iter_xO m d : Zpos (Pos.iter xO m d) = Zpos m * 2 ^ Zpos d.
Proof.
  induction d as [|d IH] using Pos.peano_ind.
  - cbn. lia.
  - rewrite Pos.iter_succ, Pos2Z.inj_succ, Z.pow_succ_r by lia.
    change (Zpos (Pos.iter xO m d)~0) with (2 * Zpos (Pos.iter xO m d)). rewrite IH. ring.
Qed.

Lemma Fval_shift m e d : 0 <= d -> forall m', Zpos m' = Zpos m * 2 ^ d ->
  (Fval m' (e - d) == Fval m e)%Q.
Proof.
  intros Hd m' H. unfold Fval. rewrite H, inject_Z_mult, <- (bpow_Z d Hd).
  rewrite <- Qmult_assoc, <- bpow_add. replace (d + (e - d)) with e by lia. reflexivity.
Qed.

Lemma shl_align_spec mx ex e' :
  (Fval (fst (shl_align mx ex e')) (snd (shl_align mx ex e')) == Fval mx ex)%Q /\
  snd (shl_align mx ex e') = Z.min ex e' /\
  Zpos (fst (shl_align mx ex e')) = Zpos mx * 2 ^ (ex - Z.min ex e').
Proof.
  unfold shl_align. destruct (e' - ex) as [|d|d] eqn:D; cbn [fst snd].
  - replace (Z.min ex e') with ex by lia. rewrite Z.sub_diag. split; [reflexivity|]. split; lia.
  - replace (Z.min ex e') with ex by lia. rewrite Z.sub_diag. split; [reflexivity|]. split; lia.
  - replace (Z.min ex e') with e' by lia. replace (ex - e') with (Zpos d) by lia.
    pose proof (pos_iter_xO mx d) as P. split; [|split; [reflexivity|exact P]].
    replace e' with (ex - Zpos d) by lia. apply Fval_shift; [lia|exact P].
Qed.

Lemma Zdigits2_shift m d : 0 < m -> 0 <= d -> Zdigits2 (m * 2 ^ d) = Zdigits2 m + d.
Proof.
  intros Hm Hd. pose proof (Zdigits2_bounds m Hm) as [L U].
  assert (0 < Zdigits2 m) by (destruct m; cbn; lia).
  apply Zdigits2_unique; [lia|].
  replace (Zdigits2 m + d - 1) with (Zdigits2 m - 1 + d) by lia.
  rewrite !Z.pow_add_r by lia.
  assert (0 < 2 ^ d) by (apply Z.pow_pos_nonneg; lia). nia.
Qed.

Theorem binary_round_spec s m e :
  rounds_to s (Fval m e) (binary_round prec emax s m e).
Proof.
  unfold binary_round.
  set (E := fexp prec emax (Zpos (digits2_pos m) + e)).
  destruct (shl_align_spec m e E) as (V & S & M).
  destruct (shl_align m e E) as [mz ez]. cbn [fst snd] in V, S, M.
  assert (D : Zdigits2 (Zpos mz) + ez = Zpos (digits2_pos m) + e).
  { rewrite M, Zdigits2_shift by lia. cbn [Zdigits2]. lia. }
  assert (He : ez <= fexp prec emax (Zdigits2 (Zpos mz) + ez)) by (rewrite D; fold E; lia).
  assert (Hx : inbetween (Fval m e) (Zpos mz) ez loc_Exact).
  { unfold inbetween, in_loc. rewrite <- V. reflexivity. }
  exists (fexp prec emax (Zdigits2 (Zpos mz) + ez)). split.
  - apply (good_exp_inbetween _ _ _ loc_Exact); [lia|exact Hx|exact He].
  - apply binary_round_aux_spec; [lia|exact Hx|exact He].
Qed.

Lemma good_exp_0 : good_exp 0 (-1074).
Proof. left. split; [reflexivity|]. apply bpow_pos. Qed.

Lemma rounded_0 : rounded 0 0.
Proof.
  exists (-1074). split; [exact good_exp_0|]. left. split; [lra|].
  rewrite rnd_0. rewrite Q.min_l; [reflexivity|]. apply Qlt_le_weak, bpow_pos.
Qed.

#[global] Instance good_exp_comp : Proper (Qeq ==> eq ==> iff) good_exp.
Proof. intros x y H E E' <-. unfold good_exp. rewrite H. reflexivity. Qed.

#[global] Instance rounded_comp : Proper (Qeq ==> Qeq ==> iff) rounded.
Proof.
  intros v v' Hv w w' Hw. unfold rounded.
  split; intros (E & G & H); exists E.
  - rewrite <- Hv. split; [exact G|]. rewrite <- Hw. exact H.
  - rewrite Hv. split; [exact G|]. rewrite Hw. exact H.
Qed.

Lemma rounds_to_rounded s x f : (0 <= x)%Q -> rounds_to s x f ->
  SFis_nan f = false /\ rounded (cond_Qopp s x) (SF2Q f).
Proof.
  intros Hx R. destruct (rounds_to_value s x f R Hx) as (N & E & G & V).
  split; [exact N|]. exists E. destruct s; cbn [cond_Qopp] in *.
  - split; [rewrite Qabs_opp, Qabs_pos by exact Hx; exact G|].
    right. split; [lra|]. rewrite Qopp_involutive. exact V.
  - split; [rewrite Qabs_pos by exact Hx; exact G|]. left. split; assumption.
Qed.

Lemma rounded_mono v w v' w' : rounded v w -> rounded v' w' -> (v <= v')%Q -> (w <= w')%Q.
Proof.
  intros (E & G & H) (E' & G' & H') L.
  pose proof (bpow_pos 1024) as Hmax.
  assert (P : forall F x, (0 <= x)%Q -> (0 <= Qmin (rnd F x) (bpow 1024))%Q).
  { intros F x Hx. apply Q.min_glb; [apply rnd_nonneg, Hx|lra]. }
  destruct H as [[S W]|[S W]], H' as [[S' W']|[S' W']]; rewrite W, W'.
  - apply Q.min_le_compat_r. rewrite Qabs_pos in G, G' by assumption. apply rnd_mono; assumption.
  - assert (Z : (v == 0)%Q) by lra. assert (Z' : (v' == 0)%Q) by lra.
    rewrite Z, Z'. rewrite rnd_0. setoid_replace (- 0)%Q with 0%Q by ring. rewrite rnd_0.
    rewrite !Q.min_l by lra. lra.
  - pose proof (P E (- v)%Q ltac:(lra)). pose proof (P E' v' S'). lra.
  - rewrite Qabs_neg in G, G' by assumption.
    assert (Qmin (rnd E' (- v')) (bpow 1024) <= Qmin (rnd E (- v)) (bpow 1024))%Q.
    { apply Q.min_le_compat_r. apply rnd_mono; try assumption. lra. }
    lra.
Qed.

Lemma rounded_unique v w w' : rounded v w -> rounded v w' -> (w == w')%Q.
Proof.
  intros H H'. apply Qle_antisym; eapply rounded_mono; eauto; lra.
Qed.

Lemma rounded_nonneg v w : rounded v w -> (0 <= v)%Q -> (0 <= w)%Q.
Proof. intros H Hv. apply (rounded_mono 0 0 v w rounded_0 H Hv). Qed.

Lemma rounded_nonpos v w : rounded v w -> (v <= 0)%Q -> (w <= 0)%Q.
Proof. intros H Hv. apply (rounded_mono v w 0 0 H rounded_0 Hv). Qed.

Lemma rounded_bounds v w : rounded v w -> (- bpow 1024 <= w <= bpow 1024)%Q.
Proof.
  intros (E & G & H). pose proof (bpow_pos 1024) as Hmax.
  destruct H as [[S W]|[S W]]; rewrite W.
  - pose proof (Q.le_min_r (rnd E v) (bpow 1024)).
    assert (0 <= Qmin (rnd E v) (bpow 1024))%Q by (apply Q.min_glb; [apply rnd_nonneg, S|lra]). lra.
  - pose proof (Q.le_min_r (rnd E (- v)) (bpow 1024)).
    assert (0 <= Qmin (rnd E (- v)) (bpow 1024))%Q by (apply Q.min_glb; [apply rnd_nonneg; lra|lra]). lra.
Qed.

Lemma SF2Q_finite s m e : SF2Q (S754_finite s m e) = cond_Qopp s (Fval m e).
Proof. reflexivity. Qed.

Lemma Fval_pos m e : (0 < Fval m e)%Q.
Proof. apply finite_pos. Qed.

Lemma cond_Qopp_mul s s' x y :
  (cond_Qopp s x * cond_Qopp s' y == cond_Qopp (xorb s s') (x * y))%Q.
Proof. destruct s, s'; cbn; ring. Qed.

Lemma cond_Qopp_div s s' x y : ~ (y == 0)%Q ->
  (cond_Qopp s x / cond_Qopp s' y == cond_Qopp (xorb s s') (x / y))%Q.
Proof. intro H. destruct s, s'; cbn; field; exact H. Qed.

Theorem SFmul_rounded x y :
  valid_binary x = true -> valid_binary y = true ->
  SFfinite x = true -> SFfinite y = true ->
  SFis_nan (SFmul prec emax x y) = false /\
  rounded (SF2Q x * SF2Q y) (SF2Q (SFmul prec emax x y)).
Proof.
  intros Vx Vy Fx Fy.
  destruct x as [sx|sx| |sx mx ex]; try discriminate Fx;
  destruct y as [sy|sy| |sy my ey]; try discriminate Fy;
  cbn [SFmul]; try (split; [reflexivity|]; cbn [SF2Q];
    match goal with |- rounded ?v _ => setoid_replace v with 0%Q by ring end; exact rounded_0).
  cbn [valid_binary] in Vx, Vy. rewrite !SF2Q_finite, cond_Qopp_mul.
  apply rounds_to_rounded.
  - pose proof (Fval_pos mx ex). pose proof (Fval_pos my ey). nra.
  - apply SFmul_finite; assumption.
Qed.

Theorem SFdiv_rounded x y :
  SFfinite x = true -> SFfinite y = true -> ~ (SF2Q y == 0)%Q ->
  SFis_nan (SFdiv prec emax x y) = false /\
  rounded (SF2Q x / SF2Q y) (SF2Q (SFdiv prec emax x y)).
Proof.
  intros Fx Fy Ny.
  destruct x as [sx|sx| |sx mx ex]; try discriminate Fx;
  destruct y as [sy|sy| |sy my ey]; try discriminate Fy;
  try (exfalso; apply Ny; reflexivity).
  - cbn [SFdiv]. split; [reflexivity|]. cbn [SF2Q].
    match goal with |- rounded ?v _ => setoid_replace v with 0%Q by (unfold Qdiv; ring) end.
    exact rounded_0.
  - pose proof (Fval_pos mx ex). pose proof (Fval_pos my ey).
    rewrite !SF2Q_finite, cond_Qopp_div by lra.
    apply rounds_to_rounded.
    + apply Qlt_le_weak, Qlt_shift_div_l; lra.
    + apply SFdiv_finite.
Qed.

Lemma binary_normalize_rounded z e :
  SFis_nan (binary_normalize prec emax z e false) = false /\
  rounded (inject_Z z * bpow e) (SF2Q (binary_normalize prec emax z e false)).
Proof.
  destruct z as [|m|m]; cbn [binary_normalize].
  - split; [reflexivity|]. change (inject_Z 0) with 0%Q. cbn [SF2Q].
    setoid_replace (0 * bpow e)%Q with 0%Q by ring. exact rounded_0.
  - pose proof (Fval_pos m e).
    change (inject_Z (Zpos m) * bpow e)%Q with (cond_Qopp false (Fval m e)).
    apply rounds_to_rounded; [lra|]. apply binary_round_spec.
  - pose proof (Fval_pos m e).
    setoid_replace (inject_Z (Zneg m) * bpow e)%Q with (cond_Qopp true (Fval m e)).
    + apply rounds_to_rounded; [lra|]. apply binary_round_spec.
    + cbn [cond_Qopp]. unfold Fval. change (Zneg m) with (- Zpos m). rewrite inject_Z_opp. ring.
Qed.

Lemma aligned_value s m e ez : ez <= e ->
  (inject_Z (cond_Zopp s (Zpos (fst (shl_align m e ez)))) * bpow ez == cond_Qopp s (Fval m e))%Q.
Proof.
  intro H. destruct (shl_align_spec m e ez) as (V & S & _).
  rewrite <- V. replace (snd (shl_align m e ez)) with ez by lia.
  unfold Fval. destruct s; cbn [cond_Zopp cond_Qopp]; [rewrite inject_Z_opp; ring|reflexivity].
Qed.

Lemma valid_good_exp m e : bounded prec emax m e = true -> good_exp (Fval m e) e.
Proof.
  intro B. apply bounded_facts in B. pose proof (digits2_pos_bounds m) as [L U].
  set (d := Zpos (digits2_pos m)) in *. assert (0 < d) by (unfold d; lia).
  destruct (Z.eq_dec e (-1074)) as [->|N].
  - left. split; [reflexivity|]. apply (bpow_mul_lt _ _ d); lia.
  - right. split; [lia|]. split.
    + apply (bpow_mul_ge _ _ 52); [lia| |lia]. replace 52 with (d - 1) by lia. exact L.
    + apply (bpow_mul_lt _ _ 53); [lia| |lia]. replace 53 with d by lia. exact U.
Qed.

Lemma rnd_Fval m e : (rnd e (Fval m e) == Fval m e)%Q.
Proof.
  unfold rnd, Fval. pose proof (bpow_pos e).
  setoid_replace (inject_Z (Zpos m) * bpow e / bpow e)%Q with (inject_Z (Zpos m)) by (field; lra).
  rewrite RNE_Z. reflexivity.
Qed.

Lemma rounded_exact f : valid_binary f = true -> SFfinite f = true ->
  rounded (SF2Q f) (SF2Q f).
Proof.
  intros V F. destruct f as [s|s| |s m e]; try discriminate F.
  - exact rounded_0.
  - cbn [valid_binary] in V. pose proof (Fval_pos m e). pose proof (bounded_lt_max m e V) as M.
    fold (Fval m e) in M.
    rewrite SF2Q_finite. exists e. destruct s; cbn [cond_Qopp].
    + split; [rewrite Qabs_opp, Qabs_pos by lra; apply valid_good_exp, V|].
      right. split; [lra|]. rewrite Qopp_involutive, rnd_Fval, Q.min_l by lra. reflexivity.
    + split; [rewrite Qabs_pos by lra; apply valid_good_exp, V|].
      left. split; [lra|]. rewrite rnd_Fval, Q.min_l by lra. reflexivity.
Qed.

Lemma SF2Q_opp f : (SF2Q (SFopp f) == - SF2Q f)%Q.
Proof. destruct f as [s|s| |s m e]; cbn; try destruct s; cbn; ring. Qed.

Lemma valid_opp f : valid_binary (SFopp f) = valid_binary f.
Proof. destruct f; reflexivity. Qed.

Theorem SFsub_rounded x y :
  valid_binary x = true -> valid_binary y = true ->
  SFfinite x = true -> SFfinite y = true ->
  SFis_nan (SFsub prec emax x y) = false /\
  rounded (SF2Q x - SF2Q y) (SF2Q (SFsub prec emax x y)).
Proof.
  intros Vx Vy Fx Fy.
  destruct x as [sx|sx| |sx mx ex]; try discriminate Fx;
  destruct y as [sy|sy| |sy my ey]; try discriminate Fy; cbn [SFsub].
  - split; [destruct sx, sy; reflexivity|].
    setoid_replace (SF2Q (S754_zero sx) - SF2Q (S754_zero sy))%Q with 0%Q by (cbn; ring).
    destruct sx, sy; exact rounded_0.
  - split; [reflexivity|].
    change (S754_finite (negb sy) my ey) with (SFopp (S754_finite sy my ey)).
    setoid_replace (SF2Q (S754_zero sx) - SF2Q (S754_finite sy my ey))%Q
      with (SF2Q (SFopp (S754_finite sy my ey))) by (rewrite SF2Q_opp; cbn [SF2Q]; ring).
    apply rounded_exact; [rewrite valid_opp; exact Vy|reflexivity].
  - split; [reflexivity|].
    setoid_replace (SF2Q (S754_finite sx mx ex) - SF2Q (S754_zero sy))%Q
      with (SF2Q (S754_finite sx mx ex)) by (cbn [SF2Q]; ring).
    apply rounded_exact; [exact Vx|reflexivity].
  - set (ez := Z.min ex ey).
    destruct (binary_normalize_rounded
      (cond_Zopp sx (Zpos (fst (shl_align mx ex ez))) - cond_Zopp sy (Zpos (fst (shl_align my ey ez)))) ez)
      as [N R].
    split; [exact N|].
    unfold Z.sub in R at 1. rewrite inject_Z_plus, inject_Z_opp in R.
    rewrite !SF2Q_finite, <- (aligned_value sx mx ex ez), <- (aligned_value sy my ey ez) by (unfold ez; lia).
    revert R. apply rounded_comp; [ring|reflexivity].
Qed.

Theorem SFadd_rounded x y :
  valid_binary x = true -> valid_binary y = true ->
  SFfinite x = true -> SFfinite y = true ->
  SFis_nan (SFadd prec emax x y) = false /\
  rounded (SF2Q x + SF2Q y) (SF2Q (SFadd prec emax x y)).
Proof.
  intros Vx Vy Fx Fy.
  destruct x as [sx|sx| |sx mx ex]; try discriminate Fx;
  destruct y as [sy|sy| |sy my ey]; try discriminate Fy; cbn [SFadd].
  - split; [destruct sx, sy; reflexivity|].
    setoid_replace (SF2Q (S754_zero sx) + SF2Q (S754_zero sy))%Q with 0%Q by (cbn; ring).
    destruct sx, sy; exact rounded_0.
  - split; [reflexivity|].
    setoid_replace (SF2Q (S754_zero sx) + SF2Q (S754_finite sy my ey))%Q
      with (SF2Q (S754_finite sy my ey)) by (cbn [SF2Q]; ring).
    apply rounded_exact; [exact Vy|reflexivity].
  - split; [reflexivity|].
    setoid_replace (SF2Q (S754_finite sx mx ex) + SF2Q (S754_zero sy))%Q
      with (SF2Q (S754_finite sx mx ex)) by (cbn [SF2Q]; ring).
    apply rounded_exact; [exact Vx|reflexivity].
  - set (ez := Z.min ex ey).
    destruct (binary_normalize_rounded
      (cond_Zopp sx (Zpos (fst (shl_align mx ex ez))) + cond_Zopp sy (Zpos (fst (shl_align my ey ez)))) ez)
      as [N R].
    split; [exact N|].
    rewrite inject_Z_plus in R.
    rewrite !SF2Q_finite, <- (aligned_value sx mx ex ez), <- (aligned_value sy my ey ez) by (unfold ez; lia).
    revert R. apply rounded_comp; [ring|reflexivity].
Qed.

(** ** From [spec_float] to primitive floats *)

Lemma SFltb_not_nan x y : SFltb x y = true -> SFis_nan x = false /\ SFis_nan y = false.
Proof. destruct x, y; cbn; try discriminate; auto. Qed.

Lemma SFleb_not_nan x y : SFleb x y = true -> SFis_nan x = false /\ SFis_nan y = false.
Proof. destruct x, y; cbn; try discriminate; auto. Qed.

Lemma ltb_B2Q a b :
  (a <? b)%float = true <-> Bnan a = false /\ Bnan b = false /\ (B2Q a < B2Q b)%Q.
Proof.
  rewrite ltb_spec. unfold Bnan, B2Q. split.
  - intro H. destruct (SFltb_not_nan _ _ H) as [Na Nb]. repeat split; try assumption.
    apply SFltb_SF2Q; auto using Prim2SF_valid.
  - intros (Na & Nb & H). apply SFltb_SF2Q; auto using Prim2SF_valid.
Qed.

Lemma leb_B2Q a b :
  (a <=? b)%float = true <-> Bnan a = false /\ Bnan b = false /\ (B2Q a <= B2Q b)%Q.
Proof.
  rewrite leb_spec. unfold Bnan, B2Q. split.
  - intro H. destruct (SFleb_not_nan _ _ H) as [Na Nb]. repeat split; try assumption.
    apply SFleb_SF2Q; auto using Prim2SF_valid.
  - intros (Na & Nb & H). apply SFleb_SF2Q; auto using Prim2SF_valid.
Qed.

Lemma eqb_B2Q a b :
  (a =? b)%float = true <-> Bnan a = false /\ Bnan b = false /\ (B2Q a == B2Q b)%Q.
Proof.
  rewrite eqb_spec. unfold Bnan, B2Q, SFeqb. split.
  - intro H. assert (Na : SFis_nan (Prim2SF a) = false /\ SFis_nan (Prim2SF b) = false)
      by (destruct (Prim2SF a), (Prim2SF b); cbn in *; try discriminate; auto).
    destruct Na as [Na Nb]. repeat split; try assumption.
    rewrite (SFcompare_SF2Q _ _ (Prim2SF_valid a) (Prim2SF_valid b) Na Nb) in H.
    destruct (Qcompare_spec (SF2Q (Prim2SF a)) (SF2Q (Prim2SF b))); try discriminate. assumption.
  - intros (Na & Nb & H).
    rewrite (SFcompare_SF2Q _ _ (Prim2SF_valid a) (Prim2SF_valid b) Na Nb).
    rewrite Qeq_alt in H. rewrite H. reflexivity.
Qed.

Lemma is_infinity_false f :
  is_infinity f = false -> Bnan f = false -> Bfinite f = true.
Proof.
  unfold is_infinity, Bnan, Bfinite. rewrite eqb_spec, abs_spec.
  change (Prim2SF infinity) with (S754_infinity false).
  destruct (Prim2SF f) as [s|s| |s m e]; cbn; try discriminate; reflexivity.
Qed.

Lemma Bfinite_not_nan f : Bfinite f = true -> Bnan f = false.
Proof. unfold Bfinite, Bnan. destruct (Prim2SF f); cbn; try discriminate; reflexivity. Qed.

Lemma Bfinite_is_infinity f : Bfinite f = true -> is_infinity f = false.
Proof.
  unfold is_infinity, Bfinite. rewrite eqb_spec, abs_spec.
  change (Prim2SF infinity) with (S754_infinity false).
  destruct (Prim2SF f) as [s|s| |s m e]; cbn; try discriminate; try reflexivity.
Qed.

Lemma SF2Q_finite_bounds x : valid_binary x = true -> SFfinite x = true ->
  (- bpow 1024 < SF2Q x < bpow 1024)%Q.
Proof.
  intros V F. pose proof (bpow_pos 1024).
  destruct x as [s|s| |s m e]; try discriminate F; cbn [SF2Q]; [lra|].
  cbn [valid_binary] in V. pose proof (bounded_lt_max m e V). pose proof (finite_pos m e).
  destruct s; cbn [cond_Qopp]; lra.
Qed.

Lemma B2Q_finite_bounds f : Bfinite f = true -> (- bpow 1024 < B2Q f < bpow 1024)%Q.
Proof. intro F. apply SF2Q_finite_bounds; [apply Prim2SF_valid|exact F]. Qed.

(** A float that is not NaN and lies strictly inside the range is finite. *)
Lemma Bfinite_of_bounds f : Bnan f = false -> (- bpow 1024 < B2Q f < bpow 1024)%Q ->
  Bfinite f = true.
Proof.
  unfold Bnan, B2Q, Bfinite.
  destruct (Prim2SF f) as [s|s| |s m e]; cbn; try discriminate; try reflexivity.
  intros _. destruct s; cbn; lra.
Qed.

Theorem mul_rounded a b : Bfinite a = true -> Bfinite b = true ->
  Bnan (a * b) = false /\ rounded (B2Q a * B2Q b) (B2Q (a * b)).
Proof.
  intros Fa Fb. unfold Bnan, B2Q. rewrite mul_spec.
  apply SFmul_rounded; auto using Prim2SF_valid.
Qed.

Theorem div_rounded a b : Bfinite a = true -> Bfinite b = true -> ~ (B2Q b == 0)%Q ->
  Bnan (a / b) = false /\ rounded (B2Q a / B2Q b) (B2Q (a / b)).
Proof.
  intros Fa Fb Nb. unfold Bnan, B2Q. rewrite div_spec.
  apply SFdiv_rounded; assumption.
Qed.

Theorem sub_rounded a b : Bfinite a = true -> Bfinite b = true ->
  Bnan (a - b) = false /\ rounded (B2Q a - B2Q b) (B2Q (a - b)).
Proof.
  intros Fa Fb. unfold Bnan, B2Q. rewrite sub_spec.
  apply SFsub_rounded; auto using Prim2SF_valid.
Qed.

Theorem add_rounded a b : Bfinite a = true -> Bfinite b = true ->
  Bnan (a + b) = false /\ rounded (B2Q a + B2Q b) (B2Q (a + b)).
Proof.
  intros Fa Fb. unfold Bnan, B2Q. rewrite add_spec.
  apply SFadd_rounded; auto using Prim2SF_valid.
Qed.

(** ** The float operations are monotone *)

(** Infinite operands: an infinity keeps its place on the extended line
    when it is multiplied or divided by a positive finite float. *)
Lemma SFpos_finite c : SFfinite c = true -> (0 < SF2Q c)%Q ->
  exists m e, c = S754_finite false m e.
Proof.
  destruct c as [s|s| |s m e]; try discriminate; cbn [SF2Q]; intros _ H.
  destruct s; [|eauto]. exfalso. pose proof (finite_pos m e). cbn [cond_Qopp] in H. lra.
Qed.

Lemma SF_cases x : SFis_nan x = false ->
  SFfinite x = true \/ exists s, x = S754_infinity s.
Proof. destruct x; try discriminate; eauto. Qed.

Lemma SF2Q_infinity s : SF2Q (S754_infinity s) = cond_Qopp s (bpow 1024).
Proof. reflexivity. Qed.

Theorem SFmul_mono_l x x' c :
  valid_binary x = true -> valid_binary x' = true -> valid_binary c = true ->
  SFis_nan x = false -> SFis_nan x' = false ->
  SFfinite c = true -> (0 < SF2Q c)%Q -> (SF2Q x <= SF2Q x')%Q ->
  SFis_nan (SFmul prec emax x c) = false /\ SFis_nan (SFmul prec emax x' c) = false /\
  (SF2Q (SFmul prec emax x c) <= SF2Q (SFmul prec emax x' c))%Q.
Proof.
  intros Vx Vx' Vc Nx Nx' Fc Pc L. pose proof (bpow_pos 1024) as Hmax.
  destruct (SFpos_finite c Fc Pc) as (mc & ec & ->).
  destruct (SF_cases x Nx) as [Fx|[s ->]], (SF_cases x' Nx') as [Fx'|[s' ->]].
  - destruct (SFmul_rounded x _ Vx Vc Fx Fc) as [N R].
    destruct (SFmul_rounded x' _ Vx' Vc Fx' Fc) as [N' R'].
    repeat split; try assumption. apply (rounded_mono _ _ _ _ R R'). nra.
  - destruct (SFmul_rounded x _ Vx Vc Fx Fc) as [N R].
    pose proof (SF2Q_finite_bounds x Vx Fx) as B. pose proof (rounded_bounds _ _ R) as B'.
    cbn [SFmul]. repeat split; try assumption; try reflexivity.
    rewrite SF2Q_infinity in *. destruct s'; cbn [cond_Qopp xorb] in *; lra.
  - destruct (SFmul_rounded x' _ Vx' Vc Fx' Fc) as [N R].
    pose proof (SF2Q_finite_bounds x' Vx' Fx') as B. pose proof (rounded_bounds _ _ R) as B'.
    cbn [SFmul]. repeat split; try assumption; try reflexivity.
    rewrite SF2Q_infinity in *. destruct s; cbn [cond_Qopp xorb] in *; lra.
  - cbn [SFmul]. repeat split; try reflexivity.
    rewrite !SF2Q_infinity in *. destruct s, s'; cbn [cond_Qopp xorb] in *; lra.
Qed.

Theorem SFdiv_mono_l x x' c :
  valid_binary x = true -> valid_binary x' = true ->
  SFis_nan x = false -> SFis_nan x' = false ->
  SFfinite c = true -> (0 < SF2Q c)%Q -> (SF2Q x <= SF2Q x')%Q ->
  SFis_nan (SFdiv prec emax x c) = false /\ SFis_nan (SFdiv prec emax x' c) = false /\
  (SF2Q (SFdiv prec emax x c) <= SF2Q (SFdiv prec emax x' c))%Q.
Proof.
  intros Vx Vx' Nx Nx' Fc Pc L. pose proof (bpow_pos 1024) as Hmax.
  assert (Nc : ~ (SF2Q c == 0)%Q) by lra.
  assert (Ic : (0 < / SF2Q c)%Q) by (apply Qinv_lt_0_compat, Pc).
  destruct (SFpos_finite c Fc Pc) as (mc & ec & Ec).
  destruct (SF_cases x Nx) as [Fx|[s ->]], (SF_cases x' Nx') as [Fx'|[s' ->]].
  - destruct (SFdiv_rounded x _ Fx Fc Nc) as [N R].
    destruct (SFdiv_rounded x' _ Fx' Fc Nc) as [N' R'].
    repeat split; try assumption. apply (rounded_mono _ _ _ _ R R').
    unfold Qdiv. apply Qmult_le_compat_r; lra.
  - destruct (SFdiv_rounded x _ Fx Fc Nc) as [N R].
    pose proof (SF2Q_finite_bounds x Vx Fx) as B. pose proof (rounded_bounds _ _ R) as B'.
    subst c. cbn [SFdiv] in *. repeat split; try assumption; try reflexivity.
    rewrite SF2Q_infinity in *. destruct s'; cbn [cond_Qopp xorb] in *; lra.
  - destruct (SFdiv_rounded x' _ Fx' Fc Nc) as [N R].
    pose proof (SF2Q_finite_bounds x' Vx' Fx') as B. pose proof (rounded_bounds _ _ R) as B'.
    subst c. cbn [SFdiv] in *. repeat split; try assumption; try reflexivity.
    rewrite SF2Q_infinity in *. destruct s; cbn [cond_Qopp xorb] in *; lra.
  - subst c. cbn [SFdiv]. repeat split; try reflexivity.
    rewrite !SF2Q_infinity in *. destruct s, s'; cbn [cond_Qopp xorb] in *; lra.
Qed.

Theorem SFdiv_antimono_r x c c' :
  SFis_nan x = false -> (0 <= SF2Q x)%Q ->
  SFfinite c = true -> SFfinite c' = true -> (0 < SF2Q c)%Q -> (SF2Q c <= SF2Q c')%Q ->
  SFis_nan (SFdiv prec emax x c') = false /\ SFis_nan (SFdiv prec emax x c) = false /\
  (SF2Q (SFdiv prec emax x c') <= SF2Q (SFdiv prec emax x c))%Q.
Proof.
  intros Nx Px Fc Fc' Pc L.
  assert (Pc' : (0 < SF2Q c')%Q) by lra.
  destruct (SFpos_finite c Fc Pc) as (mc & ec & Ec).
  destruct (SFpos_finite c' Fc' Pc') as (mc' & ec' & Ec').
  destruct (SF_cases x Nx) as [Fx|[s ->]].
  - destruct (SFdiv_rounded x c Fx Fc ltac:(lra)) as [N R].
    destruct (SFdiv_rounded x c' Fx Fc' ltac:(lra)) as [N' R'].
    repeat split; try assumption. apply (rounded_mono _ _ _ _ R' R).
    unfold Qdiv. apply Qmult_le_compat_nonneg.
    + split; [exact Px|apply Qle_refl].
    + split; [apply Qlt_le_weak, Qinv_lt_0_compat, Pc'|].
      apply Qle_shift_inv_l; [exact Pc|].
      setoid_replace (/ SF2Q c' * SF2Q c)%Q with (SF2Q c / SF2Q c')%Q by (field; lra).
      apply Qle_shift_div_r; lra.
  - subst c c'. cbn [SFdiv]. repeat split; try reflexivity. apply Qle_refl.
Qed.

(** Subtraction of a larger float from a smaller one is never positive. *)
Theorem SFsub_nonpos x y :
  valid_binary x = true -> valid_binary y = true -> SFltb x y = true ->
  SFis_nan (SFsub prec emax x y) = false /\ (SF2Q (SFsub prec emax x y) <= 0)%Q.
Proof.
  intros Vx Vy L. destruct (SFltb_not_nan _ _ L) as [Nx Ny].
  pose proof (bpow_pos 1024) as Hmax.
  destruct (SF_cases x Nx) as [Fx|[s Ex]], (SF_cases y Ny) as [Fy|[s' Ey]].
  - destruct (SFsub_rounded x y Vx Vy Fx Fy) as [N R]. split; [exact N|].
    apply (rounded_nonpos _ _ R). apply SFltb_SF2Q in L; try assumption. lra.
  - subst y. destruct s'; [destruct x; discriminate|].
    destruct x; try discriminate; cbn; split; try reflexivity; lra.
  - subst x. destruct s; [|destruct y; discriminate].
    destruct y; try discriminate; cbn; split; try reflexivity; lra.
  - subst x y. destruct s, s'; try discriminate. cbn. split; [reflexivity|lra].
Qed.

Theorem SFsub_nonneg x y :
  valid_binary x = true -> valid_binary y = true -> SFltb y x = true ->
  SFis_nan (SFsub prec emax x y) = false /\ (0 <= SF2Q (SFsub prec emax x y))%Q.
Proof.
  intros Vx Vy L. destruct (SFltb_not_nan _ _ L) as [Ny Nx].
  pose proof (bpow_pos 1024) as Hmax.
  destruct (SF_cases x Nx) as [Fx|[s Ex]], (SF_cases y Ny) as [Fy|[s' Ey]].
  - destruct (SFsub_rounded x y Vx Vy Fx Fy) as [N R]. split; [exact N|].
    apply (rounded_nonneg _ _ R). apply SFltb_SF2Q in L; try assumption. lra.
  - subst y. destruct s'; [|destruct x; discriminate].
    destruct x; try discriminate; cbn; split; try reflexivity; lra.
  - subst x. destruct s; [destruct y; discriminate|].
    destruct y; try discriminate; cbn; split; try reflexivity; lra.
  - subst x y. destruct s, s'; try discriminate. cbn. split; [reflexivity|lra].
Qed.

Theorem mul_mono_l a a' c :
  Bnan a = false -> Bnan a' = false -> Bfinite c = true -> (0 < B2Q c)%Q ->
  (B2Q a <= B2Q a')%Q ->
  Bnan (a * c) = false /\ Bnan (a' * c) = false /\ (B2Q (a * c) <= B2Q (a' * c))%Q.
Proof.
  intros. unfold Bnan, B2Q. rewrite !mul_spec.
  apply SFmul_mono_l; auto using Prim2SF_valid.
Qed.

Theorem div_mono_l a a' c :
  Bnan a = false -> Bnan a' = false -> Bfinite c = true -> (0 < B2Q c)%Q ->
  (B2Q a <= B2Q a')%Q ->
  Bnan (a / c) = false /\ Bnan (a' / c) = false /\ (B2Q (a / c) <= B2Q (a' / c))%Q.
Proof.
  intros. unfold Bnan, B2Q. rewrite !div_spec.
  apply SFdiv_mono_l; auto using Prim2SF_valid.
Qed.

Theorem div_antimono_r a c c' :
  Bnan a = false -> (0 <= B2Q a)%Q ->
  Bfinite c = true -> Bfinite c' = true -> (0 < B2Q c)%Q -> (B2Q c <= B2Q c')%Q ->
  Bnan (a / c') = false /\ Bnan (a / c) = false /\ (B2Q (a / c') <= B2Q (a / c))%Q.
Proof.
  intros. unfold Bnan, B2Q. rewrite !div_spec.
  apply SFdiv_antimono_r; assumption.
Qed.

Theorem sub_nonpos a b : (a <? b)%float = true ->
  Bnan (a - b) = false /\ (B2Q (a - b) <= 0)%Q.
Proof.
  rewrite ltb_spec. intro L. unfold Bnan, B2Q. rewrite sub_spec.
  apply SFsub_nonpos; auto using Prim2SF_valid.
Qed.

Theorem sub_nonneg a b : (b <? a)%float = true ->
  Bnan (a - b) = false /\ (0 <= B2Q (a - b))%Q.
Proof.
  rewrite ltb_spec. intro L. unfold Bnan, B2Q. rewrite sub_spec.
  apply SFsub_nonneg; auto using Prim2SF_valid.
Qed.

Lemma B2Q_zero : B2Q zero = 0%Q.
Proof. reflexivity. Qed.

Lemma Bnan_zero : Bnan zero = false.
Proof. reflexivity. Qed.

Lemma mul_zero_l c : Bfinite c = true -> (B2Q (zero * c) == 0)%Q.
Proof.
  intro F. destruct (mul_rounded zero c eq_refl F) as [_ R].
  rewrite B2Q_zero in R.
  apply (rounded_unique 0); [|exact rounded_0].
  revert R. apply rounded_comp; [ring|reflexivity].
Qed.

Lemma div_zero_l c : Bfinite c = true -> ~ (B2Q c == 0)%Q -> (B2Q (zero / c) == 0)%Q.
Proof.
  intros F N. destruct (div_rounded zero c eq_refl F N) as [_ R].
  rewrite B2Q_zero in R.
  apply (rounded_unique 0); [|exact rounded_0].
  revert R. apply rounded_comp; [unfold Qdiv; ring|reflexivity].
Qed.

(** ** The preload expression: sign and monotonicity *)

Lemma pi_binary64_finite : Bfinite pi_binary64 = true.
Proof. vm_compute. reflexivity. Qed.

Lemma pi_binary64_pos : (0 < B2Q pi_binary64)%Q.
Proof.
  unfold B2Q.
  assert (H : exists m e, Prim2SF pi_binary64 = S754_finite false m e) by (vm_compute; eauto).
  destruct H as (m & e & ->). apply finite_pos.
Qed.

Lemma positive_finite p : (0 <? p)%float = true -> is_infinity p = false ->
  Bfinite p = true /\ (0 < B2Q p)%Q.
Proof.
  intros H I. apply ltb_B2Q in H. destruct H as (_ & N & H).
  split; [apply is_infinity_false; assumption|exact H].
Qed.

Lemma calculate_preload_binary64 Tt Tr p : (0 <? p)%float = true ->
  calculate_preload Tt Tr p = Ok (preload_binary64 Tt Tr p).
Proof. intro H. exact (calculate_preload_pos Tt Tr p H). Qed.

(** The chain [d -> d * pi / p] is monotone on the extended line. *)
Lemma scale_mono d d' p :
  Bnan d = false -> Bnan d' = false -> (B2Q d <= B2Q d')%Q ->
  Bfinite p = true -> (0 < B2Q p)%Q ->
  Bnan (d * pi_binary64 / p) = false /\ Bnan (d' * pi_binary64 / p) = false /\
  (B2Q (d * pi_binary64 / p) <= B2Q (d' * pi_binary64 / p))%Q.
Proof.
  intros N N' L F P.
  destruct (mul_mono_l d d' pi_binary64 N N' pi_binary64_finite pi_binary64_pos L) as (M & M' & LM).
  exact (div_mono_l _ _ p M M' F P LM).
Qed.

Lemma scale_zero p : Bfinite p = true -> (0 < B2Q p)%Q ->
  (B2Q (zero * pi_binary64 / p) == 0)%Q.
Proof.
  intros F P.
  assert (Z : (zero * pi_binary64)%float = zero) by reflexivity.
  rewrite Z. apply div_zero_l; [exact F|lra].
Qed.

(** A larger removal torque: the preload is not positive. *)
Lemma preload_binary64_nonpositive (Tt Tr p : float) :
  (Tt <? Tr)%float = true -> (0 <? p)%float = true -> is_infinity p = false ->
  (preload_binary64 Tt Tr p <=? 0)%float = true.
Proof.
  intros L Hp Ip. destruct (positive_finite p Hp Ip) as [F P].
  destruct (sub_nonpos Tt Tr L) as [Nd Ld].
  destruct (scale_mono (Tt - Tr) zero p Nd Bnan_zero Ld F P) as (N & _ & LE).
  rewrite (scale_zero p F P) in LE.
  apply leb_B2Q. split; [exact N|split; [reflexivity|exact LE]].
Qed.

(** A larger tightening torque: the preload is not negative. *)
Lemma preload_binary64_nonnegative (Tt Tr p : float) :
  (Tr <? Tt)%float = true -> (0 <? p)%float = true -> is_infinity p = false ->
  (0 <=? preload_binary64 Tt Tr p)%float = true.
Proof.
  intros L Hp Ip. destruct (positive_finite p Hp Ip) as [F P].
  destruct (sub_nonneg Tt Tr L) as [Nd Ld].
  destruct (scale_mono zero (Tt - Tr) p Bnan_zero Nd Ld F P) as (_ & N & LE).
  rewrite (scale_zero p F P) in LE.
  apply leb_B2Q. split; [reflexivity|split; [exact N|exact LE]].
Qed.

(** The preload does not decrease when the computed difference grows. *)
Lemma preload_binary64_monotone_difference (Tt Tr Tt' Tr' p : float) :
  (0 <? p)%float = true -> is_infinity p = false ->
  (Tt - Tr <=? Tt' - Tr')%float = true ->
  (preload_binary64 Tt Tr p <=? preload_binary64 Tt' Tr' p)%float = true.
Proof.
  intros Hp Ip H. destruct (positive_finite p Hp Ip) as [F P].
  apply leb_B2Q in H. destruct H as (Nd & Nd' & H).
  destruct (scale_mono (Tt - Tr) (Tt' - Tr') p Nd Nd' H F P) as (N & N' & LE).
  apply leb_B2Q. split; [assumption|split; assumption].
Qed.

(** Nor when the real difference of finite torques grows. *)
Lemma preload_binary64_monotone_real_difference (Tt Tr Tt' Tr' p : float) :
  (0 <? p)%float = true -> is_infinity p = false ->
  Bfinite Tt = true -> Bfinite Tr = true -> Bfinite Tt' = true -> Bfinite Tr' = true ->
  (B2Q Tt - B2Q Tr <= B2Q Tt' - B2Q Tr')%Q ->
  (preload_binary64 Tt Tr p <=? preload_binary64 Tt' Tr' p)%float = true.
Proof.
  intros Hp Ip F1 F2 F3 F4 H. apply preload_binary64_monotone_difference; try assumption.
  destruct (sub_rounded Tt Tr F1 F2) as [N1 R1].
  destruct (sub_rounded Tt' Tr' F3 F4) as [N2 R2].
  apply leb_B2Q. split; [assumption|split; [assumption|]].
  exact (rounded_mono _ _ _ _ R1 R2 H).
Qed.

(** The preload does not increase when the pitch grows. *)
Lemma preload_binary64_antitone_pitch (Tt Tr p p' : float) :
  (Tr <? Tt)%float = true -> (0 <? p)%float = true -> is_infinity p = false ->
  (p <=? p')%float = true -> is_infinity p' = false ->
  (preload_binary64 Tt Tr p' <=? preload_binary64 Tt Tr p)%float = true.
Proof.
  intros L Hp Ip H Ip'. destruct (positive_finite p Hp Ip) as [F P].
  destruct (sub_nonneg Tt Tr L) as [Nd Ld].
  apply leb_B2Q in H. destruct H as (_ & Np' & H).
  assert (F' : Bfinite p' = true) by (apply is_infinity_false; assumption).
  destruct (mul_mono_l zero (Tt - Tr) pi_binary64 Bnan_zero Nd pi_binary64_finite pi_binary64_pos Ld)
    as (_ & Nc & Pc).
  rewrite (mul_zero_l _ pi_binary64_finite) in Pc.
  destruct (div_antimono_r _ p p' Nc Pc F F' P H) as (N1 & N2 & LE).
  apply leb_B2Q. split; [assumption|split; assumption].
Qed.

(** ** Floats between two powers of two *)

(** Powers of two inside the range are binary64 numbers. *)
Lemma rounded_bpow k : -1074 <= k <= 1023 -> rounded (bpow k) (bpow k).
Proof.
  intro H. pose proof (bpow_pos k) as P.
  assert (M : (bpow k < bpow 1024)%Q) by (apply bpow_lt; lia).
  exists (Z.max (k - 52) (-1074)). rewrite Qabs_pos by lra. split.
  - destruct (Z.max_spec (k - 52) (-1074)) as [[L ->]|[L ->]].
    + left. split; [reflexivity|]. apply bpow_lt. lia.
    + destruct (Z.eq_dec (k - 52) (-1074)) as [Q|N].
      * left. split; [exact Q|]. apply bpow_lt. lia.
      * right. split; [lia|]. replace (k - 52 + 52) with k by lia. split; [lra|].
        apply bpow_lt. lia.
  - left. split; [lra|]. rewrite rnd_bpow by lia. rewrite Q.min_l by lra. reflexivity.
Qed.

Lemma rounded_opp v w : rounded v w -> rounded (- v) (- w).
Proof.
  intros (E & G & H). exists E. rewrite Qabs_opp. split; [exact G|].
  destruct H as [[S W]|[S W]].
  - right. split; [lra|]. rewrite W, Qopp_involutive. reflexivity.
  - left. split; [lra|]. rewrite W, Qopp_involutive. reflexivity.
Qed.

Lemma rounded_ge_bpow v w i : rounded v w -> -1074 <= i <= 1023 ->
  (bpow i <= v)%Q -> (bpow i <= w)%Q.
Proof. intros R Hi H. exact (rounded_mono _ _ _ _ (rounded_bpow i Hi) R H). Qed.

Lemma rounded_le_bpow v w j : rounded v w -> -1074 <= j <= 1023 ->
  (v <= bpow j)%Q -> (w <= bpow j)%Q.
Proof. intros R Hj H. exact (rounded_mono _ _ _ _ R (rounded_bpow j Hj) H). Qed.

Lemma rounded_ge_opp_bpow v w j : rounded v w -> -1074 <= j <= 1023 ->
  (- bpow j <= v)%Q -> (- bpow j <= w)%Q.
Proof.
  intros R Hj H. exact (rounded_mono _ _ _ _ (rounded_opp _ _ (rounded_bpow j Hj)) R H).
Qed.

Lemma bpow_le_inv i j : (bpow i <= bpow j)%Q -> i <= j.
Proof.
  intro H. destruct (Z_le_gt_dec i j) as [L|G]; [exact L|].
  exfalso. assert (bpow j < bpow i)%Q by (apply bpow_lt; lia). lra.
Qed.

Lemma in_range_pos i j f : in_range i j f -> (0 < B2Q f)%Q.
Proof. intros [_ [L _]]. pose proof (bpow_pos i). lra. Qed.

Lemma ltb_of_B2Q a b : Bnan a = false -> Bnan b = false -> (B2Q a < B2Q b)%Q ->
  (a <? b)%float = true.
Proof. intros. apply ltb_B2Q. auto. Qed.

Lemma leb_false_of_B2Q a b : (B2Q b < B2Q a)%Q -> (a <=? b)%float = false.
Proof.
  intro H. destruct (a <=? b)%float eqn:E; [|reflexivity].
  apply leb_B2Q in E. destruct E as (_ & _ & E). lra.
Qed.

Lemma eqb_false_of_B2Q a b : ~ (B2Q a == B2Q b)%Q -> (a =? b)%float = false.
Proof.
  intro H. destruct (a =? b)%float eqn:E; [|reflexivity].
  apply eqb_B2Q in E. destruct E as (_ & _ & E). contradiction.
Qed.

Lemma in_range_guards i j f : in_range i j f ->
  (f <=? 0)%float = false /\ (f =? 0)%float = false /\ is_infinity f = false /\
  (0 <? f)%float = true /\ (f <? infinity)%float = true.
Proof.
  intro R. pose proof (in_range_pos _ _ _ R) as P. destruct R as [F [L U]].
  pose proof (B2Q_finite_bounds f F) as B.
  split; [apply leb_false_of_B2Q; change (B2Q 0%float) with 0%Q; exact P|].
  split; [apply eqb_false_of_B2Q; change (B2Q 0%float) with 0%Q; lra|].
  split; [apply Bfinite_is_infinity, F|].
  split; apply ltb_of_B2Q; try reflexivity; try (apply Bfinite_not_nan, F).
  - change (B2Q 0%float) with 0%Q. exact P.
  - change (B2Q infinity) with (bpow 1024). lra.
Qed.

Lemma in_range_of_rounded i j v f : Bnan f = false -> rounded v (B2Q f) ->
  -1074 <= i <= 1023 -> -1074 <= j <= 1023 -> (bpow i <= v <= bpow j)%Q ->
  in_range i j f.
Proof.
  intros N R Hi Hj [L U].
  pose proof (rounded_ge_bpow _ _ i R Hi L). pose proof (rounded_le_bpow _ _ j R Hj U).
  split; [|split; assumption].
  apply Bfinite_of_bounds; [exact N|].
  pose proof (bpow_pos i). assert (bpow j < bpow 1024)%Q by (apply bpow_lt; lia). lra.
Qed.

Theorem mul_in_range a b i j i' j' :
  in_range i j a -> in_range i' j' b -> -1074 <= i + i' -> j + j' <= 1023 ->
  in_range (i + i') (j + j') (a * b).
Proof.
  intros [Fa [La Ua]] [Fb [Lb Ub]] Hi Hj.
  destruct (mul_rounded a b Fa Fb) as [N R].
  pose proof (bpow_pos i). pose proof (bpow_pos i'). pose proof (bpow_pos j). pose proof (bpow_pos j').
  assert (i <= j) by (apply bpow_le_inv; lra).
  assert (i' <= j') by (apply bpow_le_inv; lra).
  apply (in_range_of_rounded _ _ _ _ N R); [lia|lia|].
  rewrite !bpow_add. split; apply Qmult_le_compat_nonneg; split; lra.
Qed.

Theorem div_in_range a b i j i' j' :
  in_range i j a -> in_range i' j' b -> -1074 <= i - j' -> j - i' <= 1023 ->
  in_range (i - j') (j - i') (a / b).
Proof.
  intros [Fa [La Ua]] [Fb [Lb Ub]] Hi Hj.
  pose proof (bpow_pos i). pose proof (bpow_pos i'). pose proof (bpow_pos j). pose proof (bpow_pos j').
  destruct (div_rounded a b Fa Fb ltac:(lra)) as [N R].
  assert (i <= j) by (apply bpow_le_inv; lra).
  assert (i' <= j') by (apply bpow_le_inv; lra).
  apply (in_range_of_rounded _ _ _ _ N R); [lia|lia|].
  unfold Z.sub. rewrite !bpow_add.
  assert (I1 : (bpow (- j') == / bpow j')%Q) by (unfold bpow; apply Qpower_opp).
  assert (I2 : (bpow (- i') == / bpow i')%Q) by (unfold bpow; apply Qpower_opp).
  rewrite I1, I2. unfold Qdiv.
  assert (0 < / B2Q b)%Q by (apply Qinv_lt_0_compat; lra).
  assert (0 < / bpow j')%Q by (apply Qinv_lt_0_compat; lra).
  assert (/ bpow j' <= / B2Q b)%Q.
  { apply Qle_shift_inv_l; [lra|]. 
    setoid_replace (/ bpow j' * B2Q b)%Q with (B2Q b / bpow j')%Q by (field; lra).
    apply Qle_shift_div_r; lra. }
  assert (/ B2Q b <= / bpow i')%Q.
  { apply Qle_shift_inv_l; [lra|]. 
    setoid_replace (/ B2Q b * bpow i')%Q with (bpow i' / B2Q b)%Q by (field; lra).
    apply Qle_shift_div_r; lra. }
  split; apply Qmult_le_compat_nonneg; split; lra.
Qed.

(** A float between two floats that are powers of two. *)
Lemma in_range_of_leb lo hi f i j :
  (lo <=? f)%float = true -> (f <=? hi)%float = true ->
  (B2Q lo == bpow i)%Q -> (B2Q hi == bpow j)%Q -> j <= 1023 ->
  in_range i j f.
Proof.
  intros L U Hlo Hhi Hj. apply leb_B2Q in L, U.
  destruct L as (_ & N & L). destruct U as (_ & _ & U).
  rewrite Hlo in L. rewrite Hhi in U.
  split; [|split; assumption].
  apply Bfinite_of_bounds; [exact N|].
  pose proof (bpow_pos i). assert (bpow j < bpow 1024)%Q by (apply bpow_lt; lia). lra.
Qed.

Lemma B2Q_abs f : (B2Q (abs f) == Qabs (B2Q f))%Q.
Proof.
  unfold B2Q. rewrite abs_spec. pose proof (bpow_pos 1024).
  destruct (Prim2SF f) as [s|s| |s m e]; cbn [SFabs SF2Q]; try reflexivity.
  - destruct s; cbn [cond_Qopp]; [rewrite Qabs_opp|]; rewrite Qabs_pos; lra.
  - pose proof (finite_pos m e).
    destruct s; cbn [cond_Qopp]; [rewrite Qabs_opp|]; rewrite Qabs_pos; lra.
Qed.

(** ** The safety factor of moderate inputs *)

Ltac qcompute := unfold B2Q; vm_compute; first [discriminate | reflexivity].

Lemma moderate_in_range x : moderate x = true -> in_range (-100) 100 x.
Proof.
  unfold moderate. rewrite andb_true_iff. intros [L U].
  apply (in_range_of_leb _ _ _ _ _ L U); [qcompute|qcompute|lia].
Qed.

Lemma const_in_range (c : float) i j :
  Bfinite c = true -> (bpow i <= B2Q c)%Q -> (B2Q c <= bpow j)%Q -> in_range i j c.
Proof. intros F L U. split; [exact F|split; assumption]. Qed.

Lemma dec_9382_in_range : in_range (-1) 0 (dec 9382 4 : float).
Proof. apply const_in_range; qcompute. Qed.

Lemma quarter_pi_in_range : in_range (-1) 0 (pi_binary64 / 4)%float.
Proof. apply const_in_range; qcompute. Qed.

Lemma sq_bounds x l h : (0 <= l)%Q -> (l <= Qabs x <= h)%Q -> (l * l <= x * x <= h * h)%Q.
Proof.
  intros Hl. apply Qabs_case; intros Hx [L U]; split; nra.
Qed.

(** C5, as the code has it.  For a torque, a diameter, a nut factor, a
    pitch and a yield strength between 2^-100 and 2^100, and an effective
    diameter [d - 0.9382 * p] of magnitude at least 2^-100, the three steps
    in a row return a safety factor that is positive and finite, no error
    raised on the way: every intermediate float stays between 2^-601 and
    2^600, inside the normal range. *)
Theorem safety_factor_from_torque_binary64 (torque d K p yield_strength : float) :
  moderate torque = true -> moderate d = true -> moderate K = true ->
  moderate p = true -> moderate yield_strength = true ->
  (0x1p-100 <=? abs (d - 0.9382 * p))%float = true ->
  exists sf : float,
    safety_factor_from_torque torque d K p yield_strength = Ok sf /\
    (0 <? sf)%float = true /\ (sf <? infinity)%float = true.
Proof.
  intros HT Hd HK Hp Hys He.
  change 0.9382%float with (dec 9382 4 : float) in He.
  apply moderate_in_range in HT, Hd, HK, Hp, Hys.
  (* the effective diameter *)
  assert (Hcp : in_range (-101) 100 (dec 9382 4 * p))
    by exact (mul_in_range _ _ _ _ _ _ dec_9382_in_range Hp ltac:(lia) ltac:(lia)).
  set (cp := (dec 9382 4 * p)%float) in *.
  set (e := (d - cp)%float) in *.
  assert (Fe : Bfinite e = true /\ (bpow (-100) <= Qabs (B2Q e) <= bpow 100)%Q).
  { destruct Hd as [Fd [Ld Ud]]. destruct Hcp as [Fc [Lc Uc]].
    destruct (sub_rounded d cp Fd Fc) as [N R]. fold e in N, R.
    pose proof (bpow_pos (-100)). pose proof (bpow_pos (-101)).
    pose proof (rounded_le_bpow _ _ 100 R ltac:(lia) ltac:(lra)) as U.
    pose proof (rounded_ge_opp_bpow _ _ 100 R ltac:(lia) ltac:(lra)) as L.
    assert (bpow 100 < bpow 1024)%Q by (apply bpow_lt; lia).
    split; [apply Bfinite_of_bounds; [exact N|lra]|].
    apply leb_B2Q in He. destruct He as (_ & _ & He).
    rewrite B2Q_abs in He.
    assert (Q : (B2Q 0x1p-100%float == bpow (-100))%Q) by qcompute.
    rewrite Q in He. split; [exact He|]. apply Qabs_case; intro; lra. }
  destruct Fe as [Fe Be].
  (* its square and the tensile area *)
  assert (Hr : in_range (-200) 200 (e * e)).
  { destruct (mul_rounded e e Fe Fe) as [N R].
    apply (in_range_of_rounded _ _ _ _ N R); [lia|lia|].
    change (-200) with (-100 + -100). change 200 with (100 + 100). rewrite !bpow_add.
    apply sq_bounds; [apply Qlt_le_weak, bpow_pos|exact Be]. }
  assert (Harea : in_range (-201) 200 (pi_binary64 / 4 * (e * e)))
    by exact (mul_in_range _ _ _ _ _ _ quarter_pi_in_range Hr ltac:(lia) ltac:(lia)).
  (* the preload, the stress and the safety factor *)
  assert (Hkd : in_range (-200) 200 (K * d))
    by exact (mul_in_range _ _ _ _ _ _ HK Hd ltac:(lia) ltac:(lia)).
  assert (Hpre : in_range (-300) 300 (torque / (K * d)))
    by exact (div_in_range _ _ _ _ _ _ HT Hkd ltac:(lia) ltac:(lia)).
  assert (Hst : in_range (-500) 501 (torque / (K * d) / (pi_binary64 / 4 * (e * e))))
    by exact (div_in_range _ _ _ _ _ _ Hpre Harea ltac:(lia) ltac:(lia)).
  assert (Hsf : in_range (-601) 600 (yield_strength / (torque / (K * d) / (pi_binary64 / 4 * (e * e)))))
    by exact (div_in_range _ _ _ _ _ _ Hys Hst ltac:(lia) ltac:(lia)).
  exists (yield_strength / (torque / (K * d) / (pi_binary64 / 4 * (e * e))))%float.
  destruct (in_range_guards _ _ _ Hsf) as (_ & _ & _ & G1 & G2).
  split; [|split; assumption].
  destruct (in_range_guards _ _ _ Hd) as (Gd & _).
  destruct (in_range_guards _ _ _ Hp) as (Gp & _).
  destruct (in_range_guards _ _ _ HK) as (GK & _).
  destruct (in_range_guards _ _ _ Hys) as (Gys & _).
  destruct (in_range_guards _ _ _ Hr) as (_ & _ & Gr & _).
  destruct (in_range_guards _ _ _ Harea) as (Ga & Ga0 & _).
  destruct (in_range_guards _ _ _ Hkd) as (_ & Gkd & _).
  destruct (in_range_guards _ _ _ Hst) as (Gs & Gs0 & _).
  pose proof (Bfinite_is_infinity e Fe) as Ge.
  unfold safety_factor_from_torque, calculate_tensile_area, estimate_preload_from_torque,
    calculate_stress_from_preload, calculate_safety_factor, py_div, py_pow2.
  cbn [fleb fltb feqb fmul fsub fadd fquo is_inf of_Z math_pi binary64].
  change (float_of_Z 0) with 0%float. change (float_of_Z 4) with 4%float.
  fold cp. fold e.
  rewrite Gd, Gp. change (4 =? 0)%float with false. cbn [bind].
  rewrite Ge, Gr. cbn [bind].
  rewrite GK, Gkd. cbn [bind].
  rewrite Ga, Ga0. cbn [bind].
  rewrite Gs, Gys, Gs0. reflexivity.
Qed.

(** ** Rounding errors *)

(** The result of a rounding that does not overflow, and its error. *)
Lemma rounded_finite_inv v w : rounded v w -> (Qabs w < bpow 1024)%Q ->
  exists E, good_exp (Qabs v) E /\ (Qabs w == rnd E (Qabs v))%Q /\
            (Qabs (w - v) == Qabs (rnd E (Qabs v) - Qabs v))%Q.
Proof.
  intros (E & G & H) F. exists E. split; [exact G|].
  destruct H as [[S W]|[S W]].
  - pose proof (rnd_nonneg E v S) as P.
    destruct (Q.min_spec (rnd E v) (bpow 1024)) as [[L Q]|[L Q]]; rewrite Q in W.
    + rewrite (Qabs_pos v S). rewrite W. split; [apply Qabs_pos, P|reflexivity].
    + exfalso. rewrite W in F. rewrite Qabs_pos in F; [lra|]. apply Qlt_le_weak, bpow_pos.
  - assert (S' : (0 <= - v)%Q) by lra.
    pose proof (rnd_nonneg E (- v)%Q S') as P.
    destruct (Q.min_spec (rnd E (- v)) (bpow 1024)) as [[L Q]|[L Q]]; rewrite Q in W.
    + rewrite (Qabs_neg v S). rewrite W. split.
      * rewrite Qabs_opp. apply Qabs_pos, P.
      * setoid_replace (- rnd E (- v) - v)%Q with (- (rnd E (- v) - - v))%Q by ring.
        apply Qabs_opp.
    + exfalso. rewrite W in F. rewrite Qabs_opp, Qabs_pos in F; [lra|].
      apply Qlt_le_weak, bpow_pos.
Qed.

Theorem rounded_error v w : rounded v w -> (Qabs w < bpow 1024)%Q ->
  (Qabs (w - v) <= Qabs v * bpow (-53) + bpow (-1075))%Q.
Proof.
  intros R F. destruct (rounded_finite_inv v w R F) as (E & G & _ & D).
  rewrite D. pose proof (rnd_error E (Qabs v)) as Er.
  pose proof (Qabs_nonneg v) as Pv. pose proof (bpow_pos (-53)). pose proof (bpow_pos (-1075)).
  assert (0 <= Qabs v * bpow (-53))%Q by (apply Qmult_le_0_compat; lra).
  destruct (Z.eq_dec E (-1074)) as [->|N].
  - assert (Q : (bpow (-1074) == 2 * bpow (-1075))%Q) by (rewrite <- bpow_succ; reflexivity).
    lra.
  - assert (HE : -1074 < E) by (destruct G as [[? _]|[? _]]; lia).
    pose proof (rnd_relative_error E (Qabs v) G HE). lra.
Qed.

(** In the normal range the error is relative. *)
Theorem rounded_relative_error v w : rounded v w -> (Qabs w < bpow 1024)%Q ->
  (bpow (-1022) <= Qabs v)%Q -> (Qabs (w - v) <= Qabs v * bpow (-53))%Q.
Proof.
  intros R F L. destruct (rounded_finite_inv v w R F) as (E & G & _ & D).
  rewrite D. pose proof (rnd_error E (Qabs v)) as Er.
  destruct (Z.eq_dec E (-1074)) as [->|N].
  - assert (Q : (bpow (-1022) * bpow (-53) == bpow (-1075))%Q) by (rewrite <- bpow_add; reflexivity).
    assert (Q' : (bpow (-1074) == 2 * bpow (-1075))%Q) by (rewrite <- bpow_succ; reflexivity).
    assert (bpow (-1022) * bpow (-53) <= Qabs v * bpow (-53))%Q
      by (apply Qmult_le_compat_r; [exact L|apply Qlt_le_weak, bpow_pos]).
    lra.
  - assert (HE : -1074 < E) by (destruct G as [[? _]|[? _]]; lia).
    exact (rnd_relative_error E (Qabs v) G HE).
Qed.

Lemma grid_SF2Q x : valid_binary x = true -> SFfinite x = true -> grid (SF2Q x).
Proof.
  intros V F. destruct x as [s|s| |s m e]; try discriminate F.
  - exists 0. cbn. ring.
  - cbn [valid_binary] in V. apply bounded_facts in V.
    exists ((if s then -1 else 1) * (Zpos m * 2 ^ (e + 1074))).
    cbn [SF2Q]. rewrite !inject_Z_mult, <- (bpow_Z (e + 1074)) by lia.
    rewrite <- !Qmult_assoc, <- bpow_add. replace (e + 1074 + -1074) with e by lia.
    destruct s; cbn; ring.
Qed.

Lemma grid_B2Q f : Bfinite f = true -> grid (B2Q f).
Proof. intro F. apply grid_SF2Q; [apply Prim2SF_valid|exact F]. Qed.

Lemma grid_plus v w : grid v -> grid w -> grid (v + w).
Proof.
  intros [z Hz] [z' Hz']. exists (z + z'). rewrite inject_Z_plus, Hz, Hz'. ring.
Qed.

Lemma grid_opp v : grid v -> grid (- v).
Proof. intros [z Hz]. exists (- z). rewrite inject_Z_opp, Hz. ring. Qed.

Lemma grid_abs v : grid v -> grid (Qabs v).
Proof. intro G. apply Qabs_case; intro; [exact G|apply grid_opp, G]. Qed.

#[global] Instance grid_comp : Proper (Qeq ==> iff) grid.
Proof. intros v w H. unfold grid. split; intros [z Hz]; exists z; [rewrite <- H|rewrite H]; exact Hz. Qed.

Lemma rnd_grid v : grid v -> (rnd (-1074) v == v)%Q.
Proof.
  intros [z Hz]. unfold rnd. pose proof (bpow_pos (-1074)).
  setoid_replace (v / bpow (-1074))%Q with (inject_Z z) by (rewrite Hz; field; lra).
  rewrite RNE_Z, Hz. reflexivity.
Qed.

Theorem rounded_grid_error v w : rounded v w -> (Qabs w < bpow 1024)%Q -> grid v ->
  (Qabs (w - v) <= Qabs v * bpow (-53))%Q.
Proof.
  intros R F Gr. destruct (rounded_finite_inv v w R F) as (E & G & _ & D).
  rewrite D.
  destruct (Z.eq_dec E (-1074)) as [->|N].
  - rewrite (rnd_grid _ (grid_abs _ Gr)).
    setoid_replace (Qabs v - Qabs v)%Q with 0%Q by ring. rewrite Qabs_pos by lra.
    apply Qmult_le_0_compat; [apply Qabs_nonneg|apply Qlt_le_weak, bpow_pos].
  - assert (HE : -1074 < E) by (destruct G as [[? _]|[? _]]; lia).
    exact (rnd_relative_error E (Qabs v) G HE).
Qed.

Lemma SF2Q_le_max x : valid_binary x = true -> SFfinite x = true ->
  (Qabs (SF2Q x) <= max_value)%Q.
Proof.
  intros V F. destruct x as [s|s| |s m e]; try discriminate F.
  - cbn. discriminate.
  - cbn [valid_binary] in V. pose proof (bounded_facts m e V) as (He & Hd & _).
    pose proof (digits2_pos_bounds m) as [_ U]. pose proof (finite_pos m e) as P.
    assert (Zpos m <= 2 ^ 53 - 1).
    { assert (2 ^ Zpos (digits2_pos m) <= 2 ^ 53) by (apply Z.pow_le_mono_r; lia). lia. }
    cbn [SF2Q]. assert (A : (Qabs (cond_Qopp s (inject_Z (Zpos m) * bpow e))
                             == inject_Z (Zpos m) * bpow e)%Q).
    { destruct s; cbn [cond_Qopp]; [rewrite Qabs_opp|]; apply Qabs_pos; lra. }
    rewrite A. unfold max_value, Fval.
    apply Qmult_le_compat_nonneg.
    + split; [change 0%Q with (inject_Z 0); rewrite <- Zle_Qle; lia|].
      rewrite <- Zle_Qle. change (Zpos (2 ^ 53 - 1)) with (2 ^ 53 - 1). lia.
    + split; [apply Qlt_le_weak, bpow_pos|apply bpow_le; lia].
Qed.

Lemma rounded_max : rounded max_value max_value.
Proof.
  exact (rounded_exact (S754_finite false (2 ^ 53 - 1) 971) eq_refl eq_refl).
Qed.

Lemma max_value_lt : (max_value < bpow 1024)%Q.
Proof. exact (bounded_lt_max (2 ^ 53 - 1) 971 eq_refl). Qed.

Lemma rounded_le_max v w : rounded v w -> (Qabs v <= max_value)%Q -> (Qabs w <= max_value)%Q.
Proof.
  intros R H. apply Qabs_Qle_condition in H. destruct H as [L U].
  apply Qabs_Qle_condition. split.
  - exact (rounded_mono _ _ _ _ (rounded_opp _ _ rounded_max) R L).
  - exact (rounded_mono _ _ _ _ R rounded_max U).
Qed.

Lemma rounded_half_max : rounded (max_value * (1 # 2)) (max_value * (1 # 2)).
Proof.
  assert (Q : (max_value * (1 # 2) == SF2Q (S754_finite false (2 ^ 53 - 1) 970))%Q).
  { unfold max_value, Fval. cbn [SF2Q cond_Qopp]. change 971 with (970 + 1).
    rewrite bpow_succ. ring. }
  rewrite Q. exact (rounded_exact (S754_finite false (2 ^ 53 - 1) 970) eq_refl eq_refl).
Qed.

Lemma rounded_le_half_max v w : rounded v w ->
  (Qabs v <= max_value * (1 # 2))%Q -> (Qabs w <= max_value * (1 # 2))%Q.
Proof.
  intros R H. apply Qabs_Qle_condition in H. destruct H as [L U].
  apply Qabs_Qle_condition. split.
  - exact (rounded_mono _ _ _ _ (rounded_opp _ _ rounded_half_max) R L).
  - exact (rounded_mono _ _ _ _ R rounded_half_max U).
Qed.

Lemma Bfinite_of_le_max f : Bnan f = false -> (Qabs (B2Q f) <= max_value)%Q -> Bfinite f = true.
Proof.
  intros N H. apply Bfinite_of_bounds; [exact N|].
  pose proof max_value_lt. apply Qabs_Qle_condition in H. lra.
Qed.

Lemma is_finite_Bfinite f : is_finite f = true <-> Bfinite f = true.
Proof.
  unfold is_finite, is_nan, is_infinity, Bfinite.
  rewrite !eqb_spec, abs_spec. change (Prim2SF infinity) with (S754_infinity false).
  destruct (Prim2SF f) as [s|s| |s m e]; cbn.
  - tauto.
  - destruct s; cbn; split; discriminate.
  - split; discriminate.
  - unfold SFeqb, SFcompare. destruct s; rewrite Z.compare_refl, Pos.compare_cont_refl; cbn; tauto.
Qed.

(** ** The two torque components *)

Lemma B2Q_two : (B2Q 2%float == 2)%Q.
Proof. vm_compute. reflexivity. Qed.

Lemma abs_bound v c : (- c <= v <= c)%Q -> (Qabs v <= c)%Q.
Proof. intro H. apply Qabs_Qle_condition. exact H. Qed.

Lemma abs_bound_inv v c : (Qabs v <= c)%Q -> (- c <= v <= c)%Q.
Proof. intro H. apply Qabs_Qle_condition. exact H. Qed.

(** Halving a finite float: the quotient by the literal 2. *)
Lemma half_rounded a : Bfinite a = true ->
  Bfinite (a / 2) = true /\ rounded (B2Q a * (1 # 2)) (B2Q (a / 2)) /\
  (Qabs (B2Q (a / 2)) <= max_value * (1 # 2))%Q.
Proof.
  intro F. destruct (div_rounded a 2%float F eq_refl) as [N R].
  { rewrite B2Q_two. discriminate. }
  assert (R' : rounded (B2Q a * (1 # 2)) (B2Q (a / 2))).
  { revert R. apply rounded_comp; [|reflexivity]. rewrite B2Q_two. field. }
  pose proof (SF2Q_le_max _ (Prim2SF_valid a) F) as M. fold (B2Q a) in M.
  assert (H : (Qabs (B2Q (a / 2)) <= max_value * (1 # 2))%Q).
  { apply (rounded_le_half_max _ _ R'). apply abs_bound. apply abs_bound_inv in M. lra. }
  split; [|split; assumption].
  apply Bfinite_of_le_max; [exact N|].
  assert (0 < max_value)%Q by apply finite_pos. lra.
Qed.

Lemma finite_abs_lt f : Bfinite f = true -> (Qabs (B2Q f) < bpow 1024)%Q.
Proof.
  intro F. pose proof (B2Q_finite_bounds f F). apply Qabs_case; intro; lra.
Qed.

Lemma sum_error_arith (x y a b s l r eta : Q) :
  (0 < eta)%Q ->
  (Qabs (a - (x - y)) <= Qabs (x - y) * (1 # 9007199254740992))%Q ->
  (Qabs (b - (x + y)) <= Qabs (x + y) * (1 # 9007199254740992))%Q ->
  (Qabs (s - a * (1 # 2)) <= Qabs (a * (1 # 2)) * (1 # 9007199254740992) + eta)%Q ->
  (Qabs (l - b * (1 # 2)) <= Qabs (b * (1 # 2)) * (1 # 9007199254740992) + eta)%Q ->
  (Qabs (r - (s + l)) <= Qabs (s + l) * (1 # 9007199254740992))%Q ->
  (Qabs (r - x) <= (4 # 9007199254740992) * (Qabs x + Qabs y) + 4 * eta)%Q.
Proof.
  intros Heta Ea Eb Es El Er.
  pose proof (Qle_Qabs x) as X1. pose proof (Qle_Qabs (- x)) as X2. rewrite Qabs_opp in X2.
  pose proof (Qle_Qabs y) as Y1. pose proof (Qle_Qabs (- y)) as Y2. rewrite Qabs_opp in Y2.
  set (M := (Qabs x + Qabs y)%Q) in *.
  assert (HM : (M == Qabs x + Qabs y)%Q) by reflexivity. clearbody M.
  assert (HA : (Qabs (x - y) <= M)%Q) by (apply abs_bound; lra).
  assert (HB : (Qabs (x + y) <= M)%Q) by (apply abs_bound; lra).
  pose proof (abs_bound_inv _ _ HA) as HA'. pose proof (abs_bound_inv _ _ HB) as HB'.
  assert (Da : (Qabs (a - (x - y)) <= M * (1 # 9007199254740992))%Q) by lra.
  assert (Db : (Qabs (b - (x + y)) <= M * (1 # 9007199254740992))%Q) by lra.
  apply abs_bound_inv in Da, Db.
  assert (Ha : (Qabs (a * (1 # 2)) <= M * (9007199254740993 # 18014398509481984))%Q)
    by (apply abs_bound; lra).
  assert (Hb : (Qabs (b * (1 # 2)) <= M * (9007199254740993 # 18014398509481984))%Q)
    by (apply abs_bound; lra).
  assert (Ds : (Qabs (s - a * (1 # 2))
                <= M * (9007199254740993 # 18014398509481984) * (1 # 9007199254740992) + eta)%Q) by lra.
  assert (Dl : (Qabs (l - b * (1 # 2))
                <= M * (9007199254740993 # 18014398509481984) * (1 # 9007199254740992) + eta)%Q) by lra.
  apply abs_bound_inv in Ds, Dl.
  assert (Hsl : (Qabs (s + l) <= M * (10 # 9) + 2 * eta)%Q).
  { apply abs_bound. lra. }
  assert (Dr : (Qabs (r - (s + l)) <= (M * (10 # 9) + 2 * eta) * (1 # 9007199254740992))%Q) by lra.
  apply abs_bound_inv in Dr.
  apply abs_bound. lra.
Qed.

(** C8, as the code has it.  For finite [Tt] and [Tr] whose difference and
    sum do not overflow, both calls return, and their float sum is finite
    and differs from [Tt] by at most 2^-51 (|Tt| + |Tr|) + 2^-1073: a few
    units of rounding error relative to the larger of the two torques, not
    to [Tt]. *)
Theorem torque_components_sum_binary64 (Tt Tr : float) :
  is_finite Tt = true -> is_finite Tr = true ->
  is_finite (Tt - Tr) = true -> is_finite (Tt + Tr) = true ->
  exists sl pl : float,
    calculate_self_loosening Tt Tr = Ok sl /\
    calculate_primary_locking Tt Tr = Ok pl /\
    is_finite (sl + pl) = true /\
    (Qabs (B2Q (sl + pl) - B2Q Tt)
     <= bpow (-51) * (Qabs (B2Q Tt) + Qabs (B2Q Tr)) + bpow (-1073))%Q.
Proof.
  rewrite !is_finite_Bfinite. intros Ft Fr Fa Fb.
  exists ((Tt - Tr) / 2)%float, ((Tt + Tr) / 2)%float.
  split; [reflexivity|]. split; [reflexivity|].
  destruct (sub_rounded Tt Tr Ft Fr) as [_ Ra].
  destruct (add_rounded Tt Tr Ft Fr) as [_ Rb].
  pose proof (rounded_grid_error _ _ Ra (finite_abs_lt _ Fa)
                (grid_plus _ _ (grid_B2Q _ Ft) (grid_opp _ (grid_B2Q _ Fr)))) as Ea.
  pose proof (rounded_grid_error _ _ Rb (finite_abs_lt _ Fb)
                (grid_plus _ _ (grid_B2Q _ Ft) (grid_B2Q _ Fr))) as Eb.
  destruct (half_rounded _ Fa) as (Fs & Rs & Ms).
  destruct (half_rounded _ Fb) as (Fl & Rl & Ml).
  pose proof (rounded_error _ _ Rs (finite_abs_lt _ Fs)) as Es.
  pose proof (rounded_error _ _ Rl (finite_abs_lt _ Fl)) as El.
  destruct (add_rounded _ _ Fs Fl) as [Nr Rr].
  assert (Mr : (Qabs (B2Q ((Tt - Tr) / 2 + (Tt + Tr) / 2)) <= max_value)%Q).
  { apply (rounded_le_max _ _ Rr). apply abs_bound.
    apply abs_bound_inv in Ms, Ml. lra. }
  assert (Fsum : Bfinite ((Tt - Tr) / 2 + (Tt + Tr) / 2) = true)
    by (apply Bfinite_of_le_max; assumption).
  split; [apply is_finite_Bfinite, Fsum|].
  pose proof (rounded_grid_error _ _ Rr (finite_abs_lt _ Fsum)
                (grid_plus _ _ (grid_B2Q _ Fs) (grid_B2Q _ Fl))) as Er.
  assert (U : (bpow (-53) == 1 # 9007199254740992)%Q) by reflexivity.
  assert (U4 : (bpow (-51) == 4 # 9007199254740992)%Q) by reflexivity.
  assert (H4 : (bpow (-1073) == 4 * bpow (-1075))%Q).
  { change (-1073) with (-1075 + 1 + 1). rewrite !bpow_succ. ring. }
  rewrite U in Ea, Eb, Es, El, Er. rewrite U4, H4.
  exact (sum_error_arith _ _ _ _ _ _ _ _ (bpow_pos (-1075)) Ea Eb Es El Er).
Qed.

(** ** Relative errors along a computation *)

Lemma sand_weaken l h l' h' v w : sand l h v w -> (0 <= v)%Q ->
  (l' <= l)%Q -> (h <= h')%Q -> sand l' h' v w.
Proof.
  intros [L U] Hv Hl Hh. split.
  - apply Qle_trans with (2 := L). apply Qmult_le_compat_r; assumption.
  - apply Qle_trans with (1 := U). apply Qmult_le_compat_r; assumption.
Qed.

Lemma sand_mul l1 h1 l2 h2 a a' b b' :
  sand l1 h1 a a' -> sand l2 h2 b b' -> (0 <= l1)%Q -> (0 <= l2)%Q -> (0 <= a)%Q -> (0 <= b)%Q ->
  sand (l1 * l2) (h1 * h2) (a * b) (a' * b').
Proof.
  intros [L1 U1] [L2 U2] P1 P2 Pa Pb.
  assert (0 <= l1 * a)%Q by (apply Qmult_le_0_compat; assumption).
  assert (0 <= l2 * b)%Q by (apply Qmult_le_0_compat; assumption).
  split.
  - setoid_replace (l1 * l2 * (a * b))%Q with ((l1 * a) * (l2 * b))%Q by ring.
    apply Qmult_le_compat_nonneg; split; assumption.
  - setoid_replace (h1 * h2 * (a * b))%Q with ((h1 * a) * (h2 * b))%Q by ring.
    apply Qmult_le_compat_nonneg; split; lra.
Qed.

Lemma sand_inv l h b b' : sand l h b b' -> (0 < l)%Q -> (0 < b)%Q ->
  sand (/ h) (/ l) (/ b) (/ b').
Proof.
  intros [L U] Pl Pb.
  assert (Plb : (0 < l * b)%Q) by (apply Qmult_lt_0_compat; assumption).
  assert (Pb' : (0 < b')%Q) by lra.
  assert (Ph : (0 < h)%Q).
  { destruct (Qlt_le_dec 0 h) as [G|G]; [exact G|]. exfalso.
    assert (h * b <= 0)%Q by (rewrite <- (Qmult_0_l b); apply Qmult_le_compat_r; lra). lra. }
  assert (Phb : (0 < h * b)%Q) by (apply Qmult_lt_0_compat; assumption).
  split.
  - setoid_replace (/ h * / b)%Q with (/ (h * b))%Q by (field; split; lra).
    apply Qle_shift_inv_l; [exact Pb'|].
    setoid_replace (/ (h * b) * b')%Q with (b' / (h * b))%Q by (field; split; lra).
    apply Qle_shift_div_r; [exact Phb|]. lra.
  - setoid_replace (/ l * / b)%Q with (/ (l * b))%Q by (field; split; lra).
    apply Qle_shift_inv_l; [exact Plb|].
    setoid_replace (/ b' * (l * b))%Q with ((l * b) / b')%Q by (field; lra).
    apply Qle_shift_div_r; [exact Pb'|]. lra.
Qed.

Lemma sand_div l1 h1 l2 h2 a a' b b' :
  sand l1 h1 a a' -> sand l2 h2 b b' -> (0 <= l1)%Q -> (0 < l2)%Q -> (0 <= a)%Q -> (0 < b)%Q ->
  sand (l1 * / h2) (h1 * / l2) (a / b) (a' / b').
Proof.
  intros S1 S2 P1 P2 Pa Pb.
  pose proof (sand_inv _ _ _ _ S2 P2 Pb) as S3.
  unfold Qdiv. apply sand_mul; try assumption.
  - destruct S2 as [L U]. apply Qlt_le_weak, Qinv_lt_0_compat.
    destruct (Qlt_le_dec 0 h2) as [G|G]; [exact G|]. exfalso.
    assert (h2 * b <= 0)%Q by (rewrite <- (Qmult_0_l b); apply Qmult_le_compat_r; lra).
    assert (0 < l2 * b)%Q by (apply Qmult_lt_0_compat; assumption). lra.
  - apply Qlt_le_weak, Qinv_lt_0_compat, Pb.
Qed.

Lemma sand_trans l1 h1 l2 h2 a b c :
  sand l1 h1 a b -> sand l2 h2 b c -> (0 <= l2)%Q -> (0 <= h2)%Q ->
  sand (l2 * l1) (h2 * h1) a c.
Proof.
  intros [L1 U1] [L2 U2] P2 Ph2.
  split.
  - apply Qle_trans with (2 := L2). rewrite <- Qmult_assoc.
    rewrite !(Qmult_comm l2). apply Qmult_le_compat_r; assumption.
  - apply Qle_trans with (1 := U2). rewrite <- Qmult_assoc.
    rewrite !(Qmult_comm h2). apply Qmult_le_compat_r; assumption.
Qed.

Ltac qle := vm_compute; discriminate.

Lemma lo_hi_0 : (lo 0 == 1)%Q /\ (hi 0 == 1)%Q.
Proof. split; reflexivity. Qed.

Lemma track_exact f i j : in_range i j f -> track 0 (B2Q f) f i j.
Proof.
  intro R. split; [exact R|]. split; [exact (in_range_pos _ _ _ R)|].
  unfold sand. destruct lo_hi_0 as [-> ->]. lra.
Qed.

Lemma round_sand v f i j : Bnan f = false -> rounded v (B2Q f) ->
  -1022 <= i -> j <= 1023 -> (bpow i <= v <= bpow j)%Q ->
  in_range i j f /\ sand (lo 1) (hi 1) v (B2Q f).
Proof.
  intros N R Hi Hj [L U].
  assert (i <= j) by (apply bpow_le_inv; lra).
  assert (IR : in_range i j f) by (apply (in_range_of_rounded _ _ v); try assumption; try lia; split; assumption).
  split; [exact IR|].
  destruct IR as [F _].
  pose proof (bpow_pos i). assert (bpow (-1022) <= bpow i)%Q by (apply bpow_le; lia).
  pose proof (rounded_relative_error _ _ R (finite_abs_lt f F)) as E.
  rewrite (Qabs_pos v) in E by lra. specialize (E ltac:(lra)).
  assert (Q : (bpow (-53) == 1 # 9007199254740992)%Q) by reflexivity.
  rewrite Q in E. apply Qabs_Qle_condition in E.
  unfold sand, lo, hi. change (inject_Z 1) with 1%Q. lra.
Qed.

Lemma lo_nonneg k : 0 <= k <= 1000 -> (0 < lo k)%Q.
Proof.
  intros [H1 H2]. unfold lo.
  assert (inject_Z k <= inject_Z 1000)%Q by (rewrite <- Zle_Qle; exact H2).
  change (inject_Z 1000) with 1000%Q in H. lra.
Qed.

Theorem track_mul k1 k2 k v1 v2 a b i j i' j' :
  track k1 v1 a i j -> track k2 v2 b i' j' ->
  -1022 <= i + i' -> j + j' <= 1023 ->
  0 <= k1 <= 1000 -> 0 <= k2 <= 1000 ->
  (lo k <= lo 1 * (lo k1 * lo k2))%Q -> (hi 1 * (hi k1 * hi k2) <= hi k)%Q ->
  track k (v1 * v2) (a * b) (i + i') (j + j').
Proof.
  intros (Ra & P1 & S1) (Rb & P2 & S2) Hi Hj K1 K2 Hl Hh.
  pose proof (mul_in_range _ _ _ _ _ _ Ra Rb ltac:(lia) Hj) as [F [L U]].
  destruct Ra as [Fa Ba], Rb as [Fb Bb].
  destruct (mul_rounded a b Fa Fb) as [N R].
  pose proof (bpow_pos i). pose proof (bpow_pos i').
  destruct (round_sand _ _ (i + i') (j + j') N R Hi Hj) as [IR S].
  { assert (i <= j) by (apply bpow_le_inv; lra).
    assert (i' <= j') by (apply bpow_le_inv; lra).
    rewrite !bpow_add. split; apply Qmult_le_compat_nonneg; split; lra. }
  split; [exact IR|]. split; [apply Qmult_lt_0_compat; assumption|].
  pose proof (lo_nonneg k1 K1). pose proof (lo_nonneg k2 K2).
  pose proof (sand_mul _ _ _ _ _ _ _ _ S1 S2 ltac:(lra) ltac:(lra) ltac:(lra) ltac:(lra)) as S12.
  pose proof (sand_trans _ _ _ _ _ _ _ S12 S) as S3.
  assert (0 <= lo 1)%Q by (apply Qlt_le_weak, lo_nonneg; lia).
  assert (0 <= hi 1)%Q by (vm_compute; discriminate).
  apply (sand_weaken _ _ _ _ _ _ (S3 ltac:(assumption) ltac:(assumption))); try assumption.
  apply Qlt_le_weak, Qmult_lt_0_compat; assumption.
Qed.

Theorem track_div k1 k2 k v1 v2 a b i j i' j' :
  track k1 v1 a i j -> track k2 v2 b i' j' ->
  -1022 <= i - j' -> j - i' <= 1023 ->
  0 <= k1 <= 1000 -> 0 <= k2 <= 1000 ->
  (lo k <= lo 1 * (lo k1 * / hi k2))%Q -> (hi 1 * (hi k1 * / lo k2) <= hi k)%Q ->
  track k (v1 / v2) (a / b) (i - j') (j - i').
Proof.
  intros (Ra & P1 & S1) (Rb & P2 & S2) Hi Hj K1 K2 Hl Hh.
  pose proof (div_in_range _ _ _ _ _ _ Ra Rb ltac:(lia) Hj) as IR0.
  pose proof (in_range_pos _ _ _ Rb) as Pb.
  destruct Ra as [Fa Ba], Rb as [Fb Bb].
  destruct (div_rounded a b Fa Fb ltac:(lra)) as [N R].
  pose proof (bpow_pos i). pose proof (bpow_pos i').
  destruct (round_sand _ _ (i - j') (j - i') N R Hi Hj) as [IR S].
  { (* the exact quotient lies in the range, as in [div_in_range] *)
    assert (i <= j) by (apply bpow_le_inv; lra).
    assert (i' <= j') by (apply bpow_le_inv; lra).
    unfold Z.sub. rewrite !bpow_add.
    assert (I1 : (bpow (- j') == / bpow j')%Q) by (unfold bpow; apply Qpower_opp).
    assert (I2 : (bpow (- i') == / bpow i')%Q) by (unfold bpow; apply Qpower_opp).
    rewrite I1, I2. unfold Qdiv. pose proof (bpow_pos j').
    assert (0 < / B2Q b)%Q by (apply Qinv_lt_0_compat; lra).
    assert (0 < / bpow j')%Q by (apply Qinv_lt_0_compat; lra).
    assert (/ bpow j' <= / B2Q b)%Q.
    { apply Qle_shift_inv_l; [lra|].
      setoid_replace (/ bpow j' * B2Q b)%Q with (B2Q b / bpow j')%Q by (field; lra).
      apply Qle_shift_div_r; lra. }
    assert (/ B2Q b <= / bpow i')%Q.
    { apply Qle_shift_inv_l; [lra|].
      setoid_replace (/ B2Q b * bpow i')%Q with (bpow i' / B2Q b)%Q by (field; lra).
      apply Qle_shift_div_r; lra. }
    split; apply Qmult_le_compat_nonneg; split; lra. }
  split; [exact IR|]. split; [apply Qlt_shift_div_l; lra|].
  pose proof (lo_nonneg k1 K1). pose proof (lo_nonneg k2 K2).
  pose proof (sand_div _ _ _ _ _ _ _ _ S1 S2 ltac:(lra) ltac:(lra) ltac:(lra) ltac:(lra)) as S12.
  pose proof (sand_trans _ _ _ _ _ _ _ S12 S) as S3.
  assert (0 <= lo 1)%Q by (apply Qlt_le_weak, lo_nonneg; lia).
  assert (0 <= hi 1)%Q by (vm_compute; discriminate).
  apply (sand_weaken _ _ _ _ _ _ (S3 ltac:(assumption) ltac:(assumption))); try assumption.
  apply Qlt_le_weak, Qlt_shift_div_l; lra.
Qed.

#[global] Instance sand_comp : Proper (Qeq ==> Qeq ==> Qeq ==> Qeq ==> iff) sand.
Proof. intros l l' Hl h h' Hh v v' Hv w w' Hw. unfold sand. rewrite Hl, Hh, Hv, Hw. reflexivity. Qed.

Lemma pi_in_range : in_range 1 2 pi_binary64.
Proof. apply const_in_range; qcompute. Qed.

Lemma moderate_finite_sub a b : in_range (-100) 100 (a - b) -> Bfinite a = true ->
  Bfinite b = true /\ (B2Q b < B2Q a)%Q.
Proof.
  intros R Fa. pose proof (in_range_pos _ _ _ R) as P. destruct R as [F _].
  assert (Fb : Bfinite b = true).
  { unfold Bfinite, B2Q in *. rewrite sub_spec in F.
    destruct (Prim2SF a) as [sa|sa| |sa ma ea]; try discriminate Fa;
    destruct (Prim2SF b) as [sb|sb| |sb mb eb]; try reflexivity; try discriminate F. }
  split; [exact Fb|].
  destruct (sub_rounded a b Fa Fb) as [_ Rd].
  destruct (Qlt_le_dec (B2Q b) (B2Q a)) as [L|G]; [exact L|].
  exfalso. pose proof (rounded_nonpos _ _ Rd ltac:(lra)). lra.
Qed.

(** ** The preload expression: precision and strict sign *)

(** The computed difference against the real one. *)
Lemma track_sub a b i j : Bfinite a = true -> Bfinite b = true ->
  in_range i j (a - b) -> track 1 (B2Q a - B2Q b) (a - b) i j.
Proof.
  intros Fa Fb R. pose proof (in_range_pos _ _ _ R) as P.
  destruct (sub_rounded a b Fa Fb) as [_ Rd].
  assert (Pv : (0 < B2Q a - B2Q b)%Q).
  { destruct (Qlt_le_dec 0 (B2Q a - B2Q b)) as [L|G]; [exact L|].
    exfalso. pose proof (rounded_nonpos _ _ Rd G). lra. }
  split; [exact R|]. split; [exact Pv|].
  pose proof (rounded_grid_error _ _ Rd (finite_abs_lt _ (proj1 R))
                (grid_plus _ _ (grid_B2Q _ Fa) (grid_opp _ (grid_B2Q _ Fb)))) as E.
  rewrite (Qabs_pos (B2Q a - B2Q b)) in E by lra.
  assert (Q : (bpow (-53) == 1 # 9007199254740992)%Q) by reflexivity.
  rewrite Q in E. apply Qabs_Qle_condition in E.
  unfold sand, lo, hi. change (inject_Z 1) with 1%Q. lra.
Qed.

Theorem preload_binary64_precision (Tt Tr p : float) :
  is_finite Tt = true -> is_finite Tr = true ->
  moderate (Tt - Tr) = true -> moderate p = true ->
  (Qabs (B2Q (preload_binary64 Tt Tr p)
         - (B2Q Tt - B2Q Tr) * B2Q pi_binary64 / B2Q p)
   <= bpow (-50) * ((B2Q Tt - B2Q Tr) * B2Q pi_binary64 / B2Q p))%Q.
Proof.
  rewrite !is_finite_Bfinite. intros Ft Fr Hd Hp.
  apply moderate_in_range in Hd, Hp.
  pose proof (track_sub Tt Tr (-100) 100 Ft Fr Hd) as Td.
  pose proof (track_exact _ _ _ Hp) as Tp.
  pose proof (track_exact _ _ _ pi_in_range) as Tpi.
  assert (Tc : track 3 ((B2Q Tt - B2Q Tr) * B2Q pi_binary64) ((Tt - Tr) * pi_binary64) (-99) 102)
    by (apply (track_mul 1 0 3 _ _ _ _ (-100) 100 1 2); try assumption; try lia; qle).
  assert (TP : track 5 ((B2Q Tt - B2Q Tr) * B2Q pi_binary64 / B2Q p)
                 ((Tt - Tr) * pi_binary64 / p) (-199) 202)
    by (apply (track_div 3 0 5 _ _ _ _ (-99) 102 (-100) 100); try assumption; try lia; qle).
  destruct TP as (_ & PV & S). unfold preload_binary64.
  set (V := ((B2Q Tt - B2Q Tr) * B2Q pi_binary64 / B2Q p)%Q) in *. clearbody V.
  assert (Q : (bpow (-50) == 8 # 9007199254740992)%Q) by reflexivity. rewrite Q.
  unfold sand, lo, hi in S. change (inject_Z 5) with 5%Q in S.
  apply Qabs_Qle_condition. split; lra.
Qed.

(** A difference below [-2^-100] and a pitch of at most [2^100]: the preload
    is strictly negative. *)
Theorem preload_binary64_negative (Tt Tr p : float) :
  (Tt - Tr <=? -0x1p-100)%float = true ->
  (0 <? p)%float = true -> (p <=? 0x1p+100)%float = true ->
  (preload_binary64 Tt Tr p <? 0)%float = true.
Proof.
  intros Hd Hp Up.
  apply leb_B2Q in Hd. destruct Hd as (Nd & Nd0 & Hd).
  apply leb_B2Q in Up. destruct Up as (Np & _ & Up).
  assert (Q100 : (B2Q 0x1p+100%float == bpow 100)%Q) by qcompute. rewrite Q100 in Up.
  assert (Fp : Bfinite p = true /\ (0 < B2Q p)%Q).
  { apply ltb_B2Q in Hp. destruct Hp as (_ & _ & Hp). split; [|exact Hp].
    apply Bfinite_of_bounds; [exact Np|].
    assert (bpow 100 < bpow 1024)%Q by (apply bpow_lt; lia).
    pose proof (bpow_pos 1024). change (B2Q 0%float) with 0%Q in Hp. lra. }
  destruct Fp as [Fp Pp].
  destruct (scale_mono (Tt - Tr) (-0x1p-100)%float p Nd Nd0 Hd Fp Pp) as (N & N0 & LE).
  unfold preload_binary64.
  set (c0 := (-0x1p-100 * pi_binary64)%float) in *.
  assert (Fc0 : Bfinite c0 = true) by reflexivity.
  assert (Vc0 : (B2Q c0 <= - bpow (-99))%Q) by qcompute.
  destruct (div_rounded c0 p Fc0 Fp ltac:(lra)) as [_ R].
  assert (B : (B2Q c0 / B2Q p <= - bpow (-199))%Q).
  { apply Qle_shift_div_r; [exact Pp|].
    assert (E : (bpow (-99) == bpow (-199) * bpow 100)%Q)
      by (rewrite <- bpow_add; reflexivity).
    pose proof (bpow_pos (-199)) as P199.
    assert (0 <= bpow (-199) * (bpow 100 - B2Q p))%Q by (apply Qmult_le_0_compat; lra).
    lra. }
  pose proof (rounded_mono _ _ _ _ R (rounded_opp _ _ (rounded_bpow (-199) ltac:(lia))) B) as W.
  apply ltb_B2Q. split; [exact N|]. split; [reflexivity|].
  pose proof (bpow_pos (-199)). change (B2Q 0%float) with 0%Q. lra.
Qed.

(** ** The two final torques: signs, ranges and agreement *)

(** The sign of an operand passes through products and quotients. *)
Lemma binary_round_aux_opp s m e l :
  binary_round_aux prec emax (negb s) m e l = SFopp (binary_round_aux prec emax s m e l).
Proof.
  unfold binary_round_aux.
  destruct (shr_fexp prec emax m e l) as [mrs e1].
  destruct (shr_fexp prec emax _ e1 loc_Exact) as [mrs' e2].
  destruct (shr_m mrs'); try reflexivity.
  destruct (e2 <=? emax - prec); reflexivity.
Qed.

Lemma SFmul_opp_r x y : SFmul prec emax x (SFopp y) = SFopp (SFmul prec emax x y).
Proof.
  destruct x as [sx|sx| |sx mx ex], y as [sy|sy| |sy my ey]; cbn [SFmul SFopp];
    try reflexivity; try (destruct sx, sy; reflexivity).
  destruct sx, sy; cbn [xorb negb];
    first [exact (binary_round_aux_opp true _ _ _) | exact (binary_round_aux_opp false _ _ _)].
Qed.

Lemma SFdiv_opp_l x y : SFdiv prec emax (SFopp x) y = SFopp (SFdiv prec emax x y).
Proof.
  destruct x as [sx|sx| |sx mx ex], y as [sy|sy| |sy my ey]; cbn [SFdiv SFopp];
    try reflexivity; try (destruct sx, sy; reflexivity).
  destruct (SFdiv_core_binary prec emax (Zpos mx) ex (Zpos my) ey) as [[q e'] l].
  destruct sx, sy; cbn [xorb negb];
    first [exact (binary_round_aux_opp true _ _ _) | exact (binary_round_aux_opp false _ _ _)].
Qed.

Lemma mul_opp_r a b : (a * (- b) = - (a * b))%float.
Proof.
  apply Prim2SF_inj. rewrite mul_spec, !opp_spec, mul_spec. apply SFmul_opp_r.
Qed.

Lemma div_opp_l a b : (- a / b = - (a / b))%float.
Proof.
  apply Prim2SF_inj. rewrite div_spec, !opp_spec, div_spec. apply SFdiv_opp_l.
Qed.

Lemma B2Q_opp f : (B2Q (- f) == - B2Q f)%Q.
Proof. unfold B2Q. rewrite opp_spec. apply SF2Q_opp. Qed.

Lemma Bfinite_opp f : Bfinite (- f) = Bfinite f.
Proof. unfold Bfinite. rewrite opp_spec. destruct (Prim2SF f); reflexivity. Qed.

Lemma Bfinite_abs f : Bfinite (abs f) = Bfinite f.
Proof. unfold Bfinite. rewrite abs_spec. destruct (Prim2SF f); reflexivity. Qed.

Lemma abs_or_opp f : (f = abs f \/ f = - abs f)%float.
Proof.
  assert (H : Prim2SF f = SFabs (Prim2SF f) \/ Prim2SF f = SFopp (SFabs (Prim2SF f))).
  { destruct (Prim2SF f) as [[|]|[|]| |[|] m e]; cbn; auto. }
  destruct H as [H|H]; [left|right]; apply Prim2SF_inj.
  - rewrite abs_spec. exact H.
  - rewrite opp_spec, abs_spec. exact H.
Qed.

Lemma torques_opp Tt Tr p D :
  exact_torque_binary64 Tt Tr p (- D) = (- exact_torque_binary64 Tt Tr p D)%float /\
  ratio_torque_binary64 Tt Tr p (- D) = (- ratio_torque_binary64 Tt Tr p D)%float.
Proof.
  unfold exact_torque_binary64, ratio_torque_binary64.
  rewrite mul_opp_r, !div_opp_l, mul_opp_r. split; reflexivity.
Qed.

(** Both calls return, whatever the desired preload. *)
Lemma final_torque_returns (Tt Tr p D : float) (flag : bool) :
  moderate Tt = true -> moderate p = true -> moderate (Tt - Tr) = true ->
  calculate_final_torque Tt Tr (preload_binary64 Tt Tr p) D p flag
  = Ok (if flag then ratio_torque_binary64 Tt Tr p D else exact_torque_binary64 Tt Tr p D).
Proof.
  intros HT Hp Hd. apply moderate_in_range in HT, Hp, Hd.
  destruct (moderate_finite_sub Tt Tr Hd (proj1 HT)) as [Fr Lt].
  pose proof (track_exact _ _ _ Hp) as Tp. pose proof (track_exact _ _ _ Hd) as Td.
  pose proof (track_exact _ _ _ pi_in_range) as Tpi.
  assert (Tc : track 1 (B2Q (Tt - Tr) * B2Q pi_binary64) ((Tt - Tr) * pi_binary64) (-99) 102)
    by (apply (track_mul 0 0 1 _ _ _ _ (-100) 100 1 2); try assumption; try lia; qle).
  assert (Tip : track 3 (B2Q (Tt - Tr) * B2Q pi_binary64 / B2Q p) ((Tt - Tr) * pi_binary64 / p) (-199) 202)
    by (apply (track_div 1 0 3 _ _ _ _ (-99) 102 (-100) 100); try assumption; try lia; qle).
  assert (Tc' : track 1 (B2Q pi_binary64 * B2Q (Tt - Tr)) (pi_binary64 * (Tt - Tr)) (-99) 102)
    by (apply (track_mul 0 0 1 _ _ _ _ 1 2 (-100) 100); try assumption; try lia; qle).
  destruct (in_range_guards _ _ _ Hp) as (Gp & _).
  destruct Tip as (Rip & _). destruct (in_range_guards _ _ _ Rip) as (_ & Gip & _).
  destruct Tc' as (Rc' & _). destruct (in_range_guards _ _ _ Rc') as (_ & Gc' & _).
  assert (Gt : (Tt <=? Tr)%float = false) by (apply leb_false_of_B2Q, Lt).
  unfold calculate_final_torque, py_div, preload_binary64,
    ratio_torque_binary64, exact_torque_binary64.
  cbn [fleb fltb feqb fmul fsub fadd fquo is_inf of_Z math_pi binary64].
  change (float_of_Z 0) with 0%float.
  rewrite Gp, Gt, Gip. cbn [bind]. rewrite Gc'. reflexivity.
Qed.

(** A desired preload between 2^-500 and 2^500: the torques are close. *)
Lemma torques_close_pos (Tt Tr p D : float) :
  moderate Tt = true -> moderate p = true -> moderate (Tt - Tr) = true ->
  in_range (-500) 500 D ->
  in_range (-802) 799 (exact_torque_binary64 Tt Tr p D) /\
  in_range (-802) 799 (ratio_torque_binary64 Tt Tr p D) /\
  (Qabs (B2Q (ratio_torque_binary64 Tt Tr p D) - B2Q (exact_torque_binary64 Tt Tr p D))
   <= bpow (-49) * B2Q (exact_torque_binary64 Tt Tr p D))%Q.
Proof.
  intros HT Hp Hd HD. apply moderate_in_range in HT, Hp, Hd.
  unfold exact_torque_binary64, ratio_torque_binary64.
  set (d := (Tt - Tr)%float) in *.
  pose proof (track_exact _ _ _ HT) as TT. pose proof (track_exact _ _ _ Hp) as Tp.
  pose proof (track_exact _ _ _ HD) as TD. pose proof (track_exact _ _ _ Hd) as Td.
  pose proof (track_exact _ _ _ pi_in_range) as Tpi.
  assert (Tc : track 1 (B2Q d * B2Q pi_binary64) (d * pi_binary64) (-99) 102)
    by (apply (track_mul 0 0 1 _ _ _ _ (-100) 100 1 2); try assumption; try lia; qle).
  assert (Tip : track 3 (B2Q d * B2Q pi_binary64 / B2Q p) (d * pi_binary64 / p) (-199) 202)
    by (apply (track_div 1 0 3 _ _ _ _ (-99) 102 (-100) 100); try assumption; try lia; qle).
  assert (Tq : track 5 (B2Q D / (B2Q d * B2Q pi_binary64 / B2Q p)) (D / (d * pi_binary64 / p)) (-702) 699)
    by (apply (track_div 0 3 5 _ _ _ _ (-500) 500 (-199) 202); try assumption; try lia; qle).
  assert (Tra : track 7 (B2Q Tt * (B2Q D / (B2Q d * B2Q pi_binary64 / B2Q p)))
                  (Tt * (D / (d * pi_binary64 / p))) (-802) 799)
    by (apply (track_mul 0 5 7 _ _ _ _ (-100) 100 (-702) 699); try assumption; try lia; qle).
  assert (T1 : track 1 (B2Q p * B2Q Tt) (p * Tt) (-200) 200)
    by (apply (track_mul 0 0 1 _ _ _ _ (-100) 100 (-100) 100); try assumption; try lia; qle).
  assert (T2 : track 3 (B2Q p * B2Q Tt * B2Q D) (p * Tt * D) (-700) 700)
    by (apply (track_mul 1 0 3 _ _ _ _ (-200) 200 (-500) 500); try assumption; try lia; qle).
  assert (Tc' : track 1 (B2Q pi_binary64 * B2Q d) (pi_binary64 * d) (-99) 102)
    by (apply (track_mul 0 0 1 _ _ _ _ 1 2 (-100) 100); try assumption; try lia; qle).
  assert (Tex : track 7 (B2Q p * B2Q Tt * B2Q D / (B2Q pi_binary64 * B2Q d))
                  (p * Tt * D / (pi_binary64 * d)) (-802) 799)
    by (apply (track_div 3 1 7 _ _ _ _ (-700) 700 (-99) 102); try assumption; try lia; qle).
  destruct Tra as (Rra & PV & Sra). destruct Tex as (Rex & PV' & Sex).
  split; [exact Rex|]. split; [exact Rra|].
  assert (EV : (B2Q p * B2Q Tt * B2Q D / (B2Q pi_binary64 * B2Q d)
                == B2Q Tt * (B2Q D / (B2Q d * B2Q pi_binary64 / B2Q p)))%Q).
  { pose proof (in_range_pos _ _ _ Hp). pose proof (in_range_pos _ _ _ Hd).
    pose proof pi_binary64_pos. field. repeat split; lra. }
  rewrite EV in Sex.
  set (V := (B2Q Tt * (B2Q D / (B2Q d * B2Q pi_binary64 / B2Q p)))%Q) in *.
  assert (Q : (bpow (-49) == 16 # 9007199254740992)%Q) by reflexivity. rewrite Q.
  unfold sand, lo, hi in Sra, Sex. change (inject_Z 7) with 7%Q in Sra, Sex.
  clearbody V. apply Qabs_Qle_condition. split; lra.
Qed.

Lemma in_range0_of_rounded j v f : Bnan f = false -> rounded v (B2Q f) ->
  -1074 <= j <= 1023 -> (0 <= v <= bpow j)%Q -> in_range0 j f.
Proof.
  intros N R Hj [L U].
  pose proof (rounded_nonneg _ _ R L). pose proof (rounded_le_bpow _ _ j R Hj U).
  split; [|split; assumption].
  apply Bfinite_of_bounds; [exact N|].
  pose proof (bpow_pos 1024). assert (bpow j < bpow 1024)%Q by (apply bpow_lt; lia). lra.
Qed.

Lemma mul_in_range0 a b j j' : in_range0 j a -> in_range0 j' b ->
  -1074 <= j + j' <= 1023 -> in_range0 (j + j') (a * b).
Proof.
  intros [Fa [La Ua]] [Fb [Lb Ub]] Hj.
  destruct (mul_rounded a b Fa Fb) as [N R].
  apply (in_range0_of_rounded _ _ _ N R Hj).
  rewrite bpow_add. split; [apply Qmult_le_0_compat; assumption|].
  apply Qmult_le_compat_nonneg; split; assumption.
Qed.

Lemma div_in_range0 a b j i' j' : in_range0 j a -> in_range i' j' b ->
  -1074 <= j - i' <= 1023 -> in_range0 (j - i') (a / b).
Proof.
  intros [Fa [La Ua]] Rb Hj. pose proof (in_range_pos _ _ _ Rb) as Pb.
  destruct Rb as [Fb [Lb Ub]]. pose proof (bpow_pos i').
  destruct (div_rounded a b Fa Fb ltac:(lra)) as [N R].
  apply (in_range0_of_rounded _ _ _ N R Hj).
  assert (0 < / B2Q b)%Q by (apply Qinv_lt_0_compat; lra).
  split; [unfold Qdiv; apply Qmult_le_0_compat; lra|].
  unfold Z.sub. rewrite bpow_add.
  assert (I : (bpow (- i') == / bpow i')%Q) by (unfold bpow; apply Qpower_opp).
  rewrite I. unfold Qdiv.
  assert (/ B2Q b <= / bpow i')%Q.
  { apply Qle_shift_inv_l; [lra|].
    setoid_replace (/ B2Q b * bpow i')%Q with (bpow i' / B2Q b)%Q by (field; lra).
    apply Qle_shift_div_r; lra. }
  apply Qmult_le_compat_nonneg; split; lra.
Qed.

Lemma in_range_in_range0 i j f : in_range i j f -> in_range0 j f.
Proof.
  intros [F [L U]]. pose proof (bpow_pos i). split; [exact F|]. lra.
Qed.

(** Two finite floats within 2^-7 of each other pass the tolerance 0.01. *)
Lemma within_of_close a b : Bfinite a = true -> Bfinite b = true ->
  (Qabs (B2Q a - B2Q b) <= bpow (-7))%Q -> within 0.01%float a b = true.
Proof.
  intros Fa Fb H. apply Qabs_Qle_condition in H.
  destruct (sub_rounded a b Fa Fb) as [N1 R1].
  destruct (sub_rounded b a Fb Fa) as [N2 R2].
  assert (C01 : (bpow (-7) <= B2Q 0.01)%Q) by qcompute.
  assert (N01 : Bnan 0.01 = false) by reflexivity.
  unfold within. cbn [fleb fsub binary64]. apply andb_true_iff. split; apply leb_B2Q.
  - split; [exact N1|split; [exact N01|]].
    apply Qle_trans with (2 := C01). apply (rounded_le_bpow _ _ (-7) R1); [lia|lra].
  - split; [exact N2|split; [exact N01|]].
    apply Qle_trans with (2 := C01). apply (rounded_le_bpow _ _ (-7) R2); [lia|lra].
Qed.

(** A desired preload that is not negative, and a torque of at most 2^42. *)
Lemma torques_within_nonneg (Tt Tr p D : float) :
  moderate Tt = true -> moderate p = true -> moderate (Tt - Tr) = true ->
  Bfinite D = true -> (0 <= B2Q D)%Q ->
  (Qabs (B2Q (exact_torque_binary64 Tt Tr p D)) <= bpow 42)%Q ->
  Bfinite (exact_torque_binary64 Tt Tr p D) = true /\
  Bfinite (ratio_torque_binary64 Tt Tr p D) = true /\
  (Qabs (B2Q (exact_torque_binary64 Tt Tr p D) - B2Q (ratio_torque_binary64 Tt Tr p D))
   <= bpow (-7))%Q.
Proof.
  intros HT Hp Hd FD PD Hte.
  destruct (Qlt_le_dec (B2Q D) (bpow (-500))) as [Tiny|Big].
  - (* both torques are below 2^-201 *)
    apply moderate_in_range in HT, Hp, Hd.
    unfold exact_torque_binary64, ratio_torque_binary64 in *.
    set (d := (Tt - Tr)%float) in *.
    assert (R1 : in_range (-200) 200 (p * Tt))
      by exact (mul_in_range _ _ _ _ _ _ Hp HT ltac:(lia) ltac:(lia)).
    assert (Rc : in_range (-99) 102 (d * pi_binary64))
      by exact (mul_in_range _ _ _ _ _ _ Hd pi_in_range ltac:(lia) ltac:(lia)).
    assert (Rc' : in_range (-99) 102 (pi_binary64 * d))
      by exact (mul_in_range _ _ _ _ _ _ pi_in_range Hd ltac:(lia) ltac:(lia)).
    assert (Rip : in_range (-199) 202 (d * pi_binary64 / p))
      by exact (div_in_range _ _ _ _ _ _ Rc Hp ltac:(lia) ltac:(lia)).
    assert (RD : in_range0 (-500) D) by (split; [exact FD|split; [exact PD|lra]]).
    assert (R2 : in_range0 (-300) (p * Tt * D))
      by exact (mul_in_range0 _ _ 200 (-500) (in_range_in_range0 _ _ _ R1) RD ltac:(lia)).
    assert (Re : in_range0 (-201) (p * Tt * D / (pi_binary64 * d)))
      by exact (div_in_range0 _ _ (-300) (-99) 102 R2 Rc' ltac:(lia)).
    assert (Rq : in_range0 (-301) (D / (d * pi_binary64 / p)))
      by exact (div_in_range0 _ _ (-500) (-199) 202 RD Rip ltac:(lia)).
    assert (Rr : in_range0 (-201) (Tt * (D / (d * pi_binary64 / p))))
      by exact (mul_in_range0 _ _ 100 (-301) (in_range_in_range0 _ _ _ HT) Rq ltac:(lia)).
    destruct Re as [Fe [Le Ue]], Rr as [Frr [Lr Ur]].
    split; [exact Fe|]. split; [exact Frr|].
    assert (bpow (-201) <= bpow (-7))%Q by (apply bpow_le; lia).
    apply Qabs_Qle_condition. split; lra.
  - destruct (Qlt_le_dec (bpow 500) (B2Q D)) as [Huge|Mid].
    + (* the exact torque is at least 2^198 *)
      exfalso.
      apply moderate_in_range in HT, Hp, Hd.
      unfold exact_torque_binary64 in Hte.
      set (d := (Tt - Tr)%float) in *.
      assert (R1 : in_range (-200) 200 (p * Tt))
        by exact (mul_in_range _ _ _ _ _ _ Hp HT ltac:(lia) ltac:(lia)).
      assert (Rc' : in_range (-99) 102 (pi_binary64 * d))
        by exact (mul_in_range _ _ _ _ _ _ pi_in_range Hd ltac:(lia) ltac:(lia)).
      destruct (mul_rounded _ D (proj1 R1) FD) as [N2 R2].
      assert (L2 : (bpow 300 <= B2Q (p * Tt * D))%Q).
      { apply (rounded_ge_bpow _ _ 300 R2); [lia|].
        change 300 with (-200 + 500). rewrite bpow_add.
        destruct R1 as [_ [L1 _]]. pose proof (bpow_pos (-200)). pose proof (bpow_pos 500).
        apply Qmult_le_compat_nonneg; split; lra. }
      assert (R300 : in_range 300 300 0x1p+300%float) by (apply const_in_range; qcompute).
      assert (Q300 : (B2Q 0x1p+300%float == bpow 300)%Q) by qcompute.
      destruct (div_mono_l 0x1p+300%float (p * Tt * D) (pi_binary64 * d) eq_refl N2
                  (proj1 Rc') (in_range_pos _ _ _ Rc') ltac:(rewrite Q300; exact L2))
        as (_ & _ & LE).
      assert (R198 : in_range 198 399 (0x1p+300 / (pi_binary64 * d)))
        by exact (div_in_range _ _ _ _ _ _ R300 Rc' ltac:(lia) ltac:(lia)).
      destruct R198 as [_ [L198 _]].
      assert (bpow 42 < bpow 198)%Q by (apply bpow_lt; lia).
      apply Qabs_Qle_condition in Hte. lra.
    + (* the relative bound *)
      assert (RD : in_range (-500) 500 D) by (split; [exact FD|split; assumption]).
      destruct (torques_close_pos Tt Tr p D HT Hp Hd RD) as (Re & Rr & C).
      split; [exact (proj1 Re)|]. split; [exact (proj1 Rr)|].
      pose proof (in_range_pos _ _ _ Re) as Pe.
      rewrite (Qabs_pos _ (Qlt_le_weak _ _ Pe)) in Hte.
      assert (B : (bpow (-49) * B2Q (exact_torque_binary64 Tt Tr p D) <= bpow (-7))%Q).
      { change (-7) with (-49 + 42). rewrite bpow_add.
        rewrite !(Qmult_comm (bpow (-49))).
        apply Qmult_le_compat_r; [exact Hte|apply Qlt_le_weak, bpow_pos]. }
      apply Qabs_Qle_condition in C. apply Qabs_Qle_condition. split; lra.
Qed.

Lemma Qabs_opp_sub a b : (Qabs (- a - - b) == Qabs (a - b))%Q.
Proof.
  setoid_replace (- a - - b)%Q with (- (a - b))%Q by ring. apply Qabs_opp.
Qed.

(** The same for a desired preload of either sign. *)
Lemma torques_within (Tt Tr p D : float) :
  moderate Tt = true -> moderate p = true -> moderate (Tt - Tr) = true ->
  is_finite D = true ->
  (abs (exact_torque_binary64 Tt Tr p D) <=? 0x1p+42)%float = true ->
  within 0.01%float (exact_torque_binary64 Tt Tr p D) (ratio_torque_binary64 Tt Tr p D) = true.
Proof.
  intros HT Hp Hd FD Hte. apply is_finite_Bfinite in FD.
  apply leb_B2Q in Hte. destruct Hte as (_ & _ & Hte).
  rewrite B2Q_abs in Hte.
  assert (Q42 : (B2Q 0x1p+42%float == bpow 42)%Q) by qcompute. rewrite Q42 in Hte.
  assert (FD' : Bfinite (abs D) = true) by (rewrite Bfinite_abs; exact FD).
  assert (PD' : (0 <= B2Q (abs D))%Q) by (rewrite B2Q_abs; apply Qabs_nonneg).
  pose proof (abs_or_opp D) as E. clear FD.
  revert E FD' PD'. generalize (abs D). intros D' E FD' PD'.
  destruct E as [E|E]; subst D.
  - destruct (torques_within_nonneg Tt Tr p D' HT Hp Hd FD' PD' Hte) as (Fe & Fr & C).
    apply within_of_close; assumption.
  - destruct (torques_opp Tt Tr p D') as [Ee Er].
    rewrite Ee in Hte. rewrite B2Q_opp, Qabs_opp in Hte.
    destruct (torques_within_nonneg Tt Tr p D' HT Hp Hd FD' PD' Hte) as (Fe & Fr & C).
    rewrite Ee, Er. apply within_of_close.
    + rewrite Bfinite_opp. exact Fe.
    + rewrite Bfinite_opp. exact Fr.
    + rewrite !B2Q_opp, Qabs_opp_sub. exact C.
Qed.

(** And the relative bound, for a desired preload of either sign. *)
Lemma torques_close (Tt Tr p D : float) :
  moderate Tt = true -> moderate p = true -> moderate (Tt - Tr) = true ->
  (0x1p-500 <=? abs D)%float = true -> (abs D <=? 0x1p+500)%float = true ->
  is_finite (exact_torque_binary64 Tt Tr p D) = true /\
  is_finite (ratio_torque_binary64 Tt Tr p D) = true /\
  (Qabs (B2Q (ratio_torque_binary64 Tt Tr p D) - B2Q (exact_torque_binary64 Tt Tr p D))
   <= bpow (-49) * Qabs (B2Q (exact_torque_binary64 Tt Tr p D)))%Q.
Proof.
  intros HT Hp Hd L U.
  assert (RD : in_range (-500) 500 (abs D))
    by (apply (in_range_of_leb _ _ _ _ _ L U); [qcompute|qcompute|lia]).
  rewrite !is_finite_Bfinite.
  pose proof (abs_or_opp D) as E. clear L U.
  revert E RD. generalize (abs D). intros D' E RD.
  destruct (torques_close_pos Tt Tr p D' HT Hp Hd RD) as (Re & Rr & C).
  pose proof (in_range_pos _ _ _ Re) as Pe.
  destruct E as [E|E]; subst D.
  - split; [exact (proj1 Re)|]. split; [exact (proj1 Rr)|].
    rewrite (Qabs_pos _ (Qlt_le_weak _ _ Pe)). exact C.
  - destruct (torques_opp Tt Tr p D') as [Ee Er]. rewrite Ee, Er.
    rewrite !Bfinite_opp, !B2Q_opp, Qabs_opp_sub, Qabs_opp.
    split; [exact (proj1 Re)|]. split; [exact (proj1 Rr)|].
    rewrite (Qabs_pos _ (Qlt_le_weak _ _ Pe)). exact C.
Qed.

(** C2, as the code has it.  Let the tightening torque, the pitch and the
    computed difference [Tt - Tr] lie between 2^-100 and 2^100, and let
    [initial_preload] be what [calculate_preload Tt Tr p] returns.  Then,
    for every desired preload, both methods of [calculate_final_torque]
    return.  For every finite desired preload, of either sign, their torques
    agree within 0.01 whenever the torque of the exact method is at most
    2^42 in magnitude.  For a desired preload of magnitude between 2^-500
    and 2^500 the two torques are finite and differ by at most a relative
    2^-49. *)
Theorem final_torque_methods_agree_binary64
    (Tt Tr p desired_preload initial_preload : float) :
  moderate Tt = true -> moderate p = true -> moderate (Tt - Tr) = true ->
  calculate_preload Tt Tr p = Ok initial_preload ->
  exists exact_torque ratio_torque : float,
    calculate_final_torque Tt Tr initial_preload desired_preload p false = Ok exact_torque /\
    calculate_final_torque Tt Tr initial_preload desired_preload p true = Ok ratio_torque /\
    (is_finite desired_preload = true ->
     (abs exact_torque <=? 0x1p+42)%float = true ->
     within 0.01%float exact_torque ratio_torque = true) /\
    ((0x1p-500 <=? abs desired_preload)%float = true ->
     (abs desired_preload <=? 0x1p+500)%float = true ->
     is_finite exact_torque = true /\ is_finite ratio_torque = true /\
     (Qabs (B2Q ratio_torque - B2Q exact_torque) <= bpow (-49) * Qabs (B2Q exact_torque))%Q).
Proof.
  intros HT Hp Hd Hip.
  assert (P : (0 <? p)%float = true)
    by (destruct (in_range_guards _ _ _ (moderate_in_range p Hp)) as (_ & _ & _ & G & _); exact G).
  rewrite (calculate_preload_binary64 Tt Tr p P) in Hip. injection Hip as <-.
  exists (exact_torque_binary64 Tt Tr p desired_preload),
         (ratio_torque_binary64 Tt Tr p desired_preload).
  split; [exact (final_torque_returns Tt Tr p desired_preload false HT Hp Hd)|].
  split; [exact (final_torque_returns Tt Tr p desired_preload true HT Hp Hd)|].
  split.
  - exact (torques_within Tt Tr p desired_preload HT Hp Hd).
  - exact (torques_close Tt Tr p desired_preload HT Hp Hd).
Qed.

Lemma final_torque_methods_agree_binary64_witness :
  exists exact_torque ratio_torque : float,
    (calculate_final_torque 25 21.4 282.7433388230815 400 0.04 false)%float = Ok exact_torque /\
    (calculate_final_torque 25 21.4 282.7433388230815 400 0.04 true)%float = Ok ratio_torque /\
    within 0.01%float exact_torque ratio_torque = true /\
    is_finite exact_torque = true /\ is_finite ratio_torque = true /\
    (Qabs (B2Q ratio_torque - B2Q exact_torque) <= bpow (-49) * Qabs (B2Q exact_torque))%Q.
Proof.
  destruct (final_torque_methods_agree_binary64 25 21.4 0.04 400 282.7433388230815
              eq_refl eq_refl eq_refl eq_refl) as (te & tr & E1 & E2 & W & C).
  exists te, tr. split; [exact E1|]. split; [exact E2|].
  split; [|exact (C eq_refl eq_refl)].
  apply W; [reflexivity|].
  vm_compute in E1. injection E1 as <-. reflexivity.
Defined.

(** ** The preload and the final torque on binary64 *)

(** C1, as the code has it.  For [Tt > Tr] and a finite pitch [p > 0],
    [calculate_preload Tt Tr p] returns the binary64 value of
    [(Tt - Tr) * pi / p] ([preload_binary64]: each operation rounded to
    nearest, overflow to [inf] and underflow to [0] included).  That value
    is never negative and never NaN.  It does not decrease when the
    difference [Tt - Tr] grows, whether the computed or the real one, and it
    does not increase when [p] grows.  When the computed difference and the
    pitch lie between 2^-100 and 2^100 it is within a relative 2^-50 of the
    real number [(Tt - Tr) * pi / p], [pi] being the value of [math.pi]. *)
Theorem calculate_preload_binary64_monotone (Tt Tr p : float) :
  (Tr <? Tt)%float = true -> (0 <? p)%float = true -> is_infinity p = false ->
  calculate_preload Tt Tr p = Ok (preload_binary64 Tt Tr p) /\
  (0 <=? preload_binary64 Tt Tr p)%float = true /\
  (forall Tt' Tr' : float,
     (Tt - Tr <=? Tt' - Tr')%float = true ->
     (preload_binary64 Tt Tr p <=? preload_binary64 Tt' Tr' p)%float = true) /\
  (forall Tt' Tr' : float,
     is_finite Tt = true -> is_finite Tr = true ->
     is_finite Tt' = true -> is_finite Tr' = true ->
     (B2Q Tt - B2Q Tr <= B2Q Tt' - B2Q Tr')%Q ->
     (preload_binary64 Tt Tr p <=? preload_binary64 Tt' Tr' p)%float = true) /\
  (forall p' : float,
     (p <=? p')%float = true -> is_infinity p' = false ->
     (preload_binary64 Tt Tr p' <=? preload_binary64 Tt Tr p)%float = true) /\
  (is_finite Tt = true -> is_finite Tr = true ->
   moderate (Tt - Tr) = true -> moderate p = true ->
   (Qabs (B2Q (preload_binary64 Tt Tr p)
          - (B2Q Tt - B2Q Tr) * B2Q pi_binary64 / B2Q p)
    <= bpow (-50) * ((B2Q Tt - B2Q Tr) * B2Q pi_binary64 / B2Q p))%Q).
Proof.
  intros L Hp Ip.
  split; [exact (calculate_preload_binary64 Tt Tr p Hp)|].
  split; [exact (preload_binary64_nonnegative Tt Tr p L Hp Ip)|].
  split; [intros Tt' Tr'; exact (preload_binary64_monotone_difference Tt Tr Tt' Tr' p Hp Ip)|].
  split; [|split].
  - intros Tt' Tr' F1 F2 F3 F4.
    apply preload_binary64_monotone_real_difference; try assumption;
      apply is_finite_Bfinite; assumption.
  - intros p'. exact (preload_binary64_antitone_pitch Tt Tr p p' L Hp Ip).
  - exact (preload_binary64_precision Tt Tr p).
Qed.

Lemma calculate_preload_binary64_monotone_witness :
  (calculate_preload 25 21.4 0.04 = Ok (preload_binary64 25 21.4 0.04) /\
   (0 <=? preload_binary64 25 21.4 0.04) = true /\
   (preload_binary64 25 21.4 0.04 <=? preload_binary64 35 21.4 0.04) = true /\
   (preload_binary64 25 21.4 0.05 <=? preload_binary64 25 21.4 0.04) = true)%float /\
  (Qabs (B2Q (preload_binary64 25 21.4 0.04)
         - (B2Q 25 - B2Q 21.4) * B2Q pi_binary64 / B2Q 0.04)
   <= bpow (-50) * ((B2Q 25 - B2Q 21.4) * B2Q pi_binary64 / B2Q 0.04))%Q.
Proof.
  destruct (calculate_preload_binary64_monotone 25 21.4 0.04 eq_refl eq_refl eq_refl)
    as (V & S & M1 & _ & M3 & P).
  split; [|exact (P eq_refl eq_refl eq_refl eq_refl)].
  split; [exact V|]. split; [exact S|].
  split; [exact (M1 35%float 21.4%float eq_refl)|].
  exact (M3 0.05%float eq_refl eq_refl).
Defined.

(** C1 as stated fails on binary64.  The result of
    [calculate_preload 1e308 0 1] is [inf], not the quotient, and a strictly
    larger difference gives the same result; likewise a strictly larger
    pitch at [5e-324].  With an infinite pitch the result can be NaN. *)
Lemma calculate_preload_not_strictly_monotone :
  ((1e308 - 0 <? 1.5e308 - 0) = true /\
   calculate_preload 1e308 0 1 = Ok infinity /\
   calculate_preload 1.5e308 0 1 = Ok infinity /\
   (5e-324 <? 1e-323) = true /\
   calculate_preload 1 0 5e-324 = Ok infinity /\
   calculate_preload 1 0 1e-323 = Ok infinity /\
   (0 <? infinity) = true /\
   calculate_preload infinity 0 infinity = Ok nan)%float.
Proof. repeat split; vm_compute; reflexivity. Qed.

(** C2 as stated fails on binary64.  With the initial preload of
    [calculate_preload 25 21.4 0.04] and a desired preload of 1e15 the two
    torques are 1/64 apart; and where the initial preload underflows to
    zero both methods raise [ZeroDivisionError]. *)
Lemma final_torque_methods_disagree :
  (calculate_preload 25 21.4 0.04 = Ok 282.7433388230815 /\
   calculate_final_torque 25 21.4 282.7433388230815 1e15 0.04 false
   = Ok 88419412828830.703 /\
   calculate_final_torque 25 21.4 282.7433388230815 1e15 0.04 true
   = Ok 88419412828830.719 /\
   within 0.01 88419412828830.703 88419412828830.719 = false /\
   calculate_preload 5e-324 0 1e10 = Ok 0 /\
   calculate_final_torque 5e-324 0 0 400 1e10 false = Raise ZeroDivisionError /\
   calculate_final_torque 5e-324 0 0 400 1e10 true = Raise ZeroDivisionError)%float.
Proof. repeat split; vm_compute; reflexivity. Qed.

Lemma safety_factor_from_torque_binary64_witness :
  exists sf : float,
    (safety_factor_from_torque 35 2.0 0.2 0.4 950 = Ok sf /\
     (0 <? sf) = true /\ (sf <? infinity) = true)%float.
Proof.
  exact (safety_factor_from_torque_binary64 35 2.0 0.2 0.4 950
           eq_refl eq_refl eq_refl eq_refl eq_refl eq_refl).
Defined.

(** C5 as stated fails on binary64, all five inputs positive and finite:
    the tensile area is zero at [d = 0.9382 * p]; the square of the
    effective diameter overflows at [d = 1e200]; [K * d] underflows to zero
    at [K = d = 1e-200]; the stress underflows to zero; and the safety
    factor itself overflows to [inf]. *)
Lemma safety_factor_from_torque_fails :
  (safety_factor_from_torque 1 0.9382 1 1 1
   = Raise (ValueError "Tensile area must be positive"%string) /\
   safety_factor_from_torque 1 1e200 1 1 1 = Raise OverflowError /\
   safety_factor_from_torque 1 1e-200 1e-200 1 1 = Raise ZeroDivisionError /\
   safety_factor_from_torque 1e-300 1e100 1 1 1
   = Raise (ValueError "Stress must be positive"%string) /\
   safety_factor_from_torque 1e-300 1 1e10 1e-10 1 = Ok infinity)%float.
Proof. repeat split; vm_compute; reflexivity. Qed.

(** C6, as the code has it.  [calculate_preload] raises [ValueError] exactly
    when [thread_pitch <= 0]; the two torques are not compared: for [p > 0]
    it returns the binary64 value of [(Tt - Tr) * pi / p] whatever the
    torques.  For [Tt < Tr] and a finite [p] that value is never positive
    and never NaN: it is negative, or [-0.0] when the quotient underflows.
    It is strictly negative when the computed difference is at most
    [-2^-100] and [p] at most [2^100]. *)
Theorem calculate_preload_binary64_permissive (Tt Tr p : float) :
  (raises_ValueError (calculate_preload Tt Tr p) <-> (p <=? 0)%float = true) /\
  ((0 <? p)%float = true ->
   calculate_preload Tt Tr p = Ok (preload_binary64 Tt Tr p)) /\
  ((Tt <? Tr)%float = true -> (0 <? p)%float = true -> is_infinity p = false ->
   (preload_binary64 Tt Tr p <=? 0)%float = true) /\
  ((Tt - Tr <=? -0x1p-100)%float = true ->
   (0 <? p)%float = true -> (p <=? 0x1p+100)%float = true ->
   (preload_binary64 Tt Tr p <? 0)%float = true).
Proof.
  split; [exact (calculate_preload_raises_iff Tt Tr p)|].
  split; [exact (calculate_preload_binary64 Tt Tr p)|].
  split; [exact (preload_binary64_nonpositive Tt Tr p)|].
  exact (preload_binary64_negative Tt Tr p).
Qed.

Lemma calculate_preload_binary64_permissive_witness :
  (calculate_preload 20 25 0.04 = Ok (preload_binary64 20 25 0.04) /\
   (preload_binary64 20 25 0.04 <=? 0) = true /\
   (preload_binary64 20 25 0.04 <? 0) = true)%float.
Proof.
  destruct (calculate_preload_binary64_permissive 20 25 0.04) as (_ & A & B & C).
  split; [exact (A eq_refl)|]. split; [exact (B eq_refl eq_refl eq_refl)|].
  exact (C eq_refl eq_refl eq_refl).
Defined.

(** C6 as stated fails on binary64: for [Tt = 0 < Tr = 5e-324] and
    [p = 1e10] the value returned is [-0.0], which is not negative; and with
    an infinite pitch the value can be NaN. *)
Lemma calculate_preload_negative_zero :
  ((5e-324 <? 1e10) = true /\ (0 <? 5e-324) = true /\
   calculate_preload 0 5e-324 1e10 = Ok (-0) /\ (-0 <? 0) = false /\
   (neg_infinity <? 0) = true /\ (0 <? infinity) = true /\
   calculate_preload neg_infinity 0 infinity = Ok nan /\ (nan <? 0) = false)%float.
Proof. repeat split; vm_compute; reflexivity. Qed.

Lemma torque_components_sum_binary64_witness :
  exists sl pl : float,
    (calculate_self_loosening 35 29.5)%float = Ok sl /\
    (calculate_primary_locking 35 29.5)%float = Ok pl /\
    is_finite (sl + pl) = true /\
    (Qabs (B2Q (sl + pl) - B2Q 35)
     <= bpow (-51) * (Qabs (B2Q 35) + Qabs (B2Q 29.5)) + bpow (-1073))%Q.
Proof.
  exact (torque_components_sum_binary64 35 29.5 eq_refl eq_refl eq_refl eq_refl).
Defined.

(** C8 as stated fails on binary64: at [Tt = 1], [Tr = 1e17] the two
    components sum to [0], not [1]; at [Tt = 1e308], [Tr = 9e307] the
    primary locking is [inf]. *)
Lemma torque_components_sum_off :
  (calculate_self_loosening 1 1e17 = Ok (-50000000000000000) /\
   calculate_primary_locking 1 1e17 = Ok 50000000000000000 /\
   -50000000000000000 + 50000000000000000 = 0 /\
   (0 =? 1) = false /\
   calculate_self_loosening 1e308 9e307 = Ok 4.9999999999999981e+306 /\
   calculate_primary_locking 1e308 9e307 = Ok infinity /\
   4.9999999999999981e+306 + infinity = infinity)%float.
Proof. repeat split; vm_compute; reflexivity. Qed.
